(** * gopls workspace model: overlays, package selection, change handling

    A shallow embedding of the workspace-model code of the language
    server:

    - package [source]: [Metadata], [IsIntermediateTestVariant],
      [RemoveIntermediateTestVariants], [NarrowestMetadataForFile],
      [NarrowestPackageForFile], [WidestPackageForFile],
      [selectPackageForFile];
    - package [cache]: [updateOverlays], [mustReadFile], [brokenFile],
      [DidModifyFiles], [updateViewLocked], [dropView], [removeElement],
      [ModVuln];
    - package [lsp]: [DidChange], [changedText], [applyIncrementalChanges].

    Go values are modelled as follows.  A [(T, error)] result is a
    [result T]; a function that can panic returns an [exec]; a function
    that mutates the receiver returns the new state next to its result;
    a Go map is a [gmap]; a slice is a list (with its backing array made
    explicit where the code writes through an alias); a function whose
    body is outside the translated sources is a field of one of the
    classes [FileFuncs], [ProtocolFuncs], [ViewFuncs] and [ServerFuncs]. *)

From Stdlib Require Import ZArith Strings.Byte.
From stdpp Require Import gmap strings list fin_maps sorting.

Set Default Proof Using "Type".

(* ===================================================================== *)
(** * Definitions                                                        *)
(* ===================================================================== *)

(** ** Results, panics and logged calls *)

(** Go errors.  Each [fmt.Errorf] of the translated functions has its own
    constructor; [ErrExternal] stands for an error value produced by a
    collaborator (the build system, the type checker, the file system). *)
Inductive error : Type :=
| ErrNoPackageMetadata (uri : string)
| ErrModifyingUnopenedOverlay (uri : string)
| ErrNoKnownContent (action : string)
| ErrOverlayChangedOnSave (uri : string)
| ErrViewNotFound (id : Z)
| ErrNoContentChanges
| ErrFileNotFound (cause : error)
| ErrUnexpectedNilRange
| ErrInvalidRange
| ErrExternal (msg : string).

(** A Go [(T, error)] pair. *)
Inductive result (A : Type) : Type :=
| Ok (a : A)
| Err (e : error).
Arguments Ok {A} a.
Arguments Err {A} e.

(** A computation that either completes or panics. *)
Inductive exec (A : Type) : Type :=
| Done (a : A)
| Panic (msg : string).
Arguments Done {A} a.
Arguments Panic {A} msg.

Definition exec_bind {A B} (m : exec A) (k : A → exec B) : exec B :=
  match m with
  | Done a => k a
  | Panic msg => Panic msg
  end.

Notation "x ←! m ; k" := (exec_bind m (λ x, k))
  (at level 100, m at next level, right associativity,
   format "x  ←!  m ;  '/' k").

(** Equality of bytes is decidable (through their numeric value). *)
Global Instance byte_eq_dec : EqDecision byte.
Proof.
  refine (λ a b, cast_if (decide (Byte.to_N a = Byte.to_N b)));
    abstract (first [ by apply (f_equal Byte.of_N) in e;
                         rewrite !Byte.of_to_N in e; injection e
                    | congruence ]).
Defined.

(** [[]byte(s)]: the bytes of a Go string. *)
Definition bytes (s : string) : list byte := String.list_byte_of_string s.

(** ** Package [file] *)

Module file.

Definition DocumentURI := string.

(** [file.Hash] is a [sha256.Size]-byte array. *)
Definition Hash := list byte.
Definition zeroHash : Hash := replicate 32 x00.

Record Identity := mkIdentity { id_URI : DocumentURI; id_Hash : Hash }.

(** The [file.Handle] interface.  Handles are immutable, so a handle is
    represented by what its five methods return. *)
Record Handle := mkHandle {
  h_URI : DocumentURI;
  h_Identity : Identity;
  h_SameContentsOnDisk : bool;
  h_Version : Z;
  h_Content : result (list byte);
}.

Inductive Action : Type :=
| UnknownAction | Open | Change | Close | Save | Create | Delete.

Definition Action_String (a : Action) : string :=
  match a with
  | UnknownAction => "Unknown"
  | Open => "Open"
  | Change => "Change"
  | Close => "Close"
  | Save => "Save"
  | Create => "Create"
  | Delete => "Delete"
  end.

(** Modelled from the spec: the file kinds of a File Handle
    ("source / module-manifest / workspace-manifest / other"); the
    declaration of [file.Kind] is not among the translated sources. *)
Inductive Kind : Type :=
| KindSource | KindModManifest | KindWorkManifest | KindOther.

(** [file.Modification].  [Text] is [None] for a nil slice: the code
    tests it against nil. *)
Record Modification := mkModification {
  URI : DocumentURI;
  Action_ : Action;
  OnDisk : bool;
  Version : Z;
  Text : option (list byte);
  LanguageID : string;
}.

(** [context.Context], reduced to its cancellation state. *)
Record Context := mkContext { ctx_cancelled : bool }.

(** Modelled from the spec: [xcontext.Detach] (package [xcontext] is not
among the translated sources) gives the same context without its
cancellation. *)
Definition Detach (ctx : Context) : Context := {| ctx_cancelled := false |}.

(** The [file.Source] interface: a [ReadFile] method. *)
Definition Source := Context → DocumentURI → result Handle.

End file.

Global Instance Action_eq_dec : EqDecision file.Action.
Proof. solve_decision. Defined.

(** ** Package [source]: metadata and package selection *)

Module source.
Import file.

(** [PackageID], [PackagePath] and [PackageName] are string types. *)
Definition PackageID := string.
Definition PackagePath := string.
Definition PackageName := string.

(** [Metadata], with the fields the selection functions read. *)
Record Metadata := mkMetadata {
  ID : PackageID;
  PkgPath : PackagePath;
  Name : PackageName;
  CompiledGoFiles : list DocumentURI;
  ForTest : PackagePath;
}.

(** [m.ForTest != "" && m.ForTest != m.PkgPath &&
     m.ForTest+"_test" != m.PkgPath] *)
Definition IsIntermediateTestVariant (m : Metadata) : bool :=
  bool_decide (ForTest m ≠ ""%string)
  && bool_decide (ForTest m ≠ PkgPath m)
  && bool_decide (ForTest m +:+ "_test" ≠ PkgPath m).

(** [RemoveIntermediateTestVariants] filters in place: [res := metas[:0]]
    shares the backing array of [metas], and [append(res, m)] writes
    [m] at index [len(res)] of that array while the [range] loop still
    reads from it.  The state of the loop is the backing array and
    [len(res)]. *)
Definition RemoveITV_step (st : list Metadata * nat) (i : nat)
  : list Metadata * nat :=
  let '(arr, w) := st in
  match arr !! i with
  | Some m =>
      if IsIntermediateTestVariant m then (arr, w)
      else (<[w := m]> arr, S w)
  | None => (arr, w)
  end.

Definition RemoveIntermediateTestVariants (metas : list Metadata)
  : list Metadata :=
  let '(arr, w) :=
    foldl RemoveITV_step (metas, 0) (seq 0 (length metas)) in
  take w arr.

Record ParsedGoFile := mkParsedGoFile { pgf_URI : DocumentURI }.

(** The [Package] interface, reduced to the methods used here. *)
Record Package := mkPackage {
  pkg_Metadata : Metadata;
  pkg_File : DocumentURI → result ParsedGoFile;
}.

(** The [Snapshot] interface, reduced to the two methods the selection
    functions call.  A cancelled context shows as an [Err] result. *)
Record Snapshot := mkSnapshot {
  MetadataForFile : DocumentURI → result (list Metadata);
  TypeCheck : list PackageID → result (list Package);
}.

(** Calls made on the snapshot, in order. *)
Inductive call : Type :=
| CallMetadataForFile (uri : DocumentURI)
| CallTypeCheck (ids : list PackageID).

Definition NarrowestMetadataForFile (snapshot : Snapshot) (uri : DocumentURI)
  : result Metadata :=
  match MetadataForFile snapshot uri with
  | Err e => Err e
  | Ok metas =>
      let metas := RemoveIntermediateTestVariants metas in
      match metas with
      | [] => Err (ErrNoPackageMetadata uri)
      | m :: _ => Ok m
      end
  end.

(** A selector indexes the slice; an index out of range panics. *)
Definition selector := list Metadata → option Metadata.

(** [func(metas) { return metas[0] }] *)
Definition narrowest : selector := λ metas, metas !! 0.

(** [func(metas) { return metas[len(metas)-1] }] *)
Definition widest : selector := λ metas, metas !! (length metas - 1).

(** [selectPackageForFile], returning the calls it made on the snapshot
    next to its outcome. *)
Definition selectPackageForFile (snapshot : Snapshot) (uri : DocumentURI)
    (sel : selector)
  : list call * exec (result (Package * ParsedGoFile)) :=
  match MetadataForFile snapshot uri with
  | Err e => ([CallMetadataForFile uri], Done (Err e))
  | Ok metas =>
      let metas := RemoveIntermediateTestVariants metas in
      match metas with
      | [] => ([CallMetadataForFile uri],
               Done (Err (ErrNoPackageMetadata uri)))
      | _ :: _ =>
          match sel metas with
          | None => ([CallMetadataForFile uri], Panic "index out of range")
          | Some md =>
              let calls := [CallMetadataForFile uri; CallTypeCheck [ID md]] in
              match TypeCheck snapshot [ID md] with
              | Err e => (calls, Done (Err e))
              | Ok pkgs =>
                  match pkgs with
                  | [] => (calls, Panic "index out of range")
                  | pkg :: _ =>
                      match pkg_File pkg uri with
                      | Err e => (calls, Done (Err e))
                      | Ok pgf => (calls, Done (Ok (pkg, pgf)))
                      end
                  end
              end
          end
      end
  end.

Definition NarrowestPackageForFile (snapshot : Snapshot) (uri : DocumentURI) :=
  selectPackageForFile snapshot uri narrowest.

Definition WidestPackageForFile (snapshot : Snapshot) (uri : DocumentURI) :=
  selectPackageForFile snapshot uri widest.

(** The ordering promised by the documentation of [MetadataForFile]:
    by number of [CompiledGoFiles], then by
    [IsIntermediateTestVariant] (false before true). *)
Definition meta_le (a b : Metadata) : Prop :=
  length (CompiledGoFiles a) < length (CompiledGoFiles b)
  ∨ (length (CompiledGoFiles a) = length (CompiledGoFiles b)
     ∧ (IsIntermediateTestVariant a = true →
        IsIntermediateTestVariant b = true)).

Definition MetadataForFile_ordered (metas : list Metadata) : Prop :=
  Sorted meta_le metas.

(** The packages that [RemoveIntermediateTestVariants] keeps. *)
Definition notITV (m : Metadata) : Prop :=
  IsIntermediateTestVariant m = false.

Implicit Types (m md : Metadata) (metas : list Metadata)
  (snapshot : Snapshot) (uri : DocumentURI).

(** A selector that indexes its argument returns one of its elements. *)
Definition picks (sel : selector) : Prop :=
  ∀ metas md, sel metas = Some md → md ∈ metas.

(** What a type-check request of [selectPackageForFile] can be: the ID
    of a listed package that is not an intermediate test variant. *)
Definition nonITV_request snapshot uri (c : call) : Prop :=
  match c with
  | CallMetadataForFile _ => True
  | CallTypeCheck ids =>
      ∃ md metas, MetadataForFile snapshot uri = Ok metas
                  ∧ md ∈ metas ∧ notITV md ∧ ids = [ID md]
  end.

Definition size (m : Metadata) : nat := length (CompiledGoFiles m).

Definition size_le (a b : Metadata) : Prop := size a ≤ size b.

(** [m] is a package of the file with the fewest (resp. the most)
    member files among those that are not intermediate test variants. *)
Definition is_narrowest metas m : Prop :=
  m ∈ metas ∧ notITV m
  ∧ ∀ m', m' ∈ metas → notITV m' → size m ≤ size m'.

Definition is_widest metas m : Prop :=
  m ∈ metas ∧ notITV m
  ∧ ∀ m', m' ∈ metas → notITV m' → size m' ≤ size m.

(** The contract of [TypeCheck] in the [Snapshot] interface: it
    "type-checks the specified packages, and returns them in the same
    order as the ids".  Read for the packages listed for a file: a
    request for the ID of one of them is answered by the package of that
    metadata, and by no other. *)
Definition TypeCheck_returns_requested snapshot metas : Prop :=
  ∀ md pkgs, md ∈ metas → TypeCheck snapshot [ID md] = Ok pkgs →
             pkg_Metadata <$> pkgs = [md].

(** The outcome [r] of a selection hands back the package selected as
    [md]: an error of the type-check request for [ID md] is returned as
    it is; a package and a parsed file are returned exactly when they
    are the first package of the answer to that request and the file it
    has for the URI; an error of [pkg.File] is returned as it is; and
    the selection panics exactly when the answer is empty. *)
Definition hands_back snapshot uri md
    (r : exec (result (Package * ParsedGoFile))) : Prop :=
  (∀ e, TypeCheck snapshot [ID md] = Err e → r = Done (Err e))
  ∧ (∀ pkg pgf,
       r = Done (Ok (pkg, pgf))
       ↔ ∃ pkgs, TypeCheck snapshot [ID md] = Ok (pkg :: pkgs)
                 ∧ pkg_File pkg uri = Ok pgf)
  ∧ (∀ pkg pkgs e,
       TypeCheck snapshot [ID md] = Ok (pkg :: pkgs) →
       pkg_File pkg uri = Err e → r = Done (Err e))
  ∧ ((∃ msg, r = Panic msg) ↔ TypeCheck snapshot [ID md] = Ok []).

(** Under the contract of [TypeCheck], the package that the outcome [r]
    carries is the package of [md]; and whenever the request for
    [ID md] is answered, [r] is that package with the file it has for
    the URI, or the error of [pkg.File]. *)
Definition returns_package_of snapshot uri md
    (r : exec (result (Package * ParsedGoFile))) : Prop :=
  (∀ pkg pgf, r = Done (Ok (pkg, pgf)) → pkg_Metadata pkg = md)
  ∧ (∀ pkgs, TypeCheck snapshot [ID md] = Ok pkgs →
       ∃ pkg, pkgs = [pkg] ∧ pkg_Metadata pkg = md
              ∧ r = match pkg_File pkg uri with
                    | Ok pgf => Done (Ok (pkg, pgf))
                    | Err e => Done (Err e)
                    end).

(** *** Invocation flags and diagnostics *)

(** [InvocationFlags] is an [int]: a mode in the low bits and flag bits
above them. *)
Definition InvocationFlags := Z.

Definition Normal : InvocationFlags := 0%Z.
Definition WriteTemporaryModFile : InvocationFlags := 1%Z.
Definition LoadWorkspace : InvocationFlags := 2%Z.
Definition AllowNetwork : InvocationFlags := Z.shiftl 1 10.

(** [m & (AllowNetwork - 1)] *)
Definition InvocationFlags_Mode (m : InvocationFlags) : InvocationFlags :=
  Z.land m (AllowNetwork - 1).

(** [m&AllowNetwork != 0] *)
Definition InvocationFlags_AllowNetwork (m : InvocationFlags) : bool :=
  negb (Z.land m AllowNetwork =? 0)%Z.

(** [Diagnostic], with the fields that tell two diagnostics apart here. *)
Record Diagnostic := mkDiagnostic {
  d_URI : DocumentURI;
  d_Source : string;
  d_Message : string;
}.

End source.

Global Instance notITV_dec m : Decision (source.notITV m).
Proof. unfold source.notITV. apply _. Defined.

(** ** Package [cache]: overlays and file reads *)

(** Functions of package [file] whose bodies are outside the translated
    sources: the content hash and the kind of a language identifier. *)
Class FileFuncs := {
  HashOf : list byte → file.Hash;
  KindForLang : string → file.Kind;
}.

Module cache.
Import file.

(** [Overlay], as built by the struct literal in [updateOverlays].  A
    nil [content] and an empty one hold the same bytes and the code
    never tells them apart, so [content] is a list. *)
Record Overlay := mkOverlay {
  uri : DocumentURI;
  content : list byte;
  hash : Hash;
  version : Z;
  kind : Kind;
  saved : bool;
}.

(** [overlayFS]: the file source it delegates to and the overlay map
    (the mutex is not modelled: [updateOverlays] holds it throughout). *)
Record overlayFS := mkOverlayFS {
  delegate : Source;
  overlays : gmap DocumentURI Overlay;
}.

Definition set_overlays (fs : overlayFS) (m : gmap DocumentURI Overlay)
  : overlayFS :=
  {| delegate := delegate fs; overlays := m |}.

(** [brokenFile] and its methods. *)
Record brokenFile := mkBrokenFile { bf_uri : DocumentURI; bf_err : error }.

Definition brokenFile_URI (b : brokenFile) : DocumentURI := bf_uri b.
Definition brokenFile_Identity (b : brokenFile) : Identity :=
  {| id_URI := bf_uri b; id_Hash := zeroHash |}.
Definition brokenFile_SameContentsOnDisk (b : brokenFile) : bool := false.
Definition brokenFile_Version (b : brokenFile) : Z := 0.
Definition brokenFile_Content (b : brokenFile) : result (list byte) :=
  Err (bf_err b).

(** A [brokenFile] used as a [file.Handle]. *)
Definition brokenFile_Handle (b : brokenFile) : Handle :=
  {| h_URI := brokenFile_URI b;
     h_Identity := brokenFile_Identity b;
     h_SameContentsOnDisk := brokenFile_SameContentsOnDisk b;
     h_Version := brokenFile_Version b;
     h_Content := brokenFile_Content b |}.

(** [mustReadFile].  The call to [bug.Reportf] only files a report. *)
Definition mustReadFile (ctx : Context) (fs : Source) (uri : DocumentURI)
  : Handle :=
  let ctx := Detach ctx in
  match fs ctx uri with
  | Err err => brokenFile_Handle {| bf_uri := uri; bf_err := err |}
  | Ok fh => fh
  end.

Section overlays.
Context `{FileFuncs}.

(** The file kind: from the language identifier on open, otherwise
    the kind cached in the overlay, which must exist. *)
Definition overlayKind (c : Modification) (o : option Overlay)
  : result Kind :=
  match Action_ c with
  | Open => Ok (KindForLang (LanguageID c))
  | _ =>
      match o with
      | None => Err (ErrModifyingUnopenedOverlay (URI c))
      | Some o => Ok (kind o)
      end
  end.

(** One iteration of the loop of [updateOverlays]: the overlay map
    after it, and the error that ends the loop if there is one.
    Reading a field of a nil overlay panics. *)
Definition updateOverlay (ctx : Context) (fs : overlayFS) (c : Modification)
  : exec (overlayFS * option error) :=
  let o := overlays fs !! URI c in
  if negb (bool_decide (is_Some o)) && OnDisk c then Done (fs, None)
  else
    match overlayKind c o with
    | Err e => Done (fs, Some e)
    | Ok kind =>
        if bool_decide (Action_ c = Close) then
          Done (set_overlays fs (delete (URI c) (overlays fs)), None)
        else
          let saveOrDisk := bool_decide (Action_ c = Save) || OnDisk c in
          (* text := c.Text, or the overlay's content *)
          let text : exec (result (list byte)) :=
            match Text c with
            | Some t => Done (Ok t)
            | None =>
                if saveOrDisk then
                  match o with
                  | None =>
                      Done (Err (ErrNoKnownContent
                                   (Action_String (Action_ c))))
                  | Some o => Done (Ok (content o))
                  end
                else Done (Ok [])
            end in
          text ←! text;
          match text with
          | Err e => Done (fs, Some e)
          | Ok text =>
              version ←!
                (if OnDisk c || bool_decide (Action_ c = Save) then
                   match o with
                   | None => Panic "nil pointer dereference"
                   | Some o => Done (version o)
                   end
                 else Done (Version c));
              let h := HashOf text in
              sameContentOnDisk ←!
                match Action_ c with
                | Delete => Done (Ok false)
                | Save =>
                    match o with
                    | None => Panic "nil pointer dereference"
                    | Some o =>
                        if bool_decide (is_Some (Text c))
                           && bool_decide (hash o ≠ h)
                        then Done (Err (ErrOverlayChangedOnSave (URI c)))
                        else Done (Ok true)
                    end
                | _ =>
                    let fh := mustReadFile ctx (delegate fs) (URI c) in
                    match h_Content fh with
                    | Ok _ =>
                        Done (Ok (bool_decide
                                    (id_Hash (h_Identity fh) = h)))
                    | Err _ => Done (Ok false)
                    end
                end;
              match sameContentOnDisk with
              | Err e => Done (fs, Some e)
              | Ok sameContentOnDisk =>
                  let o' := {| uri := URI c;
                               version := version;
                               content := text;
                               kind := kind;
                               hash := h;
                               saved := sameContentOnDisk |} in
                  Done (set_overlays fs (<[URI c := o']> (overlays fs)),
                        None)
              end
          end
    end.

(** [updateOverlays]: the loop over the batch, ended by the first
    error. *)
Fixpoint updateOverlays (ctx : Context) (fs : overlayFS)
    (changes : list Modification) : exec (overlayFS * option error) :=
  match changes with
  | [] => Done (fs, None)
  | c :: changes =>
      r ←! updateOverlay ctx fs c;
      match r.2 with
      | Some e => Done (r.1, Some e)
      | None => updateOverlays ctx r.1 changes
      end
  end.

(** Every overlay is stored under its own URI with the hash of its
    content. *)
Definition consistent (m : gmap DocumentURI Overlay) : Prop :=
  ∀ u o, m !! u = Some o → uri o = u ∧ hash o = HashOf (content o).

(** The modifications that a notification of watched files gives rise
to: on disk, without text, with an action other than open, close and
save. *)
Definition on_disk_change (c : Modification) : Prop :=
  OnDisk c = true ∧ Text c = None
  ∧ Action_ c ∈ [UnknownAction; Change; Create; Delete].

(** Whether the file read through [mustReadFile] has the given hash. *)
Definition sameOnDisk (ctx : Context) (fs : overlayFS) (u : DocumentURI)
    (h : Hash) : bool :=
  match h_Content (mustReadFile ctx (delegate fs) u) with
  | Ok _ => bool_decide (id_Hash (h_Identity (mustReadFile ctx (delegate fs) u)) = h)
  | Err _ => false
  end.

End overlays.

(** *** Views of a session *)

(** [int64] and [uint64] addition, as done by [atomic.AddInt64] and
[atomic.AddUint64]. *)
Definition add_int64 (x y : Z) : Z :=
  ((x + y + 2 ^ 63) `mod` 2 ^ 64 - 2 ^ 63)%Z.

Definition add_uint64 (x y : N) : N := ((x + y) `mod` 2 ^ 64)%N.

(** [Folder], without its options. *)
Record Folder := mkFolder { Dir : DocumentURI; Name : string }.

(** What the session calls on a view definition and on a URI, with bodies
outside the translated sources: the type [viewDefinition],
[getViewDefinition] (which reads the session's files and the Go
environment of a folder), [viewDefinitionsEqual], [isGoMod] and
[isGoWork]. *)
Class ViewFuncs := {
  viewDefinition : Type;
  getViewDefinition : overlayFS → Folder → result viewDefinition;
  viewDefinitionsEqual : viewDefinition → viewDefinition → bool;
  isGoMod : DocumentURI → bool;
  isGoWork : DocumentURI → bool;
}.

Section views.
Context `{FileFuncs, ViewFuncs}.

(** The fields of [Snapshot] that [createView] and [updateViewLocked]
set or read: the two identifiers and the files the snapshot has
observed. *)
Record Snapshot := mkSnapshot {
  sequenceID : N;
  globalID : N;
  files : gset DocumentURI;
}.

(** [View]; [snapshot] is nil once the view is shut down. *)
Record View := mkView {
  id : Z;
  folder : Folder;
  view_definition : viewDefinition;
  snapshot : option Snapshot;
}.

(** A [*View]. *)
Definition ptr := nat.

(** [Session] with the [View] objects its pointers refer to and the two
package-level counters.  [views] is the slice [[]*View], whose elements
can be nil. *)
Record Session := mkSession {
  views : list (option ptr);
  viewMap : gmap DocumentURI ptr;
  fs : overlayFS;
  heap : gmap ptr View;
  viewIndex : Z;
  snapshotIDs : N;
}.

Definition set_views (s : Session) (vs : list (option ptr)) : Session :=
  {| views := vs; viewMap := viewMap s; fs := fs s; heap := heap s;
     viewIndex := viewIndex s; snapshotIDs := snapshotIDs s |}.

Definition set_viewMap (s : Session) (m : gmap DocumentURI ptr) : Session :=
  {| views := views s; viewMap := m; fs := fs s; heap := heap s;
     viewIndex := viewIndex s; snapshotIDs := snapshotIDs s |}.

Definition set_fs (s : Session) (f : overlayFS) : Session :=
  {| views := views s; viewMap := viewMap s; fs := f; heap := heap s;
     viewIndex := viewIndex s; snapshotIDs := snapshotIDs s |}.

Definition set_heap (s : Session) (h : gmap ptr View) : Session :=
  {| views := views s; viewMap := viewMap s; fs := fs s; heap := h;
     viewIndex := viewIndex s; snapshotIDs := snapshotIDs s |}.

(** Modelled from the spec: [View.shutdown] ("old one shut down"); its
body is not among the translated sources.  [updateViewLocked] recognises
a view that was shut down by its nil snapshot. *)
Definition shutdown (v : View) : View :=
  {| id := id v; folder := folder v; view_definition := view_definition v;
     snapshot := None |}.

(** [createView]: a new [View] object with its first snapshot.  The
background initialisation it starts is not modelled, nor are the
reference counts.  It has no failing path. *)
Definition createView (s : Session) (def : viewDefinition) (folder : Folder)
    (seqID : N) : Session * result (ptr * Snapshot) :=
  let index := add_int64 (viewIndex s) 1 in
  let globalID := add_uint64 (snapshotIDs s) 1 in
  let snapshot := {| sequenceID := seqID; globalID := globalID; files := ∅ |} in
  let v := {| id := index; folder := folder; view_definition := def;
              snapshot := Some snapshot |} in
  let p := fresh (dom (heap s)) in
  ({| views := views s; viewMap := viewMap s; fs := fs s;
      heap := <[p := v]> (heap s);
      viewIndex := index; snapshotIDs := globalID |},
   Ok (p, snapshot)).

(** [removeElement]: an index out of range panics. *)
Definition removeElement (slice : list (option ptr)) (index : nat)
  : exec (list (option ptr)) :=
  match slice !! (length slice - 1) with
  | None => Panic "index out of range"
  | Some l =>
      if decide (index < length slice) then
        Done (take (length slice - 1)
                (<[length slice - 1 := None]> (<[index := l]> slice)))
      else Panic "index out of range"
  end.

(** [dropView]: the index of [v] in [s.views], or -1. *)
Definition dropView (s : Session) (v : ptr) : Session * Z :=
  let s := set_viewMap s ∅ in
  match list_find (λ x, x = Some v) (views s) with
  | Some (i, _) =>
      let s := set_views s (<[i := None]> (views s)) in
      (set_heap s (alter shutdown v (heap s)), Z.of_nat i)
  | None => (s, (-1)%Z)
  end.

(** [snapshot.ReadFile] on every overlay: the new snapshot observes the
open files. *)
Definition observeOverlays (s : Session) (v : ptr) : Session :=
  set_heap s
    (alter (λ vw,
       {| id := id vw; folder := folder vw;
          view_definition := view_definition vw;
          snapshot :=
            (λ sn, {| sequenceID := sequenceID sn; globalID := globalID sn;
                      files := dom (overlays (fs s)) ∪ files sn |})
              <$> snapshot vw |}) v (heap s)).

(** [updateViewLocked]. *)
Definition updateViewLocked (s : Session) (view : ptr)
    (def : viewDefinition) (folder : Folder) : exec (Session * result ptr) :=
  match heap s !! view with
  | None => Panic "nil pointer dereference"
  | Some v =>
      match snapshot v with
      | None => Panic "updateView called after View was already shut down"
      | Some sn =>
          let seqID := sequenceID sn in
          let '(s, i) := dropView s view in
          if decide (i = (-1)%Z) then Done (s, Err (ErrViewNotFound (id v)))
          else
            let '(s, r) := createView s def folder seqID in
            match r with
            | Err err =>
                vs ←! removeElement (views s) (Z.to_nat i);
                Done (set_views s vs, Err err)
            | Ok (view', _) =>
                let s := observeOverlays s view' in
                Done (set_views s (<[Z.to_nat i := Some view']> (views s)),
                      Ok view')
            end
      end
  end.

(** The first loop of [DidModifyFiles]: whether the batch makes the
session re-evaluate the view definitions. *)
Fixpoint checkViews (changes : list Modification) : bool :=
  match changes with
  | [] => false
  | c :: changes =>
      if isGoWork (URI c) && (bool_decide (Action_ c = Save) || OnDisk c)
      then true
      else if isGoMod (URI c) && bool_decide (Action_ c ≠ Change)
              && bool_decide (Action_ c ≠ Save)
      then true
      else checkViews changes
  end.

(** One iteration of [for _, view := range s.views]: the element is read
from the slice as it is at that moment; errors are only logged. *)
Definition reevaluateView (s : Session) (i : nat) : exec Session :=
  match views s !! i with
  | Some (Some view) =>
      match heap s !! view with
      | None => Panic "nil pointer dereference"
      | Some v =>
          match getViewDefinition (fs s) (folder v) with
          | Err _ => Done s
          | Ok info =>
              if negb (viewDefinitionsEqual (view_definition v) info) then
                r ←! updateViewLocked s view info (folder v);
                Done r.1
              else Done s
          end
      end
  | _ => Panic "nil pointer dereference"
  end.

Fixpoint reevaluateViews_loop (s : Session) (indices : list nat)
  : exec Session :=
  match indices with
  | [] => Done s
  | i :: indices =>
      s ←! reevaluateView s i;
      reevaluateViews_loop s indices
  end.

(** The part of [DidModifyFiles] that re-creates the views whose
definition may have changed. *)
Definition reevaluateViews (s : Session) (changes : list Modification)
  : exec Session :=
  if checkViews changes
  then reevaluateViews_loop s (seq 0 (length (views s)))
  else Done s.

(** [DidModifyFiles].  What follows the re-creation of views (collecting
the affected views, invalidating their snapshots, choosing the snapshot
that diagnoses each URI) is the argument [invalidate]. *)
Definition DidModifyFiles {A : Type}
    (invalidate : Session → Context → list Modification →
                  exec (Session * result A))
    (s : Session) (ctx : Context) (changes : list Modification)
  : exec (Session * result A) :=
  r ←! updateOverlays ctx (fs s) changes;
  match r.2 with
  | Some err => Done (set_fs s r.1, Err err)
  | None =>
      s ←! reevaluateViews (set_fs s r.1) changes;
      invalidate s ctx changes
  end.

Implicit Types (s : Session) (view : ptr) (v : View) (c : Modification).

(** The modifications that make [DidModifyFiles] re-evaluate the view
definitions: a go.work file that is saved or changed on disk, or a go.mod
file that is opened, closed, created or deleted (any action but [Change]
and [Save]). *)
Definition triggers c : Prop :=
  (isGoWork (URI c) = true ∧ (Action_ c = Save ∨ OnDisk c = true))
  ∨ (isGoMod (URI c) = true ∧ Action_ c ≠ Change ∧ Action_ c ≠ Save).

(** The views of a session are distinct, live objects. *)
Definition live s : Prop :=
  NoDup (views s)
  ∧ ∀ i ov, views s !! i = Some ov →
      ∃ view v sn, ov = Some view ∧ heap s !! view = Some v
                   ∧ snapshot v = Some sn.

(** The view that [createView] builds for [updateViewLocked], once the
new snapshot has observed the overlays. *)
Definition recreated_view s (def : viewDefinition) (fld : Folder)
    (sn : Snapshot) : View :=
  {| id := add_int64 (viewIndex s) 1; folder := fld; view_definition := def;
     snapshot := Some {| sequenceID := sequenceID sn;
                         globalID := add_uint64 (snapshotIDs s) 1;
                         files := dom (overlays (fs s)) ∪ ∅ |} |}.

(** What the re-evaluation does to the view in slot [i] of [s]: it is
either kept as it is, or replaced by a new view. *)
Definition kept s' (i : nat) view v : Prop :=
  views s' !! i = Some (Some view) ∧ heap s' !! view = Some v.

Definition recreated s s' (i : nat) view v (info : viewDefinition) : Prop :=
  ∃ view' v' sn sn',
    views s' !! i = Some (Some view')
    ∧ (view' ∉ dom (heap s))
    ∧ heap s' !! view' = Some v'
    ∧ view_definition v' = info
    ∧ folder v' = folder v
    ∧ snapshot v = Some sn ∧ snapshot v' = Some sn'
    ∧ sequenceID sn' = sequenceID sn
    ∧ heap s' !! view = Some (shutdown v).

Definition view_outcome s s' (i : nat) : Prop :=
  ∀ view v,
    views s !! i = Some (Some view) → heap s !! view = Some v →
    match getViewDefinition (fs s) (folder v) with
    | Ok info =>
        if viewDefinitionsEqual (view_definition v) info
        then kept s' i view v
        else recreated s s' i view v info
    | Err _ => kept s' i view v
    end.

(** Invariant of the loop over the views after [k] iterations. *)
Definition loop_inv s0 (k : nat) s : Prop :=
  length (views s) = length (views s0)
  ∧ fs s = fs s0
  ∧ NoDup (views s)
  ∧ (∀ j ov, views s !! j = Some ov →
       ∃ view, ov = Some view ∧ view ∈ dom (heap s))
  ∧ dom (heap s0) ⊆ dom (heap s)
  ∧ (∀ j, k ≤ j → views s !! j = views s0 !! j)
  ∧ (∀ j view, k ≤ j → views s0 !! j = Some (Some view) →
       heap s !! view = heap s0 !! view)
  ∧ (∀ j, j < k → view_outcome s0 s j).

End views.

(** *** Looking up, removing and shutting down views *)

(** The error of [syntaxPackage.File] and the error of [viewOfLocked]. *)
Inductive lookup_error : Type :=
| ErrNoParsedFile (uri : DocumentURI) (id : source.PackageID)
| ErrNoViewsInSession.

Section session.
Context `{FileFuncs, ViewFuncs}.

(** [View.contains] and [View.knownFile], whose bodies are outside the
translated sources: whether the folder of the view encloses the URI, and
whether the view has seen the file. *)
Variables (contains knownFile : View → DocumentURI → bool).

(** Reading through a [*View]: a nil pointer panics. *)
Definition deref (h : gmap ptr View) (p : option ptr) : exec (ptr * View) :=
  match p with
  | None => Panic "nil pointer dereference"
  | Some p =>
      match h !! p with
      | None => Panic "nil pointer dereference"
      | Some v => Done (p, v)
      end
  end.

(** The first loop of [bestViewForURI]: [longest] is nil or the view
kept so far. *)
Fixpoint longestContaining (h : gmap ptr View) (uri : DocumentURI)
    (views : list (option ptr)) (longest : option ptr) : exec (option ptr) :=
  match views with
  | [] => Done longest
  | view :: views =>
      pv ←! deref h view;
      shorter ←!
        match longest with
        | None => Done false
        | Some l =>
            lv ←! deref h (Some l);
            Done (bool_decide (String.length (Dir (folder pv.2))
                               < String.length (Dir (folder lv.2))))
        end;
      if (shorter : bool) then longestContaining h uri views longest
      else if contains pv.2 uri
           then longestContaining h uri views (Some pv.1)
           else longestContaining h uri views longest
  end.

(** The second loop: the first view that knows the file. *)
Fixpoint firstKnown (h : gmap ptr View) (uri : DocumentURI)
    (views : list (option ptr)) : exec (option ptr) :=
  match views with
  | [] => Done None
  | view :: views =>
      pv ←! deref h view;
      if knownFile pv.2 uri then Done (Some pv.1)
      else firstKnown h uri views
  end.

(** [bestViewForURI]; [views[0]] on an empty slice panics. *)
Definition bestViewForURI (h : gmap ptr View) (uri : DocumentURI)
    (views : list (option ptr)) : exec ptr :=
  longest ←! longestContaining h uri views None;
  match longest with
  | Some l => Done l
  | None =>
      known ←! firstKnown h uri views;
      match known with
      | Some k => Done k
      | None =>
          match views with
          | Some v0 :: _ => Done v0
          | None :: _ => Panic "nil pointer dereference"
          | [] => Panic "index out of range"
          end
      end
  end.

(** [viewOfLocked]: the best view of a URI is computed once and kept in
[viewMap].  A nil [viewMap] reads as an empty one. *)
Definition viewOfLocked (s : Session) (uri : DocumentURI)
  : exec (Session * (lookup_error + ptr)) :=
  match viewMap s !! uri with
  | Some v => Done (s, inr v)
  | None =>
      if decide (length (views s) = 0) then Done (s, inl ErrNoViewsInSession)
      else
        best ←! bestViewForURI (heap s) uri (views s);
        Done (set_viewMap s (<[uri := best]> (viewMap s)), inr best)
  end.

(** [RemoveView]. *)
Definition RemoveView (s : Session) (view : ptr) : exec Session :=
  let '(s, i) := dropView s view in
  if decide (i = (-1)%Z) then Done s
  else
    vs ←! removeElement (views s) (Z.to_nat i);
    Done (set_views s vs).

(** The loop of [Shutdown] that shuts the views down. *)
Fixpoint shutdownAll (h : gmap ptr View) (vs : list (option ptr))
  : exec (gmap ptr View) :=
  match vs with
  | [] => Done h
  | None :: _ => Panic "nil pointer dereference"
  | Some p :: vs => shutdownAll (alter shutdown p h) vs
  end.

(** [Shutdown]; stopping the parse cache is not modelled. *)
Definition Shutdown (s : Session) : exec Session :=
  let vs := views s in
  let s := set_viewMap (set_views s []) ∅ in
  h ←! shutdownAll (heap s) vs;
  Done (set_heap s h).

(** The length of the folder of a view, which [bestViewForURI]
compares. *)
Definition dirlen (v : View) : nat := String.length (Dir (folder v)).

(** Every element of the slice is a non-nil pointer to a view. *)
Definition allocated_views (h : gmap ptr View) (views : list (option ptr))
  : Prop :=
  ∀ ov, ov ∈ views → ∃ p v, ov = Some p ∧ h !! p = Some v.

(** [ResetView]: the best view of the URI is replaced by a view with the
same definition and folder. *)
Definition ResetView (s : Session) (uri : DocumentURI)
  : exec (Session * result ptr) :=
  v ←! bestViewForURI (heap s) uri (views s);
  pv ←! deref (heap s) (Some v);
  updateViewLocked s v (view_definition pv.2) (folder pv.2).

(** [Snapshot.filesInDir], whose body is outside the translated sources:
the files the snapshot has observed in a directory.  [rangeOver] is the
order in which a [range] visits the keys of a map, which Go leaves
open. *)
Variable filesInDir : Snapshot → DocumentURI → list DocumentURI.
Variable rangeOver : gset DocumentURI → list DocumentURI.

(** The first loop of [ExpandModificationsToDirectories]: the snapshots
of the views that are not shut down. *)
Fixpoint liveSnapshots (h : gmap ptr View) (views : list (option ptr))
  : exec (list Snapshot) :=
  match views with
  | [] => Done []
  | view :: views =>
      pv ←! deref h view;
      snapshots ←! liveSnapshots h views;
      match snapshot pv.2 with
      | None => Done snapshots
      | Some sn => Done (sn :: snapshots)
      end
  end.

(** The keys of the map [expanded] built for the change [c]. *)
Definition expanded (snapshots : list Snapshot) (c : Modification)
  : gset DocumentURI :=
  ⋃ ((λ sn, list_to_set (filesInDir sn (URI c))) <$> snapshots).

(** The body of the second loop: what one change contributes to the
result. *)
Definition expandChange (snapshots : list Snapshot) (c : Modification)
  : list Modification :=
  if decide (size (expanded snapshots c) = 0) then [c]
  else (λ uri, {| URI := uri; Action_ := Action_ c; OnDisk := OnDisk c;
                  Version := 0; Text := None; LanguageID := "" |})
         <$> rangeOver (expanded snapshots c).

(** [ExpandModificationsToDirectories]. *)
Definition ExpandModificationsToDirectories (s : Session)
    (changes : list Modification) : exec (list Modification) :=
  snapshots ←! liveSnapshots (heap s) (views s);
  Done (concat (expandChange snapshots <$> changes)).

End session.

(** *** [Snapshot.ModVuln] under concurrent callers

A call of [ModVuln] holds [s.mu] twice, each time for one operation on
[s.modVulnHandles]: once for the [Get], and, after a miss, once for the
[Set].  Between the two the mutex is free.  The call is therefore a
sequence of atomic steps that other callers can interleave with. *)

(** A [*memoize.Promise]. *)
Definition promise := nat.

(** Modelled from the spec: the promise of the Memoization Engine
("the first caller ... starts the computation; all ... callers ... block
on the same result"); package [memoize] is not among the translated
sources.  A promise runs its function when it is first awaited and never
again; [true] records that it has run. *)
Definition promises := gmap promise bool.

(** The state shared by the callers: the map of handles of the snapshot,
the promise objects, and how many times the function given to
[memoize.NewPromise] (the vulnerability scan) has run. *)
Record ModVulnState := mkModVulnState {
  modVulnHandles : gmap DocumentURI promise;
  allocated : promises;
  scans : nat;
}.

(** Where a caller stands in [ModVuln]. *)
Inductive ModVulnPC : Type :=
| AtGet                          (* before [Lock; Get; Unlock] *)
| AtNewPromise                   (* after a miss, before [memoize.NewPromise] *)
| AtSet (handle : promise)       (* before [Lock; Set; Unlock] *)
| AtAwait (entry : promise)      (* before [s.awaitPromise(ctx, entry)] *)
| Returned (entry : promise).    (* returned the result of [entry] *)

(** One atomic step of a caller of [ModVuln(ctx, modURI)]; [None] once it
has returned. *)
Definition ModVuln_step (modURI : DocumentURI) (st : ModVulnState)
    (pc : ModVulnPC) : option (ModVulnState * ModVulnPC) :=
  match pc with
  | AtGet =>
      match modVulnHandles st !! modURI with
      | Some entry => Some (st, AtAwait entry)
      | None => Some (st, AtNewPromise)
      end
  | AtNewPromise =>
      let handle := fresh (dom (allocated st)) in
      Some ({| modVulnHandles := modVulnHandles st;
               allocated := <[handle := false]> (allocated st);
               scans := scans st |},
            AtSet handle)
  | AtSet handle =>
      Some ({| modVulnHandles := <[modURI := handle]> (modVulnHandles st);
               allocated := allocated st;
               scans := scans st |},
            AtAwait handle)
  | AtAwait entry =>
      match allocated st !! entry with
      | Some false =>
          Some ({| modVulnHandles := modVulnHandles st;
                   allocated := <[entry := true]> (allocated st);
                   scans := S (scans st) |},
                Returned entry)
      | _ => Some (st, Returned entry)
      end
  | Returned _ => None
  end.

(** The callers in flight, each with the go.mod URI it asks about, and a
schedule: which caller takes the next step. *)
Definition callers := list (DocumentURI * ModVulnPC).

Fixpoint ModVuln_run (schedule : list nat) (st : ModVulnState) (cs : callers)
  : option (ModVulnState * callers) :=
  match schedule with
  | [] => Some (st, cs)
  | tid :: schedule =>
      match cs !! tid with
      | None => None
      | Some (modURI, pc) =>
          match ModVuln_step modURI st pc with
          | None => None
          | Some (st, pc) =>
              ModVuln_run schedule st (<[tid := (modURI, pc)]> cs)
          end
      end
  end.

(** *** Packages (pkg.go) *)

(** [syntaxPackage], with the fields its [File] method and
[DiagnosticsForFile] read. *)
Record syntaxPackage := mkSyntaxPackage {
  sp_id : source.PackageID;
  goFiles : list source.ParsedGoFile;
  compiledGoFiles : list source.ParsedGoFile;
  diagnostics : list source.Diagnostic;
}.

(** [Package]: the metadata and the syntax package.  The diagnostics of
the metadata ([p.m.Diagnostics]) are kept beside it. *)
Record Package := mkPackage {
  p_m : source.Metadata;
  p_m_Diagnostics : list source.Diagnostic;
  p_pkg : syntaxPackage;
}.

(** The first element of a slice of parsed files with the given URI. *)
Fixpoint findFile (files : list source.ParsedGoFile) (uri : DocumentURI)
  : option source.ParsedGoFile :=
  match files with
  | [] => None
  | f :: files =>
      if bool_decide (source.pgf_URI f = uri) then Some f
      else findFile files uri
  end.

(** [syntaxPackage.File]: the compiled Go files are searched first, then
the Go files. *)
Definition syntaxPackage_File (pkg : syntaxPackage) (uri : DocumentURI)
  : lookup_error + source.ParsedGoFile :=
  match findFile (compiledGoFiles pkg) uri with
  | Some cgf => inr cgf
  | None =>
      match findFile (goFiles pkg) uri with
      | Some gf => inr gf
      | None => inl (ErrNoParsedFile uri (sp_id pkg))
      end
  end.

Definition Package_File (p : Package) (uri : DocumentURI)
  : lookup_error + source.ParsedGoFile :=
  syntaxPackage_File (p_pkg p) uri.

(** The loop [for _, diag := range ds { if diag.URI == uri { diags =
append(diags, diag) } }], continuing from [diags]. *)
Fixpoint appendDiagnostics (diags ds : list source.Diagnostic)
    (uri : DocumentURI) : list source.Diagnostic :=
  match ds with
  | [] => diags
  | diag :: ds =>
      if bool_decide (source.d_URI diag = uri)
      then appendDiagnostics (diags ++ [diag]) ds uri
      else appendDiagnostics diags ds uri
  end.

(** [Package.DiagnosticsForFile]; its error result is always nil. *)
Definition DiagnosticsForFile (p : Package) (uri : DocumentURI)
  : list source.Diagnostic :=
  let diags := appendDiagnostics [] (p_m_Diagnostics p) uri in
  appendDiagnostics diags (diagnostics (p_pkg p)) uri.

End cache.

(** ** Package [protocol] *)

Module protocol.
Import file.

Record Position := mkPosition { Line : N; Character : N }.

Record Range := mkRange { Start : Position; End_ : Position }.

(** [TextDocumentContentChangeEvent]; [Range] is a pointer, nil for a
    full-content change. *)
Record TextDocumentContentChangeEvent := mkChangeEvent {
  ce_Range : option Range;
  ce_RangeLength : N;
  ce_Text : string;
}.

(** [DidChangeTextDocumentParams], with the versioned document
    identifier flattened. *)
Record DidChangeTextDocumentParams := mkDidChangeParams {
  TextDocument_URI : DocumentURI;
  TextDocument_Version : Z;
  ContentChanges : list TextDocumentContentChangeEvent;
}.

End protocol.

Global Instance Position_eq_dec : EqDecision protocol.Position.
Proof. solve_decision. Defined.

Global Instance Range_eq_dec : EqDecision protocol.Range.
Proof. solve_decision. Defined.

(** Functions of package [protocol] that the text synchronisation
    calls.  [Mapper.RangeOffsets] of the mapper built by
    [NewMapper(uri, content)], whose body is outside the translated
    sources, turns a range into a pair of byte offsets or fails.
    [DocumentURI.IsFile] is [strings.HasPrefix(string(uri), "file://")];
    it is kept abstract here, so that what is proved holds for any
    such test, and the sample instance has that body. *)
Class ProtocolFuncs := {
  RangeOffsets : list byte → protocol.Range → result (nat * nat);
  IsFile : file.DocumentURI → bool;
}.

(** ** Package [lsp]: text synchronisation *)

Module lsp.
Import file protocol.

Inductive ModificationSource : Type :=
| FromDidOpen
| FromDidChange
| FromDidChangeWatchedFiles
| FromDidSave
| FromDidClose
| FromDidChangeConfiguration
| FromRegenerateCgo
| FromInitialWorkspaceLoad
| FromCheckUpgrades
| FromResetGoModDiagnostics.

(** Modelled from the spec: an [Overlay] used as a [file.Handle] ("a
File Handle variant owned by the editor session"); the methods of
[Overlay] are not among the translated sources. *)
Definition Overlay_Handle (o : cache.Overlay) : Handle :=
  {| h_URI := cache.uri o;
     h_Identity := {| id_URI := cache.uri o; id_Hash := cache.hash o |};
     h_SameContentsOnDisk := cache.saved o;
     h_Version := cache.version o;
     h_Content := Ok (cache.content o) |}.

(** Modelled from the spec: the session's [ReadFile] ("Overlay lookups
    take precedence over disk reads"); the method of [overlayFS] is not
    among the translated sources. *)
Definition ReadFile (fs : cache.overlayFS) : Source := λ ctx uri,
  match cache.overlays fs !! uri with
  | Some o => Ok (Overlay_Handle o)
  | None => cache.delegate fs ctx uri
  end.

(** The server: its session (the overlay file system) and the set of
    files edited so far. *)
Record server := mkServer {
  session : cache.overlayFS;
  changedFiles : gset DocumentURI;
}.

(** What [DidChange] calls and is outside the translated text
    synchronisation: [didModifyFiles] (which hands the batch to the
    session and diagnoses), and the tail of
    [warnAboutModifyingGeneratedFiles] that asks the snapshot whether
    the file is generated and messages the client. *)
Class ServerFuncs := {
  didModifyFiles :
    server → Context → list Modification → ModificationSource →
    exec (server * option error);
  warnGenerated : server → Context → DocumentURI → exec (server * option error);
}.

Section text_sync.
Context `{ProtocolFuncs, ServerFuncs}.

(** The loop of [applyIncrementalChanges].  [content[end:]] panics
    when [end] exceeds the length; [start] does not exceed [end]
    there. *)
Fixpoint applyChanges (content : list byte)
    (changes : list TextDocumentContentChangeEvent)
  : exec (result (list byte)) :=
  match changes with
  | [] => Done (Ok content)
  | change :: changes =>
      match ce_Range change with
      | None => Done (Err ErrUnexpectedNilRange)
      | Some rng =>
          match RangeOffsets content rng with
          | Err err => Done (Err err)
          | Ok (start, end_) =>
              if decide (end_ < start) then Done (Err ErrInvalidRange)
              else if decide (end_ ≤ length content) then
                applyChanges
                  (take start content ++ bytes (ce_Text change)
                     ++ drop end_ content) changes
              else Panic "slice bounds out of range"
          end
      end
  end.

Definition applyIncrementalChanges (s : server) (ctx : Context)
    (uri : DocumentURI) (changes : list TextDocumentContentChangeEvent)
  : exec (result (list byte)) :=
  match ReadFile (session s) ctx uri with
  | Err err => Done (Err err)
  | Ok fh =>
      match h_Content fh with
      | Err err => Done (Err (ErrFileNotFound err))
      | Ok content => applyChanges content changes
      end
  end.

Definition changedText (s : server) (ctx : Context) (uri : DocumentURI)
    (changes : list TextDocumentContentChangeEvent)
  : exec (result (list byte)) :=
  match changes with
  | [] => Done (Err ErrNoContentChanges)
  | c0 :: _ =>
      if bool_decide (length changes = 1)
         && bool_decide (ce_Range c0 = None)
         && bool_decide (ce_RangeLength c0 = 0%N)
      then Done (Ok (bytes (ce_Text c0)))
      else applyIncrementalChanges s ctx uri changes
  end.

(** [warnAboutModifyingGeneratedFiles]: a file edited before is not
    looked at again. *)
Definition warnAboutModifyingGeneratedFiles (s : server) (ctx : Context)
    (uri : DocumentURI) : exec (server * option error) :=
  let ok := bool_decide (uri ∈ changedFiles s) in
  let s := if ok then s
           else {| session := session s;
                   changedFiles := {[uri]} ∪ changedFiles s |} in
  if ok then Done (s, None) else warnGenerated s ctx uri.

(** [DidChange].  The text handed on is never tested against nil for
    a [Change] made in the editor. *)
Definition DidChange (s : server) (ctx : Context)
    (params : DidChangeTextDocumentParams) : exec (server * option error) :=
  let uri := TextDocument_URI params in
  if negb (IsFile uri) then Done (s, None)
  else
    text ←! changedText s ctx uri (ContentChanges params);
    match text with
    | Err err => Done (s, Some err)
    | Ok text =>
        let c := {| URI := uri; Action_ := Change; OnDisk := false;
                    Version := TextDocument_Version params;
                    Text := Some text; LanguageID := "" |} in
        r ←! didModifyFiles s ctx [c] FromDidChange;
        match r.2 with
        | Some err => Done (r.1, Some err)
        | None => warnAboutModifyingGeneratedFiles r.1 ctx uri
        end
    end.

Implicit Types (content : list byte) (c : TextDocumentContentChangeEvent).

(** A change whose range does not map into the content, or maps to an
    end offset before the start offset. *)
Definition malformed content c : Prop :=
  ∃ rng, ce_Range c = Some rng
    ∧ ((∃ err, RangeOffsets content rng = Err err)
       ∨ (∃ start end_, RangeOffsets content rng = Ok (start, end_)
                        ∧ end_ < start)).

(** What it is to apply content changes incrementally: starting from a
    content, each change in turn replaces the bytes between the start
    and the end offset of its range, taken in the content as it is by
    then, with its text; [result] is the content after the last
    change. *)
Inductive applied_incrementally
  : list byte → list TextDocumentContentChangeEvent → list byte → Prop :=
| applied_none content : applied_incrementally content [] content
| applied_change content c changes rng (start end_ : nat) result :
    ce_Range c = Some rng →
    RangeOffsets content rng = Ok (start, end_) →
    start ≤ end_ → end_ ≤ length content →
    applied_incrementally
      (take start content ++ bytes (ce_Text c) ++ drop end_ content)
      changes result →
    applied_incrementally content (c :: changes) result.

(** *** The other notifications *)

(** [ModificationSource.String]: its [switch] has no case for
[FromDidChangeConfiguration], which falls to the default. *)
Definition ModificationSource_String (m : ModificationSource) : string :=
  match m with
  | FromDidOpen => "opened files"
  | FromDidChange => "changed files"
  | FromDidChangeWatchedFiles => "files changed on disk"
  | FromDidSave => "saved files"
  | FromDidClose => "close files"
  | FromRegenerateCgo => "regenerate cgo"
  | FromInitialWorkspaceLoad => "initial workspace load"
  | FromCheckUpgrades => "from check upgrades"
  | FromResetGoModDiagnostics => "from resetting go.mod diagnostics"
  | _ => "unknown file modification"
  end.

(** [fmt.Sprintf("diagnosing %v", cause)], which formats [cause] with its
[String] method. *)
Definition DiagnosticWorkTitle (cause : ModificationSource) : string :=
  "diagnosing " +:+ ModificationSource_String cause.

(** [protocol.FileEvent]; [protocol.FileChangeType] is a [uint32]. *)
Record FileEvent := mkFileEvent { fe_URI : DocumentURI; fe_Type : N }.

(** Modelled from the spec: the three kinds of watched-file change
("created|changed|deleted"); the constants of package [protocol] are not
among the translated sources and have the values of the protocol. *)
Definition Created : N := 1.
Definition Changed : N := 2.
Definition Deleted : N := 3.

Definition changeTypeToFileAction (ct : N) : Action :=
  if decide (ct = Changed) then Change
  else if decide (ct = Created) then Create
  else if decide (ct = Deleted) then Delete
  else UnknownAction.

(** The loop of [DidChangeWatchedFiles]: one on-disk modification for
each event on a file URI. *)
Fixpoint watchedModifications (changes : list FileEvent)
  : list Modification :=
  match changes with
  | [] => []
  | change :: changes =>
      if negb (IsFile (fe_URI change)) then watchedModifications changes
      else {| URI := fe_URI change;
              Action_ := changeTypeToFileAction (fe_Type change);
              OnDisk := true; Version := 0; Text := None;
              LanguageID := "" |} :: watchedModifications changes
  end.

Definition DidChangeWatchedFiles (s : server) (ctx : Context)
    (changes : list FileEvent) : exec (server * option error) :=
  didModifyFiles s ctx (watchedModifications changes)
    FromDidChangeWatchedFiles.

(** [DidSave]; [text] is the optional text of the parameters. *)
Definition DidSave (s : server) (ctx : Context) (uri : DocumentURI)
    (text : option string) : exec (server * option error) :=
  if negb (IsFile uri) then Done (s, None)
  else
    let c := {| URI := uri; Action_ := Save; OnDisk := false; Version := 0;
                Text := bytes <$> text; LanguageID := "" |} in
    didModifyFiles s ctx [c] FromDidSave.

Definition DidClose (s : server) (ctx : Context) (uri : DocumentURI)
  : exec (server * option error) :=
  if negb (IsFile uri) then Done (s, None)
  else
    didModifyFiles s ctx
      [ {| URI := uri; Action_ := Close; OnDisk := false; Version := (-1);
           Text := None; LanguageID := "" |} ]
      FromDidClose.

(** The mapper keeps the end of a range it maps inside the content. *)
Definition in_bounds : Prop :=
  ∀ content rng start end_,
    RangeOffsets content rng = Ok (start, end_) → end_ ≤ length content.

End text_sync.

End lsp.

Global Instance Metadata_eq_dec : EqDecision source.Metadata.
Proof. solve_decision. Defined.

Global Instance meta_le_dec : RelDecision source.meta_le.
Proof. intros a b. unfold source.meta_le. apply _. Defined.

(** ** Sample workspace

    Package [a] (file a.go), its in-package test variant [a [a.test]]
    (a.go and a_test.go), and the intermediate test variant
    [a [b.test]] that the external test of [b] pulls in. *)

Module sample.
Import file source.

Definition a : Metadata :=
  {| ID := "a"; PkgPath := "a"; Name := "a";
     CompiledGoFiles := ["file:///w/a/a.go"%string]; ForTest := "" |}.

Definition a_itv : Metadata :=
  {| ID := "a [b.test]"; PkgPath := "a"; Name := "a";
     CompiledGoFiles := ["file:///w/a/a.go"%string]; ForTest := "b" |}.

Definition a_test : Metadata :=
  {| ID := "a [a.test]"; PkgPath := "a"; Name := "a";
     CompiledGoFiles := ["file:///w/a/a.go"; "file:///w/a/a_test.go"]%string;
     ForTest := "a" |}.

Definition a_xtest : Metadata :=
  {| ID := "a_test [a.test]"; PkgPath := "a_test"; Name := "a_test";
     CompiledGoFiles := ["file:///w/a/a_x_test.go"%string]; ForTest := "a" |}.

Definition metas : list Metadata := [a; a_itv; a_test].

Definition typecheck (ids : list PackageID) : result (list Package) :=
  Ok ((λ id, {| pkg_Metadata :=
                  default a (snd <$> list_find (λ m, ID m = id) (a_xtest :: metas));
                pkg_File := λ uri, Ok {| pgf_URI := uri |} |}) <$> ids).

Definition snapshot : Snapshot :=
  {| MetadataForFile := λ _, Ok metas; TypeCheck := typecheck |}.

(** A stand-in for the content hash that has no collisions, and the
    kinds of two language identifiers. *)
Definition funcs : FileFuncs :=
  {| HashOf := λ b, b;
     KindForLang := λ lang,
       if decide (lang = "go"%string) then KindSource
       else if decide (lang = "go.mod"%string) then KindModManifest
       else KindOther |}.

(** A disk on which one file cannot be read. *)
Definition disk : Source := λ ctx uri,
  if decide (uri = "file:///w/a/locked.go"%string)
  then Err (ErrExternal "permission denied")
  else Ok {| h_URI := uri;
             h_Identity := {| id_URI := uri; id_Hash := bytes "package a" |};
             h_SameContentsOnDisk := true;
             h_Version := 0;
             h_Content := Ok (bytes "package a") |}.

Definition ctx : Context := {| ctx_cancelled := false |}.

Definition fs0 : cache.overlayFS :=
  {| cache.delegate := disk; cache.overlays := ∅ |}.

Definition open_a : Modification :=
  {| URI := "file:///w/a/a.go"; Action_ := Open; OnDisk := false;
     Version := 1; Text := Some (bytes "package a"); LanguageID := "go" |}.

Definition change_b : Modification :=
  {| URI := "file:///w/b/b.go"; Action_ := Change; OnDisk := false;
     Version := 2; Text := Some (bytes "package b"); LanguageID := "" |}.

Definition save_a : Modification :=
  {| URI := "file:///w/a/a.go"; Action_ := Save; OnDisk := false;
     Version := 0; Text := None; LanguageID := "" |}.

Definition save_a_text : Modification :=
  {| URI := "file:///w/a/a.go"; Action_ := Save; OnDisk := false;
     Version := 0; Text := Some (bytes "package a"); LanguageID := "" |}.

Definition overlay_a : cache.Overlay :=
  {| cache.uri := "file:///w/a/a.go"; cache.content := bytes "package a";
     cache.hash := bytes "package a"; cache.version := 1;
     cache.kind := KindSource; cache.saved := false |}.

Definition fs1 : cache.overlayFS :=
  {| cache.delegate := disk;
     cache.overlays := {[ "file:///w/a/a.go"%string := overlay_a ]} |}.

(** A mapper for content that is one line of ASCII: the position
    (0, k) is the offset k, up to the length of the content. *)
Definition offset (content : list byte) (p : protocol.Position)
  : result nat :=
  if decide (protocol.Line p = 0%N) then
    if decide (N.to_nat (protocol.Character p) ≤ length content)
    then Ok (N.to_nat (protocol.Character p))
    else Err (ErrExternal "column is beyond end of line")
  else Err (ErrExternal "line number out of range").

Definition rangeOffsets (content : list byte) (r : protocol.Range)
  : result (nat * nat) :=
  match offset content (protocol.Start r) with
  | Err e => Err e
  | Ok s =>
      match offset content (protocol.End_ r) with
      | Err e => Err e
      | Ok e => Ok (s, e)
      end
  end.

Definition proto : ProtocolFuncs :=
  {| RangeOffsets := rangeOffsets;
     IsFile := λ u, String.prefix "file://" u |}.

(** A server whose [didModifyFiles] only updates the overlays. *)
Definition srv : lsp.ServerFuncs :=
  {| lsp.didModifyFiles := λ s ctx changes _,
       r ←! cache.updateOverlays (H := funcs) ctx (lsp.session s) changes;
       Done ({| lsp.session := r.1;
                lsp.changedFiles := lsp.changedFiles s |}, r.2);
     lsp.warnGenerated := λ s _ _, Done (s, None) |}.

Definition server1 : lsp.server :=
  {| lsp.session := fs1; lsp.changedFiles := ∅ |}.

(** An edit whose range ends (column 2) before it starts (column 5). *)
Definition inverted : protocol.TextDocumentContentChangeEvent :=
  {| protocol.ce_Range :=
       Some {| protocol.Start := {| protocol.Line := 0; protocol.Character := 5 |};
               protocol.End_ := {| protocol.Line := 0; protocol.Character := 2 |} |};
     protocol.ce_RangeLength := 0;
     protocol.ce_Text := "x" |}.

Definition full : protocol.TextDocumentContentChangeEvent :=
  {| protocol.ce_Range := None; protocol.ce_RangeLength := 0;
     protocol.ce_Text := "package b" |}.

Definition change_a : protocol.DidChangeTextDocumentParams :=
  {| protocol.TextDocument_URI := "file:///w/a/a.go";
     protocol.TextDocument_Version := 2;
     protocol.ContentChanges := [inverted] |}.

Definition change_untitled : protocol.DidChangeTextDocumentParams :=
  {| protocol.TextDocument_URI := "untitled:Untitled-1";
     protocol.TextDocument_Version := 2;
     protocol.ContentChanges := [inverted] |}.

(** [filepath.Base] of a slash-separated path: what follows the last
slash. *)
Fixpoint base_from (acc s : string) : string :=
  match s with
  | EmptyString => acc
  | String ch s' =>
      if Ascii.eqb ch (Ascii.ascii_of_nat 47) then base_from "" s'
      else base_from (acc +:+ String ch "") s'
  end.

Definition base (s : string) : string := base_from "" s.

(** View definitions reduced to a label; the workspace now holds a
go.mod file, so every folder is seen as a module. *)
Definition viewfuncs : cache.ViewFuncs :=
  {| cache.viewDefinition := string;
     cache.getViewDefinition := λ _ _, Ok "module"%string;
     cache.viewDefinitionsEqual := String.eqb;
     cache.isGoMod := λ u, String.eqb (base u) "go.mod";
     cache.isGoWork := λ u, String.eqb (base u) "go.work" |}.

Definition folder_w : cache.Folder :=
  {| cache.Dir := "file:///w"; cache.Name := "w" |}.

Definition view0 : cache.View (H0 := viewfuncs) :=
  {| cache.id := 1; cache.folder := folder_w;
     cache.view_definition := "adhoc"%string : @cache.viewDefinition viewfuncs;
     cache.snapshot := Some {| cache.sequenceID := 3; cache.globalID := 1;
                               cache.files := ∅ |} |}.

(** A session with one view, created before the go.mod file existed. *)
Definition session0 : cache.Session (H0 := viewfuncs) :=
  {| cache.views := [Some 0]; cache.viewMap := ∅; cache.fs := fs0;
     cache.heap := {[ 0 := view0 ]};
     cache.viewIndex := 1; cache.snapshotIDs := 1 |}.

(** go.mod modified on disk, and go.mod created on disk. *)
Definition gomod_changed : Modification :=
  {| URI := "file:///w/go.mod"; Action_ := Change; OnDisk := true;
     Version := 0; Text := None; LanguageID := "" |}.

Definition gomod_created : Modification :=
  {| URI := "file:///w/go.mod"; Action_ := Create; OnDisk := true;
     Version := 0; Text := None; LanguageID := "" |}.

(** The rest of [DidModifyFiles], left out. *)
Definition invalidate (s : cache.Session (H0 := viewfuncs)) (ctx : Context)
    (changes : list Modification)
  : exec (cache.Session (H0 := viewfuncs) * result unit) :=
  Done (s, Ok tt).

(** A snapshot on which no scan of go.mod has been requested yet, and
two callers about to ask for it. *)
Definition fresh_snapshot : cache.ModVulnState :=
  {| cache.modVulnHandles := ∅; cache.allocated := ∅; cache.scans := 0 |}.

Definition two_callers : cache.callers :=
  [("file:///w/go.mod"%string, cache.AtGet); ("file:///w/go.mod"%string, cache.AtGet)].

(** The syntax of package [a [a.test]]: a.go is compiled, a_test.go
is listed as a Go file only. *)
Definition syntax_a : cache.syntaxPackage :=
  {| cache.sp_id := "a [a.test]";
     cache.goFiles := [ {| pgf_URI := "file:///w/a/a.go" |};
                        {| pgf_URI := "file:///w/a/a_test.go" |} ];
     cache.compiledGoFiles := [ {| pgf_URI := "file:///w/a/a.go" |} ];
     cache.diagnostics := [] |}.

Definition def_module : @cache.viewDefinition viewfuncs := "module"%string.

(** A second view object, live but not among the views of the session. *)
Definition view1 : cache.View (H0 := viewfuncs) :=
  {| cache.id := 2; cache.folder := folder_w;
     cache.view_definition := "adhoc"%string : @cache.viewDefinition viewfuncs;
     cache.snapshot := Some {| cache.sequenceID := 0; cache.globalID := 2;
                               cache.files := ∅ |} |}.

Definition session1 : cache.Session (H0 := viewfuncs) :=
  {| cache.views := [Some 0]; cache.viewMap := ∅; cache.fs := fs0;
     cache.heap := {[ 0 := view0; 1 := view1 ]};
     cache.viewIndex := 2; cache.snapshotIDs := 2 |}.

(** A folder encloses the URIs it is a prefix of; no view has seen a
file yet. *)
Definition contains (v : cache.View (H0 := viewfuncs)) (u : DocumentURI)
  : bool :=
  String.prefix (cache.Dir (cache.folder v)) u.

Definition knownFile (v : cache.View (H0 := viewfuncs)) (u : DocumentURI)
  : bool := false.

(** A session with a view of the workspace folder and a view of the
module nested in it. *)
Definition folder_a : cache.Folder :=
  {| cache.Dir := "file:///w/a"; cache.Name := "a" |}.

Definition view_a : cache.View (H0 := viewfuncs) :=
  {| cache.id := 2; cache.folder := folder_a;
     cache.view_definition := "module"%string : @cache.viewDefinition viewfuncs;
     cache.snapshot := Some {| cache.sequenceID := 0; cache.globalID := 2;
                               cache.files := ∅ |} |}.

Definition session2 : cache.Session (H0 := viewfuncs) :=
  {| cache.views := [Some 0; Some 1]; cache.viewMap := ∅; cache.fs := fs0;
     cache.heap := {[ 0 := view0; 1 := view_a ]};
     cache.viewIndex := 2; cache.snapshotIDs := 2 |}.

(** a.go changed on disk, and a.go closed in the editor. *)
Definition a_on_disk : Modification :=
  {| URI := "file:///w/a/a.go"; Action_ := Change; OnDisk := true;
     Version := 0; Text := None; LanguageID := "" |}.

Definition close_a : Modification :=
  {| URI := "file:///w/a/a.go"; Action_ := Close; OnDisk := false;
     Version := (-1); Text := None; LanguageID := "" |}.

(** The files a snapshot has observed directly under a directory, and a
session whose only view has observed the two files of package [a]. *)
Definition filesInDir (sn : cache.Snapshot) (dir : DocumentURI)
  : list DocumentURI :=
  filter (λ u, String.prefix (dir +:+ "/") u = true)
         (elements (cache.files sn)).

Definition view_seen : cache.View (H0 := viewfuncs) :=
  {| cache.id := 1; cache.folder := folder_w;
     cache.view_definition := def_module;
     cache.snapshot :=
       Some {| cache.sequenceID := 0; cache.globalID := 1;
               cache.files := {[ "file:///w/a/a.go"%string;
                                 "file:///w/a/a_test.go"%string ]} |} |}.

Definition session3 : cache.Session (H0 := viewfuncs) :=
  {| cache.views := [Some 0]; cache.viewMap := ∅; cache.fs := fs0;
     cache.heap := {[ 0 := view_seen ]};
     cache.viewIndex := 1; cache.snapshotIDs := 1 |}.

(** The directory of package [a] deleted on disk. *)
Definition dir_a_deleted : Modification :=
  {| URI := "file:///w/a"; Action_ := Delete; OnDisk := true;
     Version := 0; Text := None; LanguageID := "" |}.

(** An edit that replaces the package name (columns 8 to 9). *)
Definition rename : protocol.TextDocumentContentChangeEvent :=
  {| protocol.ce_Range :=
       Some {| protocol.Start := {| protocol.Line := 0; protocol.Character := 8 |};
               protocol.End_ := {| protocol.Line := 0; protocol.Character := 9 |} |};
     protocol.ce_RangeLength := 1;
     protocol.ce_Text := "main" |}.

End sample.

(* ===================================================================== *)
(** * Theorems                                                           *)
(* ===================================================================== *)

Section source_props.
Import file source.

(** Loop invariant of the in-place filter: after [i] iterations the
    first [w] cells hold the kept elements of the first [i] inputs and
    the cells from [i] on are untouched. *)
Lemma RemoveITV_loop (metas : list Metadata) (i : nat) :
  i ≤ length metas →
  ∃ arr w,
    foldl RemoveITV_step (metas, 0) (seq 0 i) = (arr, w)
    ∧ w ≤ i
    ∧ length arr = length metas
    ∧ take w arr = filter notITV (take i metas)
    ∧ drop i arr = drop i metas.
Proof.
  induction i as [|i IH]; intros Hi.
  - exists metas, 0. simpl. rewrite take_0, drop_0. done.
  - destruct IH as (arr & w & Hf & Hw & Hlen & Htake & Hdrop); [lia|].
    rewrite seq_S, foldl_app, Hf. simpl.
    destruct (lookup_lt_is_Some_2 metas i) as [m Hm]; [lia|].
    assert (arr !! i = Some m) as Harr.
    { rewrite <- (take_drop i arr), lookup_app_r by (rewrite length_take; lia).
      rewrite length_take, Hdrop, lookup_drop.
      replace (i + (i - i `min` length arr)) with i by lia. done. }
    rewrite Harr, (take_S_r _ _ _ Hm), filter_app, filter_cons, filter_nil.
    destruct (decide (notITV m)) as [Hitv|Hitv].
    + unfold notITV in Hitv. rewrite Hitv.
      exists (<[w:=m]> arr), (S w).
      rewrite length_insert. repeat split; try done; try lia.
      * rewrite <- Htake. erewrite take_S_r; last first.
        { apply list_lookup_insert_eq. lia. }
        by rewrite take_insert_ge by lia.
      * rewrite drop_insert_lt by lia.
        rewrite <- (Nat.add_1_r i), <- !drop_drop. by rewrite Hdrop.
    + unfold notITV in Hitv. apply not_false_is_true in Hitv. rewrite Hitv.
      exists arr, w. rewrite app_nil_r. repeat split; try done; try lia.
      rewrite <- (Nat.add_1_r i), <- !drop_drop. by rewrite Hdrop.
Qed.

(** The in-place loop computes the order-preserving filter. *)
Lemma RemoveIntermediateTestVariants_filter (metas : list Metadata) :
  RemoveIntermediateTestVariants metas = filter notITV metas.
Proof.
  unfold RemoveIntermediateTestVariants.
  destruct (RemoveITV_loop metas (length metas)) as (arr & w & Hf & _ & _ & Ht & _);
    [done|].
  rewrite Hf, Ht. by rewrite firstn_all.
Qed.

End source_props.

Section selection_props.
Import file source.

Implicit Types (m md : Metadata) (metas : list Metadata)
  (snapshot : Snapshot) (uri : DocumentURI).

Lemma elem_of_RemoveIntermediateTestVariants m metas :
  m ∈ RemoveIntermediateTestVariants metas ↔ m ∈ metas ∧ notITV m.
Proof.
  rewrite RemoveIntermediateTestVariants_filter, list_elem_of_filter.
  tauto.
Qed.

Lemma IsIntermediateTestVariant_spec m :
  IsIntermediateTestVariant m = true ↔
  ForTest m ≠ ""%string ∧ ForTest m ≠ PkgPath m
  ∧ (ForTest m +:+ "_test")%string ≠ PkgPath m.
Proof.
  unfold IsIntermediateTestVariant.
  rewrite !andb_true_iff, !bool_decide_eq_true. tauto.
Qed.

Lemma narrowest_picks : picks narrowest.
Proof. intros metas md H. by eapply list_elem_of_lookup_2. Qed.

Lemma widest_picks : picks widest.
Proof. intros metas md H. by eapply list_elem_of_lookup_2. Qed.

Lemma selectPackageForFile_requests snapshot uri sel :
  picks sel →
  Forall (nonITV_request snapshot uri)
         (selectPackageForFile snapshot uri sel).1.
Proof.
  intros Hsel. unfold selectPackageForFile.
  destruct (MetadataForFile snapshot uri) as [metas|e] eqn:Hm;
    [|by repeat constructor].
  destruct (RemoveIntermediateTestVariants metas) as [|m0 rest] eqn:Hr;
    [by repeat constructor|].
  destruct (sel (m0 :: rest)) as [md|] eqn:Hs; [|by repeat constructor].
  assert (nonITV_request snapshot uri (CallTypeCheck [ID md])) as Hreq.
  { apply Hsel in Hs. rewrite <- Hr in Hs.
    apply elem_of_RemoveIntermediateTestVariants in Hs as [??].
    exists md, metas. done. }
  destruct (TypeCheck snapshot [ID md]) as [[|pkg ?]|e];
    [| destruct (pkg_File pkg uri) |]; by repeat constructor.
Qed.

(** The package handed back is the first result of a type-check request
    for a package that is not an intermediate test variant. *)
Lemma selectPackageForFile_result snapshot uri sel calls pkg pgf :
  picks sel →
  selectPackageForFile snapshot uri sel = (calls, Done (Ok (pkg, pgf))) →
  ∃ md metas pkgs,
    MetadataForFile snapshot uri = Ok metas ∧ md ∈ metas ∧ notITV md
    ∧ TypeCheck snapshot [ID md] = Ok (pkg :: pkgs).
Proof.
  intros Hsel. unfold selectPackageForFile.
  destruct (MetadataForFile snapshot uri) as [metas|e] eqn:Hm; [|done].
  destruct (RemoveIntermediateTestVariants metas) as [|m0 rest] eqn:Hr;
    [done|].
  destruct (sel (m0 :: rest)) as [md|] eqn:Hs; [|done].
  apply Hsel in Hs. rewrite <- Hr in Hs.
  apply elem_of_RemoveIntermediateTestVariants in Hs as [??].
  destruct (TypeCheck snapshot [ID md]) as [[|pkg' pkgs]|e] eqn:Htc;
    [done| |done].
  destruct (pkg_File pkg' uri); [|done].
  intros [= _ -> _]. by exists md, metas, pkgs.
Qed.

(** ** Ordering *)

Local Instance meta_le_trans : Transitive meta_le.
Proof.
  intros a b c [Hab|[Hab Iab]] [Hbc|[Hbc Ibc]]; unfold meta_le.
  - left; lia.
  - left; lia.
  - left; lia.
  - right; split; [lia|tauto].
Qed.

Lemma meta_le_size a b : meta_le a b → size_le a b.
Proof. unfold size_le, size. intros [?|[??]]; lia. Qed.

Lemma ordered_StronglySorted metas :
  MetadataForFile_ordered metas → StronglySorted size_le metas.
Proof.
  intros H. apply (Sorted_StronglySorted meta_le) in H.
  induction H as [|a l Hl IH Ha]; constructor; [done|].
  eapply Forall_impl; [exact Ha|]. intros b. apply meta_le_size.
Qed.

Lemma StronglySorted_filter {A} (R : relation A) (P : A → Prop)
    `{!∀ x, Decision (P x)} (l : list A) :
  StronglySorted R l → StronglySorted R (filter P l).
Proof.
  induction 1 as [|a l Hl IH Ha]; [constructor|].
  rewrite filter_cons. destruct (decide (P a)); [|done].
  constructor; [done|].
  apply list.Forall_forall. intros x [_ Hx]%list_elem_of_filter.
  by eapply list.Forall_forall in Ha.
Qed.

Lemma narrowest_is_narrowest metas m :
  MetadataForFile_ordered metas →
  narrowest (RemoveIntermediateTestVariants metas) = Some m →
  is_narrowest metas m.
Proof.
  intros Hord%ordered_StronglySorted Hsel.
  apply (StronglySorted_filter _ notITV) in Hord.
  rewrite RemoveIntermediateTestVariants_filter in Hsel.
  unfold narrowest in Hsel.
  destruct (filter notITV metas) as [|m0 rest] eqn:Hf; [done|].
  injection Hsel as ->.
  assert (∀ m', m' ∈ metas → notITV m' → m' ∈ m :: rest) as Hin.
  { intros m' ??. rewrite <- Hf. by apply list_elem_of_filter. }
  assert (m ∈ filter notITV metas) as [??]%list_elem_of_filter
    by (rewrite Hf; left).
  apply StronglySorted_cons in Hord as [Hall _].
  repeat split; [done..|].
  intros m' Hm' Hn'. specialize (Hin m' Hm' Hn').
  apply elem_of_cons in Hin as [|Hr].
  - by subst.
  - by eapply list.Forall_forall in Hall.
Qed.

Lemma widest_is_widest metas m :
  MetadataForFile_ordered metas →
  widest (RemoveIntermediateTestVariants metas) = Some m →
  is_widest metas m.
Proof.
  intros Hord%ordered_StronglySorted Hsel.
  apply (StronglySorted_filter _ notITV) in Hord.
  rewrite RemoveIntermediateTestVariants_filter in Hsel.
  unfold widest in Hsel.
  rewrite Nat.sub_1_r, <- last_lookup in Hsel. apply last_Some in Hsel as [l' Hf].
  assert (m ∈ filter notITV metas) as [??]%list_elem_of_filter
    by (rewrite Hf; set_solver).
  rewrite Hf in Hord. apply StronglySorted_app in Hord as (Hle & _ & _).
  repeat split; [done..|].
  intros m' Hm' Hn'.
  assert (m' ∈ l' ++ [m]) as [?|?%list_elem_of_singleton]%elem_of_app
    by (rewrite <- Hf; by apply list_elem_of_filter).
  - apply Hle; [done|set_solver].
  - by subst.
Qed.

End selection_props.

(** ** Claims on package selection *)

Section selection_claims.
Import file source.

Implicit Types (m md : Metadata) (metas : list Metadata)
  (snapshot : Snapshot) (uri : DocumentURI).

(** C9. A metadata entry is an intermediate test variant exactly when
    its [ForTest] is non-empty, differs from [PkgPath], and
    [ForTest+"_test"] differs from [PkgPath].  Hence
    [RemoveIntermediateTestVariants] keeps every ordinary package
    (empty [ForTest]), every in-package test variant ([PkgPath] equal
    to [ForTest]) and every external test package ([PkgPath] equal to
    [ForTest+"_test"]); what it returns is the input with exactly the
    intermediate test variants dropped, in the input's order. *)
Theorem RemoveIntermediateTestVariants_classification m metas :
  (IsIntermediateTestVariant m = true ↔
     ForTest m ≠ ""%string ∧ ForTest m ≠ PkgPath m
     ∧ (ForTest m +:+ "_test")%string ≠ PkgPath m)
  ∧ (m ∈ metas →
     ForTest m = ""%string ∨ PkgPath m = ForTest m
     ∨ PkgPath m = (ForTest m +:+ "_test")%string →
     m ∈ RemoveIntermediateTestVariants metas)
  ∧ RemoveIntermediateTestVariants metas
    = filter (λ m', IsIntermediateTestVariant m' = false) metas
  ∧ RemoveIntermediateTestVariants metas `sublist_of` metas.
Proof.
  split; [apply IsIntermediateTestVariant_spec|].
  split; [|split].
  - intros Hin Hcase. apply elem_of_RemoveIntermediateTestVariants.
    split; [done|]. unfold notITV. apply not_true_is_false.
    rewrite IsIntermediateTestVariant_spec. intros (H1 & H2 & H3).
    destruct Hcase as [?|[?|?]]; congruence.
  - apply RemoveIntermediateTestVariants_filter.
  - rewrite RemoveIntermediateTestVariants_filter. apply sublist_filter.
Qed.

Lemma RemoveIntermediateTestVariants_classification_witness :
  sample.a_test ∈ RemoveIntermediateTestVariants sample.metas.
Proof.
  apply (proj1 (proj2
    (RemoveIntermediateTestVariants_classification sample.a_test sample.metas))).
  - apply (bool_decide_unpack _). vm_compute. exact I.
  - right; left. reflexivity.
Defined.

(** C1. Whatever [MetadataForFile] returns for a file,
    [NarrowestMetadataForFile] never returns an intermediate test
    variant, and every type-check request that
    [NarrowestPackageForFile] and [WidestPackageForFile] make names a
    listed package that is not an intermediate test variant: the list
    is filtered before an element is selected or passed to
    [TypeCheck], and the package handed back is the first result of
    such a request. *)
Theorem selection_excludes_intermediate_test_variants snapshot uri :
  (∀ m, NarrowestMetadataForFile snapshot uri = Ok m →
        IsIntermediateTestVariant m = false
        ∧ ∃ metas, MetadataForFile snapshot uri = Ok metas ∧ m ∈ metas)
  ∧ Forall (nonITV_request snapshot uri)
           (NarrowestPackageForFile snapshot uri).1
  ∧ Forall (nonITV_request snapshot uri)
           (WidestPackageForFile snapshot uri).1
  ∧ (∀ calls pkg pgf,
       NarrowestPackageForFile snapshot uri = (calls, Done (Ok (pkg, pgf)))
       ∨ WidestPackageForFile snapshot uri = (calls, Done (Ok (pkg, pgf))) →
       ∃ md metas pkgs,
         MetadataForFile snapshot uri = Ok metas ∧ md ∈ metas
         ∧ IsIntermediateTestVariant md = false
         ∧ TypeCheck snapshot [ID md] = Ok (pkg :: pkgs)).
Proof.
  repeat split.
  - unfold NarrowestMetadataForFile in H.
    destruct (MetadataForFile snapshot uri) as [metas|]; [|done].
    destruct (RemoveIntermediateTestVariants metas) as [|m0 ?] eqn:Hr; [done|].
    injection H as ->.
    assert (m ∈ RemoveIntermediateTestVariants metas) as Hin
      by (rewrite Hr; left).
    by apply elem_of_RemoveIntermediateTestVariants in Hin as [_ ?].
  - unfold NarrowestMetadataForFile in H.
    destruct (MetadataForFile snapshot uri) as [metas|]; [|done].
    destruct (RemoveIntermediateTestVariants metas) as [|m0 ?] eqn:Hr; [done|].
    injection H as ->. exists metas. split; [done|].
    assert (m ∈ RemoveIntermediateTestVariants metas) as Hin
      by (rewrite Hr; left).
    by apply elem_of_RemoveIntermediateTestVariants in Hin as [? _].
  - apply selectPackageForFile_requests, narrowest_picks.
  - apply selectPackageForFile_requests, widest_picks.
  - intros calls pkg pgf [H|H];
      eapply selectPackageForFile_result in H;
      eauto using narrowest_picks, widest_picks.
Qed.

Lemma selection_excludes_intermediate_test_variants_witness :
  IsIntermediateTestVariant sample.a = false
  ∧ ∃ metas, MetadataForFile sample.snapshot "file:///w/a/a.go" = Ok metas
             ∧ sample.a ∈ metas.
Proof.
  apply (proj1 (selection_excludes_intermediate_test_variants
                  sample.snapshot "file:///w/a/a.go") sample.a).
  vm_compute. reflexivity.
Defined.

(** The outcome of a selection, once the selector has picked [md] from
    the filtered list. *)
Lemma selectPackageForFile_hands_back snapshot uri sel metas md :
  MetadataForFile snapshot uri = Ok metas →
  RemoveIntermediateTestVariants metas ≠ [] →
  sel (RemoveIntermediateTestVariants metas) = Some md →
  (selectPackageForFile snapshot uri sel).1
  = [CallMetadataForFile uri; CallTypeCheck [ID md]]
  ∧ hands_back snapshot uri md (selectPackageForFile snapshot uri sel).2.
Proof.
  intros Hmeta Hne Hsel. unfold selectPackageForFile, hands_back.
  rewrite Hmeta.
  destruct (RemoveIntermediateTestVariants metas) as [|m0 rest]; [done|].
  rewrite Hsel.
  destruct (TypeCheck snapshot [ID md]) as [[|pkg pkgs]|e] eqn:Htc.
  - split; [done|]. cbn [snd]. split; [done|]. split.
    { intros pkg pgf. split; [done|]. by intros (? & ? & _). }
    split; [done|]. split; [done|eauto].
  - destruct (pkg_File pkg uri) as [pgf|e] eqn:Hfile;
      (split; [done|]); cbn [snd]; (split; [done|]); split.
    + intros pkg' pgf'. split.
      * intros [= <- <-]. eauto.
      * intros (pkgs' & [= <- <-] & Hf). congruence.
    + split.
      * intros pkg' pkgs' e [= <- <-]. congruence.
      * split; [by intros [? ?]|done].
    + intros pkg' pgf'. split; [done|].
      intros (pkgs' & [= <- <-] & Hf). congruence.
    + split.
      * intros pkg' pkgs' e' [= <- <-]. congruence.
      * split; [by intros [? ?]|done].
  - split; [done|]. cbn [snd]. split; [by intros ? [= ->]|]. split.
    { intros pkg pgf. split; [done|]. by intros (? & ? & _). }
    split; [done|]. split; [by intros [? ?]|done].
Qed.

(** What the contract of [TypeCheck] adds to [hands_back]. *)
Lemma hands_back_returns_package_of snapshot uri metas md r :
  TypeCheck_returns_requested snapshot metas → md ∈ metas →
  hands_back snapshot uri md r → returns_package_of snapshot uri md r.
Proof.
  intros Hcontract Hmd (Herr & Hok & Hfile & Hpanic). split.
  - intros pkg pgf (pkgs & Htc & _)%Hok.
    specialize (Hcontract md _ Hmd Htc). by injection Hcontract.
  - intros pkgs Htc. pose proof (Hcontract md _ Hmd Htc) as Hmds.
    destruct pkgs as [|pkg [|pkg' pkgs]]; [done| |done].
    injection Hmds as Hmeta. exists pkg. do 2 (split; [done|]).
    destruct (pkg_File pkg uri) as [pgf|e] eqn:Hf.
    + apply Hok. eauto.
    + by eapply Hfile.
Qed.

(** C5. Under the ordering that [MetadataForFile] documents (by number
    of [CompiledGoFiles], then by the intermediate-test-variant flag),
    for a file that belongs to at least one package that is not an
    intermediate test variant, the narrowest selection yields a package
    with the fewest member files and the widest selection one with the
    most, both taken among the packages left after the intermediate
    test variants are removed.  Each selection makes one type-check
    request, for the ID of that package, and hands back the first
    package of the answer with the file it has for the URI (or the
    error of the request or of [pkg.File]); when [TypeCheck] answers a
    request with the package asked for, the package returned is the
    package of that metadata, so the narrowest selection returns a
    package with the fewest member files and the widest one with the
    most, and neither panics. *)
Theorem narrowest_widest_selection snapshot uri metas :
  MetadataForFile snapshot uri = Ok metas →
  MetadataForFile_ordered metas →
  (∃ m, m ∈ metas ∧ IsIntermediateTestVariant m = false) →
  ∃ mn mw,
    is_narrowest metas mn ∧ is_widest metas mw
    ∧ NarrowestMetadataForFile snapshot uri = Ok mn
    ∧ (NarrowestPackageForFile snapshot uri).1
      = [CallMetadataForFile uri; CallTypeCheck [ID mn]]
    ∧ (WidestPackageForFile snapshot uri).1
      = [CallMetadataForFile uri; CallTypeCheck [ID mw]]
    ∧ hands_back snapshot uri mn (NarrowestPackageForFile snapshot uri).2
    ∧ hands_back snapshot uri mw (WidestPackageForFile snapshot uri).2
    ∧ (TypeCheck_returns_requested snapshot metas →
       returns_package_of snapshot uri mn
         (NarrowestPackageForFile snapshot uri).2
       ∧ returns_package_of snapshot uri mw
           (WidestPackageForFile snapshot uri).2
       ∧ (∀ pkg pgf,
            (NarrowestPackageForFile snapshot uri).2 = Done (Ok (pkg, pgf)) →
            is_narrowest metas (pkg_Metadata pkg))
       ∧ (∀ pkg pgf,
            (WidestPackageForFile snapshot uri).2 = Done (Ok (pkg, pgf)) →
            is_widest metas (pkg_Metadata pkg))
       ∧ (∀ msg, (NarrowestPackageForFile snapshot uri).2 ≠ Panic msg
                 ∧ (WidestPackageForFile snapshot uri).2 ≠ Panic msg)).
Proof.
  intros Hmeta Hord (m & Hm & Hn).
  assert (m ∈ RemoveIntermediateTestVariants metas) as Hin
    by by apply elem_of_RemoveIntermediateTestVariants.
  destruct (RemoveIntermediateTestVariants metas) as [|mn rest] eqn:Hr;
    [by apply elem_of_nil in Hin|].
  destruct (widest (mn :: rest)) as [mw|] eqn:Hw; last first.
  { unfold widest in Hw. apply lookup_ge_None in Hw. simpl in Hw. lia. }
  assert (is_narrowest metas mn) as Hmn
    by (apply narrowest_is_narrowest; [done|]; by rewrite Hr).
  assert (is_widest metas mw) as Hmw
    by (apply widest_is_widest; [done|]; by rewrite Hr).
  destruct (selectPackageForFile_hands_back snapshot uri narrowest metas mn)
    as [Hn1 Hn2]; [done|by rewrite Hr|by rewrite Hr|].
  destruct (selectPackageForFile_hands_back snapshot uri widest metas mw)
    as [Hw1 Hw2]; [done|by rewrite Hr|by rewrite Hr|].
  exists mn, mw. do 2 (split; [done|]). split.
  { unfold NarrowestMetadataForFile. by rewrite Hmeta, Hr. }
  do 4 (split; [done|]).
  intros Hcontract.
  pose proof (hands_back_returns_package_of snapshot uri metas mn _
                Hcontract (proj1 Hmn) Hn2) as Hpn.
  pose proof (hands_back_returns_package_of snapshot uri metas mw _
                Hcontract (proj1 Hmw) Hw2) as Hpw.
  do 2 (split; [done|]). split; [|split].
  - intros pkg pgf Hret. by rewrite (proj1 Hpn pkg pgf Hret).
  - intros pkg pgf Hret. by rewrite (proj1 Hpw pkg pgf Hret).
  - intros msg. split; intros Hpanic.
    + destruct Hn2 as (_ & _ & _ & Hp).
      assert (TypeCheck snapshot [ID mn] = Ok []) as Htc
        by (apply Hp; eauto).
      by destruct (proj2 Hpn _ Htc) as (? & ? & _).
    + destruct Hw2 as (_ & _ & _ & Hp).
      assert (TypeCheck snapshot [ID mw] = Ok []) as Htc
        by (apply Hp; eauto).
      by destruct (proj2 Hpw _ Htc) as (? & ? & _).
Qed.

Lemma narrowest_widest_selection_witness :
  ∃ mn mw,
    is_narrowest sample.metas mn ∧ is_widest sample.metas mw
    ∧ NarrowestMetadataForFile sample.snapshot "file:///w/a/a.go" = Ok mn
    ∧ (NarrowestPackageForFile sample.snapshot "file:///w/a/a.go").1
      = [CallMetadataForFile "file:///w/a/a.go"; CallTypeCheck [ID mn]]
    ∧ (WidestPackageForFile sample.snapshot "file:///w/a/a.go").1
      = [CallMetadataForFile "file:///w/a/a.go"; CallTypeCheck [ID mw]]
    ∧ hands_back sample.snapshot "file:///w/a/a.go" mn
        (NarrowestPackageForFile sample.snapshot "file:///w/a/a.go").2
    ∧ hands_back sample.snapshot "file:///w/a/a.go" mw
        (WidestPackageForFile sample.snapshot "file:///w/a/a.go").2
    ∧ (TypeCheck_returns_requested sample.snapshot sample.metas →
       returns_package_of sample.snapshot "file:///w/a/a.go" mn
         (NarrowestPackageForFile sample.snapshot "file:///w/a/a.go").2
       ∧ returns_package_of sample.snapshot "file:///w/a/a.go" mw
           (WidestPackageForFile sample.snapshot "file:///w/a/a.go").2
       ∧ (∀ pkg pgf,
            (NarrowestPackageForFile sample.snapshot "file:///w/a/a.go").2
            = Done (Ok (pkg, pgf)) →
            is_narrowest sample.metas (pkg_Metadata pkg))
       ∧ (∀ pkg pgf,
            (WidestPackageForFile sample.snapshot "file:///w/a/a.go").2
            = Done (Ok (pkg, pgf)) →
            is_widest sample.metas (pkg_Metadata pkg))
       ∧ (∀ msg,
            (NarrowestPackageForFile sample.snapshot "file:///w/a/a.go").2
            ≠ Panic msg
            ∧ (WidestPackageForFile sample.snapshot "file:///w/a/a.go").2
              ≠ Panic msg)).
Proof.
  apply (narrowest_widest_selection sample.snapshot "file:///w/a/a.go"
           sample.metas).
  - reflexivity.
  - apply (bool_decide_unpack _). vm_compute. exact I.
  - exists sample.a. split; [|reflexivity].
    apply (bool_decide_unpack _). vm_compute. exact I.
Defined.

(** The sample snapshot answers a request with the package asked for,
    and the two selections return package [a] and its test variant. *)
Example sample_TypeCheck_returns_requested :
  TypeCheck_returns_requested sample.snapshot sample.metas
  ∧ (∃ pkg pgf,
       (NarrowestPackageForFile sample.snapshot "file:///w/a/a.go").2
       = Done (Ok (pkg, pgf)) ∧ pkg_Metadata pkg = sample.a)
  ∧ (∃ pkg pgf,
       (WidestPackageForFile sample.snapshot "file:///w/a/a.go").2
       = Done (Ok (pkg, pgf)) ∧ pkg_Metadata pkg = sample.a_test).
Proof.
  split; [|split].
  - intros md pkgs Hmd [= <-].
    unfold sample.metas in Hmd.
    repeat (apply elem_of_cons in Hmd as [->|Hmd]); [done..|].
    by apply elem_of_nil in Hmd.
  - eexists _, _. split; [vm_compute; reflexivity|reflexivity].
  - eexists _, _. split; [vm_compute; reflexivity|reflexivity].
Qed.

(** The selections on the sample workspace. *)
Example sample_narrowest :
  NarrowestMetadataForFile sample.snapshot "file:///w/a/a.go" = Ok sample.a.
Proof. vm_compute. reflexivity. Qed.

Example sample_widest_calls :
  (WidestPackageForFile sample.snapshot "file:///w/a/a.go").1
  = [CallMetadataForFile "file:///w/a/a.go"; CallTypeCheck ["a [a.test]"%string]].
Proof. vm_compute. reflexivity. Qed.

End selection_claims.

(** ** Overlays and file reads *)

Section overlay_props.
Import file cache.
Context `{FileFuncs}.

Implicit Types (ctx : Context) (fs : overlayFS) (c : Modification)
  (changes : list Modification) (o : Overlay) (e : error).

Ltac crush_overlay :=
  repeat first
    [ progress simpl in *
    | progress simplify_eq
    | match goal with
      | |- context [match ?x with _ => _ end] => destruct x eqn:?
      | H : context [match ?x with _ => _ end] |- _ => destruct x eqn:?
      end ];
  try congruence; eauto.

(** An iteration that ends the loop with an error has written nothing. *)
Lemma updateOverlay_error ctx fs c fs' e :
  updateOverlay ctx fs c = Done (fs', Some e) → fs' = fs.
Proof. unfold updateOverlay, overlayKind, exec_bind. crush_overlay. Qed.

(** The nil dereferences of the loop body are unreachable. *)
Lemma updateOverlay_no_panic ctx fs c :
  ∃ r, updateOverlay ctx fs c = Done r.
Proof.
  unfold updateOverlay, overlayKind, exec_bind.
  destruct (overlays fs !! URI c) as [o|] eqn:Ho;
    destruct (OnDisk c), (Action_ c), (Text c);
    simpl; crush_overlay.
Qed.

Lemma updateOverlays_no_panic ctx fs changes :
  ∃ r, updateOverlays ctx fs changes = Done r.
Proof.
  revert fs. induction changes as [|c changes IH]; intros fs; simpl; [eauto|].
  destruct (updateOverlay_no_panic ctx fs c) as [[fs1 [e|]] ->]; simpl; eauto.
Qed.

Lemma updateOverlays_app ctx fs pre post fs1 :
  updateOverlays ctx fs pre = Done (fs1, None) →
  updateOverlays ctx fs (pre ++ post) = updateOverlays ctx fs1 post.
Proof.
  revert fs. induction pre as [|c pre IH]; intros fs; simpl.
  - by intros [= ->].
  - destruct (updateOverlay ctx fs c) as [[fs2 [e|]]|]; simpl; [done| |done].
    apply IH.
Qed.

(** A failing batch splits at the modification that failed: the ones
    before it were applied, it was not, the ones after it were not
    looked at. *)
Lemma updateOverlays_error_split ctx fs changes fs' e :
  updateOverlays ctx fs changes = Done (fs', Some e) →
  ∃ pre c post,
    changes = pre ++ c :: post
    ∧ updateOverlays ctx fs pre = Done (fs', None)
    ∧ updateOverlay ctx fs' c = Done (fs', Some e).
Proof.
  revert fs. induction changes as [|c changes IH]; intros fs; simpl; [done|].
  destruct (updateOverlay ctx fs c) as [[fs1 [e1|]]|] eqn:Hc; simpl; [| |done].
  - intros [= -> ->]. exists [], c, changes.
    pose proof (updateOverlay_error _ _ _ _ _ Hc) as ->. done.
  - intros (pre & c' & post & -> & Hpre & Hc')%IH.
    exists (c :: pre), c', post. simpl. rewrite Hc. simpl. done.
Qed.

End overlay_props.

Section overlay_claims.
Import file cache.
Context `{FileFuncs}.

Implicit Types (ctx : Context) (fs : overlayFS) (c : Modification)
  (changes : list Modification) (o : Overlay) (e : error).

Lemma updateOverlay_consistent ctx fs c fs' oe :
  consistent (overlays fs) →
  updateOverlay ctx fs c = Done (fs', oe) →
  consistent (overlays fs').
Proof.
  intros Hc. unfold updateOverlay, overlayKind, exec_bind.
  repeat first
    [ progress simpl in *
    | match goal with
      | |- context [match ?x with _ => _ end] => destruct x eqn:?
      end ];
    intros ?; simplify_eq; simpl; try done;
    intros u o'; rewrite ?lookup_insert, ?lookup_delete;
    repeat case_decide; intros ?; simplify_eq; simpl; eauto.
Qed.

(** [updateOverlays] keeps the overlay map consistent. *)
Lemma updateOverlays_consistent ctx fs changes fs' oe :
  consistent (overlays fs) →
  updateOverlays ctx fs changes = Done (fs', oe) →
  consistent (overlays fs').
Proof.
  revert fs. induction changes as [|c changes IH]; intros fs Hc; simpl.
  - by intros [= <- _].
  - destruct (updateOverlay ctx fs c) as [[fs1 [e1|]]|] eqn:Hu; simpl; [| |done].
    + intros [= <- _]. by eapply updateOverlay_consistent.
    + apply IH. by eapply updateOverlay_consistent.
Qed.

(** C3 (amended). When [updateOverlays] returns an error, the batch
    splits at the modification that failed: the modifications before
    it have been applied and stay applied, the failing one has changed
    nothing, and the ones after it have not been looked at.  In
    particular a batch of one modification that fails leaves the
    overlay map as it was. *)
Theorem updateOverlays_error_keeps_prefix ctx fs changes fs' e :
  updateOverlays ctx fs changes = Done (fs', Some e) →
  (∃ pre c post,
      changes = pre ++ c :: post
      ∧ updateOverlays ctx fs pre = Done (fs', None)
      ∧ updateOverlays ctx fs' [c] = Done (fs', Some e))
  ∧ (length changes = 1 → fs' = fs).
Proof.
  intros (pre & c & post & -> & Hpre & Hc)%updateOverlays_error_split.
  split.
  - exists pre, c, post. simpl. rewrite Hc. done.
  - rewrite length_app. simpl. intros Hlen.
    destruct pre; [|simpl in Hlen; lia]. simpl in Hpre. congruence.
Qed.

(** C7. Saving an open overlay (stored with the hash of its content):
    if the client supplies text whose hash differs from the stored
    hash, [updateOverlays] returns an error and writes nothing;
    otherwise the overlay is replaced by one with the saved flag set
    and the same URI, content, hash, version and kind.  When text is
    supplied, its hash equals the stored one; the content is then the
    same provided that the two do not collide under the hash. *)
Theorem updateOverlays_save ctx fs c o :
  Action_ c = Save →
  overlays fs !! URI c = Some o →
  uri o = URI c →
  hash o = HashOf (content o) →
  (∀ t, Text c = Some t → HashOf t = HashOf (content o) → t = content o) →
  (∀ t, Text c = Some t → HashOf t ≠ hash o →
        updateOverlays ctx fs [c]
        = Done (fs, Some (ErrOverlayChangedOnSave (URI c))))
  ∧ (Text c = None ∨ (∃ t, Text c = Some t ∧ HashOf t = hash o) →
     updateOverlays ctx fs [c]
     = Done (set_overlays fs
               (<[URI c := {| uri := uri o; content := content o;
                              hash := hash o; version := version o;
                              kind := kind o; saved := true |}]>
                  (overlays fs)),
             None)).
Proof.
  intros Hact Ho Huri Hhash Hcoll. split.
  - intros t Ht Hne. simpl. unfold updateOverlay, overlayKind.
    rewrite Ho, Hact, Ht. simpl.
    repeat (case_bool_decide; simpl); rewrite ?orb_true_r; simpl; try done.
    all: exfalso; eauto.
  - intros Hcase. simpl. unfold updateOverlay, overlayKind.
    rewrite Ho, Hact. simpl.
    destruct Hcase as [Ht|(t & Ht & Heq)]; rewrite Ht; simpl.
    + repeat (case_bool_decide; simpl); rewrite ?orb_true_r; simpl.
      all: try (exfalso; eauto; fail).
      all: try (by match goal with Hs : is_Some None |- _ => destruct Hs end).
      all: by rewrite Huri, <- Hhash.
    + rewrite (Hcoll t Ht) in * by congruence.
      repeat (case_bool_decide; simpl); rewrite ?orb_true_r; simpl.
      all: try (exfalso; eauto; fail).
      all: try congruence.
      all: by rewrite Huri, <- Hhash.
Qed.

(** C8. [mustReadFile] always returns a handle; it reads through the
    detached context, which is never cancelled; when the read fails it
    returns the [brokenFile] for the same URI, whose [Content] is the
    stored error, whose [Identity] is the URI with the zero hash, and
    which reports [SameContentsOnDisk] false and [Version] 0.  Over a
    source that fails only on a cancelled context it returns what the
    source read. *)
Theorem mustReadFile_never_fails ctx (src : Source) (u : DocumentURI) :
  ctx_cancelled (Detach ctx) = false
  ∧ (∀ fh, src (Detach ctx) u = Ok fh → mustReadFile ctx src u = fh)
  ∧ (∀ err, src (Detach ctx) u = Err err →
       mustReadFile ctx src u
       = brokenFile_Handle {| bf_uri := u; bf_err := err |}
       ∧ h_URI (mustReadFile ctx src u) = u
       ∧ h_Content (mustReadFile ctx src u) = Err err
       ∧ h_Identity (mustReadFile ctx src u)
         = {| id_URI := u; id_Hash := zeroHash |}
       ∧ h_SameContentsOnDisk (mustReadFile ctx src u) = false
       ∧ h_Version (mustReadFile ctx src u) = 0%Z)
  ∧ ((∀ ctx' u' err, src ctx' u' = Err err → ctx_cancelled ctx' = true) →
     ∃ fh, src (Detach ctx) u = Ok fh ∧ mustReadFile ctx src u = fh).
Proof.
  unfold mustReadFile. repeat split.
  - by intros fh ->.
  - by rewrite H0.
  - by rewrite H0.
  - by rewrite H0.
  - by rewrite H0.
  - by rewrite H0.
  - by rewrite H0.
  - intros Hinv. destruct (src (Detach ctx) u) as [fh|err] eqn:Hr; [eauto|].
    by apply Hinv in Hr.
Qed.

End overlay_claims.

Section overlay_samples.
Import file cache.

(** C3, counterexample.  On an empty overlay map, the batch that opens
    a.go and then changes the unopened b.go fails on the second
    modification, and the overlay that the first one created is
    still there. *)
Lemma updateOverlays_not_transactional :
  ∃ fs' e,
    updateOverlays (H := sample.funcs) sample.ctx sample.fs0
      [sample.open_a; sample.change_b] = Done (fs', Some e)
    ∧ overlays sample.fs0 !! "file:///w/a/a.go"%string = None
    ∧ overlays fs' !! "file:///w/a/a.go"%string
      = Some {| uri := "file:///w/a/a.go"; content := bytes "package a";
                hash := bytes "package a"; version := 1;
                kind := KindSource; saved := true |}.
Proof.
  eexists _, _. split; [vm_compute; reflexivity|].
  split; vm_compute; reflexivity.
Qed.

Lemma updateOverlays_error_keeps_prefix_witness :
  (∃ pre c post,
      [sample.open_a; sample.change_b] = pre ++ c :: post
      ∧ updateOverlays (H := sample.funcs) sample.ctx sample.fs0 pre
        = Done (set_overlays sample.fs0
                  (<["file:///w/a/a.go"%string :=
                       {| uri := "file:///w/a/a.go";
                          content := bytes "package a";
                          hash := bytes "package a"; version := 1;
                          kind := KindSource; saved := true |}]> ∅), None)
      ∧ updateOverlays (H := sample.funcs) sample.ctx
          (set_overlays sample.fs0
             (<["file:///w/a/a.go"%string :=
                  {| uri := "file:///w/a/a.go";
                     content := bytes "package a";
                     hash := bytes "package a"; version := 1;
                     kind := KindSource; saved := true |}]> ∅)) [c]
        = Done (set_overlays sample.fs0
                  (<["file:///w/a/a.go"%string :=
                       {| uri := "file:///w/a/a.go";
                          content := bytes "package a";
                          hash := bytes "package a"; version := 1;
                          kind := KindSource; saved := true |}]> ∅),
                Some (ErrModifyingUnopenedOverlay "file:///w/b/b.go")))
  ∧ (length [sample.open_a; sample.change_b] = 1 →
     set_overlays sample.fs0
       (<["file:///w/a/a.go"%string :=
            {| uri := "file:///w/a/a.go"; content := bytes "package a";
               hash := bytes "package a"; version := 1;
               kind := KindSource; saved := true |}]> ∅) = sample.fs0).
Proof.
  apply (updateOverlays_error_keeps_prefix (H := sample.funcs)).
  vm_compute. reflexivity.
Defined.

Lemma updateOverlays_save_witness :
  updateOverlays (H := sample.funcs) sample.ctx sample.fs1
    [sample.save_a_text]
  = Done (set_overlays sample.fs1
            (<["file:///w/a/a.go"%string :=
                 {| uri := "file:///w/a/a.go"; content := bytes "package a";
                    hash := bytes "package a"; version := 1;
                    kind := KindSource; saved := true |}]>
               (overlays sample.fs1)), None).
Proof.
  apply (proj2 (updateOverlays_save (H := sample.funcs) sample.ctx sample.fs1
                  sample.save_a_text sample.overlay_a
                  eq_refl eq_refl eq_refl eq_refl
                  (λ t _ Heq, Heq))).
  right. exists (bytes "package a"). split; reflexivity.
Defined.

Lemma mustReadFile_never_fails_witness :
  mustReadFile sample.ctx sample.disk "file:///w/a/locked.go"
  = brokenFile_Handle {| bf_uri := "file:///w/a/locked.go";
                         bf_err := ErrExternal "permission denied" |}
  ∧ h_URI (mustReadFile sample.ctx sample.disk "file:///w/a/locked.go")
    = "file:///w/a/locked.go"%string
  ∧ h_Content (mustReadFile sample.ctx sample.disk "file:///w/a/locked.go")
    = Err (ErrExternal "permission denied")
  ∧ h_Identity (mustReadFile sample.ctx sample.disk "file:///w/a/locked.go")
    = {| id_URI := "file:///w/a/locked.go"; id_Hash := zeroHash |}
  ∧ h_SameContentsOnDisk
      (mustReadFile sample.ctx sample.disk "file:///w/a/locked.go") = false
  ∧ h_Version (mustReadFile sample.ctx sample.disk "file:///w/a/locked.go")
    = 0%Z.
Proof.
  apply (proj1 (proj2 (proj2
    (mustReadFile_never_fails sample.ctx sample.disk "file:///w/a/locked.go")))).
  reflexivity.
Defined.

End overlay_samples.

(** ** Text synchronisation *)

Section text_sync_claims.
Import file protocol lsp.
Context `{ProtocolFuncs, ServerFuncs}.

Implicit Types (s : server) (ctx : Context) (uri : DocumentURI)
  (c : TextDocumentContentChangeEvent)
  (changes pre post : list TextDocumentContentChangeEvent)
  (content : list byte).

Lemma applyChanges_app content content' pre post :
  applyChanges content pre = Done (Ok content') →
  applyChanges content (pre ++ post) = applyChanges content' post.
Proof.
  revert content. induction pre as [|c pre IH]; intros content; simpl.
  - by intros [= ->].
  - destruct (ce_Range c) as [rng|]; [|done].
    destruct (RangeOffsets content rng) as [[start end_]|]; [|done].
    repeat case_decide; try done. apply IH.
Qed.

Lemma applyChanges_malformed content c post :
  malformed content c →
  ∃ err, applyChanges content (c :: post) = Done (Err err).
Proof.
  intros (rng & Hr & [[err He]|(start & end_ & He & Hlt)]); simpl;
    rewrite Hr, He; [eauto|].
  rewrite decide_True by done. eauto.
Qed.

Lemma applyChanges_applied content changes result :
  applyChanges content changes = Done (Ok result)
  ↔ applied_incrementally content changes result.
Proof.
  split.
  - revert content. induction changes as [|c changes IH]; intros content.
    + intros [= ->]. constructor.
    + cbn [applyChanges].
      destruct (ce_Range c) as [rng|] eqn:Hrng; [|done].
      destruct (RangeOffsets content rng) as [[start end_]|] eqn:Hoff;
        [|done].
      case_decide as Hlt; [done|]. case_decide as Hle; [|done].
      intros Hrest. eapply applied_change; eauto. lia.
  - induction 1 as [|content c changes rng start end_ result
                      Hrng Hoff Hle Hend _ IH]; [done|].
    cbn [applyChanges]. rewrite Hrng, Hoff.
    by rewrite decide_False, decide_True by lia.
Qed.

(** C10. [changedText] fails on an empty list of changes; on a single
    change with a nil range and zero range length it returns the text
    of that change as the new content, whatever the server and the
    file system hold (it reads no file); in every other case it is
    [applyIncrementalChanges], that is: it reads the file of the URI,
    returning the error of the read, or the file-not-found error when
    the content cannot be had; it returns a content exactly when that
    content results from applying the changes in order to the content
    read, each replacing the bytes of its range with its text; and it
    fails at the first change that has no range, whose range the mapper
    does not map, or whose end offset precedes its start offset, with
    the nil-range error, the error of the mapper, or the invalid-range
    error. *)
Theorem changedText_cases s ctx uri :
  changedText s ctx uri [] = Done (Err ErrNoContentChanges)
  ∧ (∀ c, ce_Range c = None → ce_RangeLength c = 0%N →
          ∀ s', changedText s' ctx uri [c] = Done (Ok (bytes (ce_Text c))))
  ∧ (∀ changes,
       changes ≠ [] →
       ¬ (∃ c, changes = [c] ∧ ce_Range c = None ∧ ce_RangeLength c = 0%N) →
       changedText s ctx uri changes
       = applyIncrementalChanges s ctx uri changes
       ∧ (∀ err, ReadFile (session s) ctx uri = Err err →
                 changedText s ctx uri changes = Done (Err err))
       ∧ (∀ fh err, ReadFile (session s) ctx uri = Ok fh →
                    h_Content fh = Err err →
                    changedText s ctx uri changes
                    = Done (Err (ErrFileNotFound err)))
       ∧ (∀ fh content,
            ReadFile (session s) ctx uri = Ok fh →
            h_Content fh = Ok content →
            (∀ result,
               changedText s ctx uri changes = Done (Ok result)
               ↔ applied_incrementally content changes result)
            ∧ (∀ pre c post current,
                 changes = pre ++ c :: post →
                 applied_incrementally content pre current →
                 (ce_Range c = None →
                  changedText s ctx uri changes
                  = Done (Err ErrUnexpectedNilRange))
                 ∧ (∀ rng err,
                      ce_Range c = Some rng →
                      RangeOffsets current rng = Err err →
                      changedText s ctx uri changes = Done (Err err))
                 ∧ (∀ rng start end_,
                      ce_Range c = Some rng →
                      RangeOffsets current rng = Ok (start, end_) →
                      end_ < start →
                      changedText s ctx uri changes
                      = Done (Err ErrInvalidRange))))).
Proof.
  split; [done|]. split.
  - intros c Hr Hl s'. unfold changedText. simpl.
    by rewrite !bool_decide_eq_true_2.
  - intros changes Hne Hnot.
    assert (changedText s ctx uri changes
            = applyIncrementalChanges s ctx uri changes) as Heq.
    { destruct changes as [|c0 rest]; [done|]. unfold changedText.
      destruct (bool_decide (length (c0 :: rest) = 1)) eqn:Hlen; [|done].
      destruct (bool_decide (ce_Range c0 = None)) eqn:Hr; [|done].
      destruct (bool_decide (ce_RangeLength c0 = 0%N)) eqn:Hl; [|done].
      apply bool_decide_eq_true in Hlen, Hr, Hl.
      destruct rest; [|done]. destruct Hnot. eauto. }
    split; [done|]. rewrite Heq. unfold applyIncrementalChanges.
    split; [by intros err ->|].
    split; [by intros fh err -> ->|].
    intros fh content -> ->. split.
    + intros result. apply applyChanges_applied.
    + intros pre c post current -> Hpre.
      apply applyChanges_applied in Hpre.
      rewrite (applyChanges_app _ _ _ _ Hpre). cbn [applyChanges].
      split; [by intros ->|]. split.
      * by intros rng err -> ->.
      * intros rng start end_ -> -> Hlt. by rewrite decide_True.
Qed.

(** C4 (amended). For a change notification on a file URI: if one of
    its content changes, met after the changes before it have been
    applied to the content read for the URI, has a range that does not
    map into the current content or whose end offset precedes its start
    offset, then [changedText] fails, [DidChange] returns that error
    (the invalid-range error for an inverted range) and leaves the
    server, and with it every overlay, as it was: nothing is clamped or
    applied in part. *)
Theorem DidChange_rejects_malformed s ctx params pre c post fh content0 content :
  IsFile (TextDocument_URI params) = true →
  ContentChanges params = pre ++ c :: post →
  ReadFile (session s) ctx (TextDocument_URI params) = Ok fh →
  h_Content fh = Ok content0 →
  applyChanges content0 pre = Done (Ok content) →
  malformed content c →
  ∃ err,
    changedText s ctx (TextDocument_URI params) (ContentChanges params)
    = Done (Err err)
    ∧ DidChange s ctx params = Done (s, Some err)
    ∧ ((∃ rng start end_, ce_Range c = Some rng
          ∧ RangeOffsets content rng = Ok (start, end_) ∧ end_ < start) →
       err = ErrInvalidRange).
Proof.
  intros Hfile Hch Hread Hcont Hpre Hbad.
  assert (∃ err, applyIncrementalChanges s ctx (TextDocument_URI params)
                   (ContentChanges params) = Done (Err err)
                 ∧ ((∃ rng start end_, ce_Range c = Some rng
                       ∧ RangeOffsets content rng = Ok (start, end_)
                       ∧ end_ < start) → err = ErrInvalidRange))
    as (err & Hinc & Hinv).
  { unfold applyIncrementalChanges. rewrite Hread, Hcont, Hch.
    rewrite (applyChanges_app _ _ _ _ Hpre).
    destruct (applyChanges_malformed content c post Hbad) as [err Herr].
    exists err. split; [done|].
    intros (rng & start & end_ & Hr & He & Hlt).
    simpl in Herr. rewrite Hr, He, decide_True in Herr by done. congruence. }
  assert (changedText s ctx (TextDocument_URI params) (ContentChanges params)
          = Done (Err err)) as Htext.
  { unfold changedText. rewrite Hch in *.
    destruct (pre ++ c :: post) as [|c0 rest] eqn:Hl;
      [by destruct pre|].
    destruct (bool_decide (length (c0 :: rest) = 1)) eqn:Hlen; [|done].
    destruct (bool_decide (ce_Range c0 = None)) eqn:Hr; [|done].
    apply bool_decide_eq_true in Hlen, Hr. exfalso.
    destruct Hbad as (rng & Hrng & _).
    destruct pre as [|p0 pre]; simpl in Hl.
    - congruence.
    - injection Hl as -> <-. simpl in Hlen.
      rewrite length_app in Hlen. simpl in Hlen. lia. }
  exists err. split; [done|]. split; [|done].
  unfold DidChange. rewrite Hfile, Htext. done.
Qed.

(** Whenever [changedText] fails, [DidChange] on a file URI returns its
    error and the server is unchanged. *)
Lemma DidChange_changedText_error s ctx params err :
  IsFile (TextDocument_URI params) = true →
  changedText s ctx (TextDocument_URI params) (ContentChanges params)
  = Done (Err err) →
  DidChange s ctx params = Done (s, Some err).
Proof. intros Hf Ht. unfold DidChange. by rewrite Hf, Ht. Qed.

End text_sync_claims.

Section text_sync_samples.
Import file protocol lsp.

Lemma changedText_cases_witness :
  changedText (H := sample.proto) sample.server1 sample.ctx
    "file:///w/a/a.go" [sample.full]
  = Done (Ok (bytes "package b")).
Proof.
  apply (proj1 (proj2 (changedText_cases (H := sample.proto)
                         sample.server1 sample.ctx "file:///w/a/a.go"))
           sample.full eq_refl eq_refl sample.server1).
Defined.

(** An incremental change of the open file a.go: the package name is
    replaced in the content of the overlay. *)
Example changedText_incremental_sample :
  changedText (H := sample.proto) sample.server1 sample.ctx
    "file:///w/a/a.go" [sample.rename]
  = Done (Ok (bytes "package main")).
Proof. vm_compute. reflexivity. Qed.

(** C4, counterexample.  A change notification for a document that is
    not a file, carrying an edit whose range ends before it starts, is
    not rejected: [DidChange] returns no error. *)
Lemma DidChange_ignores_non_file_uri :
  IsFile (ProtocolFuncs := sample.proto)
    (TextDocument_URI sample.change_untitled) = false
  ∧ ContentChanges sample.change_untitled = [sample.inverted]
  ∧ DidChange (H := sample.proto) (H0 := sample.srv)
      sample.server1 sample.ctx sample.change_untitled
    = Done (sample.server1, None).
Proof. repeat split. Qed.

Lemma DidChange_rejects_malformed_witness :
  ∃ err,
    changedText (H := sample.proto) sample.server1 sample.ctx
      (TextDocument_URI sample.change_a) (ContentChanges sample.change_a)
    = Done (Err err)
    ∧ DidChange (H := sample.proto) (H0 := sample.srv)
        sample.server1 sample.ctx sample.change_a
      = Done (sample.server1, Some err)
    ∧ ((∃ rng start end_, ce_Range sample.inverted = Some rng
          ∧ RangeOffsets (ProtocolFuncs := sample.proto)
              (bytes "package a") rng = Ok (start, end_) ∧ end_ < start) →
       err = ErrInvalidRange).
Proof.
  apply (DidChange_rejects_malformed (H := sample.proto) (H0 := sample.srv)
           sample.server1 sample.ctx sample.change_a [] sample.inverted []
           (Overlay_Handle sample.overlay_a) (bytes "package a")
           (bytes "package a")).
  - reflexivity.
  - reflexivity.
  - vm_compute. reflexivity.
  - reflexivity.
  - reflexivity.
  - eexists. split; [reflexivity|]. right. exists 5, 2.
    split; [vm_compute; reflexivity|]. lia.
Defined.

End text_sync_samples.


(** ** Views of a session *)

Section view_props.
Import file cache.
Context `{FileFuncs, ViewFuncs}.

Implicit Types (s : Session) (view : ptr) (v : View) (c : Modification)
  (changes : list Modification).

Lemma checkViews_spec changes :
  checkViews changes = true ↔ ∃ c, c ∈ changes ∧ triggers c.
Proof.
  induction changes as [|c changes IH]; simpl.
  - split; [done|]. by intros (c & ?%elem_of_nil & _).
  - destruct (isGoWork (URI c) && (bool_decide (Action_ c = Save) || OnDisk c))
      eqn:Hw.
    { split; [|done]. intros _. exists c. split; [left|].
      apply andb_true_iff in Hw as [? [?%bool_decide_eq_true|?]%orb_true_iff];
        left; auto. }
    destruct (isGoMod (URI c) && bool_decide (Action_ c ≠ Change)
              && bool_decide (Action_ c ≠ Save)) eqn:Hm.
    { split; [|done]. intros _. exists c. split; [left|].
      apply andb_true_iff in Hm
        as [[? ?%bool_decide_eq_true]%andb_true_iff ?%bool_decide_eq_true].
      by right. }
    rewrite IH. split.
    + intros (c' & ? & ?). exists c'. split; [by right|done].
    + intros (c' & [->|?]%elem_of_cons & Ht); [|by exists c'].
      exfalso. destruct Ht as [[Hgw Hs]|(Hgm & Hc & Hs)].
      * rewrite Hgw in Hw. simpl in Hw.
        apply orb_false_iff in Hw as [Hw1%bool_decide_eq_false Hw2].
        destruct Hs; congruence.
      * rewrite Hgm in Hm. simpl in Hm.
        apply andb_false_iff in Hm as [?%bool_decide_eq_false|?%bool_decide_eq_false];
          tauto.
Qed.

Lemma dropView_found s i view :
  NoDup (views s) → views s !! i = Some (Some view) →
  dropView s view
  = (set_heap (set_views (set_viewMap s ∅) (<[i := None]> (views s)))
       (alter shutdown view (heap s)), Z.of_nat i).
Proof.
  intros Hnd Hi. unfold dropView. simpl.
  assert (list_find (λ x, x = Some view) (views s) = Some (i, Some view)) as ->;
    [|done].
  apply list_find_Some. repeat split; [done..|].
  intros j y Hj Hlt ->. pose proof (NoDup_lookup _ _ _ _ Hnd Hi Hj). lia.
Qed.

Lemma updateViewLocked_ok s i view v sn def fld :
  NoDup (views s) → views s !! i = Some (Some view) →
  heap s !! view = Some v → snapshot v = Some sn →
  ∃ s',
    updateViewLocked s view def fld = Done (s', Ok (fresh (dom (heap s))))
    ∧ views s' = <[i := Some (fresh (dom (heap s)))]> (views s)
    ∧ fs s' = fs s
    ∧ heap s' = <[fresh (dom (heap s)) := recreated_view s def fld sn]>
                  (<[view := shutdown v]> (heap s)).
Proof.
  intros Hnd Hi Hv Hsn. unfold updateViewLocked.
  rewrite Hv, Hsn, (dropView_found s i view) by done.
  rewrite decide_False by lia. unfold createView. simpl.
  rewrite !dom_alter_L.
  eexists. split; [reflexivity|]. simpl.
  rewrite Nat2Z.id, list_insert_insert_eq. split; [done|]. split; [done|].
  rewrite alter_insert_eq. f_equal.
  apply map_eq. intros p. rewrite lookup_alter, lookup_insert.
  repeat case_decide; subst; by rewrite ?Hv.
Qed.

Lemma loop_inv_0 s0 : live s0 → loop_inv s0 0 s0.
Proof.
  intros [Hnd Hlive]. repeat split; try done.
  - intros j ov (view & v & sn & -> & Hv & _)%Hlive.
    exists view. split; [done|]. apply elem_of_dom. eauto.
  - lia.
Qed.

Lemma reevaluateViews_loop_app s l1 l2 :
  reevaluateViews_loop s (l1 ++ l2)
  = (s' ←! reevaluateViews_loop s l1; reevaluateViews_loop s' l2).
Proof.
  revert s. induction l1 as [|i l1 IH]; intros s; simpl; [done|].
  destruct (reevaluateView s i); simpl; [apply IH|done].
Qed.

Lemma loop_inv_keep s0 k s view v :
  loop_inv s0 k s →
  views s0 !! k = Some (Some view) → heap s0 !! view = Some v →
  (∀ info, getViewDefinition (fs s0) (folder v) = Ok info →
           viewDefinitionsEqual (view_definition v) info = true) →
  loop_inv s0 (S k) s.
Proof.
  intros (Hlen & Hfs & Hnd & Hdom & Hsub & Hviews & Hheap & Hout) Hvk Hv Heq.
  repeat split; try done.
  - intros j ?. apply Hviews. lia.
  - intros j view' ?. apply Hheap. lia.
  - intros j Hj. destruct (decide (j = k)) as [->|]; [|apply Hout; lia].
    intros view1 v1 Hview1 Hv1.
    assert (view1 = view) as -> by congruence.
    assert (v1 = v) as -> by congruence.
    assert (kept s k view v) as Hkept.
    { split; [by rewrite Hviews|by erewrite Hheap]. }
    destruct (getViewDefinition (fs s0) (folder v)) as [info|] eqn:Hg; [|done].
    by rewrite (Heq info).
Qed.

Lemma loop_inv_recreate s0 k s s' view v sn info :
  live s0 → loop_inv s0 k s →
  views s0 !! k = Some (Some view) → heap s0 !! view = Some v →
  snapshot v = Some sn →
  getViewDefinition (fs s0) (folder v) = Ok info →
  viewDefinitionsEqual (view_definition v) info = false →
  views s' = <[k := Some (fresh (dom (heap s)))]> (views s) →
  fs s' = fs s →
  heap s' = <[fresh (dom (heap s)) := recreated_view s info (folder v) sn]>
              (<[view := shutdown v]> (heap s)) →
  loop_inv s0 (S k) s'.
Proof.
  intros [Hnd0 Hlive0]
    (Hlen & Hfs & Hnd & Hdom & Hsub & Hviews & Hheap & Hout)
    Hvk0 Hv0 Hsn Hg Hne Hviews' Hfs' Hheap'.
  set (view' := fresh (dom (heap s))) in *.
  assert (view' ∉ dom (heap s)) as Hfresh by apply is_fresh.
  assert (views s !! k = Some (Some view)) as Hvk by (by rewrite Hviews).
  assert (heap s !! view = Some v) as Hv by (by erewrite Hheap).
  assert (k < length (views s)) as Hk by (by eapply lookup_lt_Some).
  assert (view ≠ view') as Hvv'.
  { intros ->. apply Hfresh, elem_of_dom. eauto. }
  (* the heap changes at [view] and [view'] only *)
  assert (∀ p, p ≠ view → p ∈ dom (heap s) → heap s' !! p = heap s !! p)
    as Hframe.
  { intros p Hp Hin. rewrite Hheap', !lookup_insert_ne; [done|done|].
    intros <-. done. }
  repeat split.
  - by rewrite Hviews', length_insert.
  - congruence.
  - rewrite Hviews'. apply NoDup_alt. intros i j x.
    rewrite !list_lookup_insert_Some.
    intros [(-> & <- & _)|[? Hi]] [(-> & Hx & _)|[? Hj]]; try done.
    + exfalso. destruct (Hdom _ _ Hj) as (p & [= <-] & Hin). done.
    + exfalso. subst x. destruct (Hdom _ _ Hi) as (p & [= <-] & Hin). done.
    + by eapply NoDup_lookup.
  - intros j ov. rewrite Hviews', list_lookup_insert_Some, Hheap'.
    rewrite !dom_insert_L.
    intros [(-> & <- & _)|[? Hj]]; [exists view'; set_solver|].
    destruct (Hdom _ _ Hj) as (p & -> & ?). exists p. set_solver.
  - rewrite Hheap', !dom_insert_L. set_solver.
  - intros j Hj. rewrite Hviews', list_lookup_insert_ne by lia.
    apply Hviews. lia.
  - intros j p Hj Hp. rewrite <- (Hheap j p) by (done || lia).
    destruct (Hlive0 _ _ Hp) as (? & vp & ? & [= <-] & Hvp & _).
    apply Hframe.
    + intros ->. pose proof (NoDup_lookup _ _ _ _ Hnd0 Hvk0 Hp). lia.
    + apply Hsub, elem_of_dom. eauto.
  - intros j Hj. destruct (decide (j = k)) as [->|Hjk].
    + intros view1 v1 Hview1 Hv1.
      assert (view1 = view) as -> by congruence.
      assert (v1 = v) as -> by congruence.
      rewrite Hg, Hne.
      exists view', (recreated_view s info (folder v) sn), sn.
      eexists. repeat split; try done.
      * rewrite Hviews'. by apply list_lookup_insert_eq.
      * intros Hin. by apply Hfresh, Hsub.
      * by rewrite Hheap', lookup_insert_eq.
      * by rewrite Hheap', lookup_insert_ne, lookup_insert_eq.
    + assert (j < k) as Hlt by lia.
      intros view1 v1 Hview1 Hv1. specialize (Hout j Hlt view1 v1 Hview1 Hv1).
      assert (view1 ≠ view) as Hv1v.
      { intros ->. pose proof (NoDup_lookup _ _ _ _ Hnd0 Hvk0 Hview1). lia. }
      assert (∀ v2, kept s j view1 v2 → kept s' j view1 v2) as Hkept.
      { intros v2 [Hj1 Hj2]. split.
        - by rewrite Hviews', list_lookup_insert_ne.
        - rewrite Hframe; [done..|]. apply elem_of_dom. eauto. }
      destruct (getViewDefinition (fs s0) (folder v1)) as [info1|];
        [|by apply Hkept].
      destruct (viewDefinitionsEqual (view_definition v1) info1);
        [by apply Hkept|].
      destruct Hout as (p' & v' & sn1 & sn1' & Hp' & Hnew & Hhp' & ? & ? & ?
                        & ? & ? & Hold).
      exists p', v', sn1, sn1'. repeat split; try done.
      * by rewrite Hviews', list_lookup_insert_ne.
      * rewrite Hframe; [done| |apply elem_of_dom; eauto].
        intros ->. pose proof (NoDup_lookup _ _ _ _ Hnd Hvk Hp'). lia.
      * rewrite Hframe; [done..|]. apply elem_of_dom. eauto.
Qed.

Lemma loop_inv_step s0 k s :
  live s0 → k < length (views s0) → loop_inv s0 k s →
  ∃ s', reevaluateView s k = Done s' ∧ loop_inv s0 (S k) s'.
Proof.
  intros Hlive Hk Hinv.
  pose proof Hlive as [Hnd0 Hlive0].
  pose proof Hinv as (Hlen & Hfs & Hnd & Hdom & Hsub & Hviews & Hheap & Hout).
  destruct (lookup_lt_is_Some_2 (views s0) k Hk) as [ov Hov].
  destruct (Hlive0 k ov Hov) as (view & v & sn & -> & Hv0 & Hsn).
  assert (views s !! k = Some (Some view)) as Hvk by (by rewrite Hviews).
  assert (heap s !! view = Some v) as Hv by (by erewrite Hheap).
  unfold reevaluateView. rewrite Hvk, Hv, Hfs.
  destruct (getViewDefinition (fs s0) (folder v)) as [info|err] eqn:Hg.
  - destruct (viewDefinitionsEqual (view_definition v) info) eqn:He; simpl.
    + exists s. split; [done|]. eapply loop_inv_keep; eauto. congruence.
    + destruct (updateViewLocked_ok s k view v sn info (folder v))
        as (s' & -> & Hviews' & Hfs' & Hheap'); [done..|].
      simpl. exists s'. split; [done|]. by eapply loop_inv_recreate.
  - exists s. split; [done|]. eapply loop_inv_keep; eauto. congruence.
Qed.

Lemma reevaluateViews_loop_inv s0 k :
  live s0 → k ≤ length (views s0) →
  ∃ s, reevaluateViews_loop s0 (seq 0 k) = Done s ∧ loop_inv s0 k s.
Proof.
  intros Hlive. induction k as [|k IH]; intros Hk.
  - exists s0. split; [done|]. by apply loop_inv_0.
  - destruct IH as (s & Hs & Hinv); [lia|].
    destruct (loop_inv_step s0 k s) as (s' & Hs' & Hinv'); [done|lia|done|].
    exists s'. split; [|done].
    rewrite seq_S, reevaluateViews_loop_app, Hs. simpl. by rewrite Hs'.
Qed.

(** C6 (amended).  [DidModifyFiles] first updates the overlays and stops
there if that fails.  Otherwise it re-evaluates the view definitions
exactly when the batch holds a go.work modification that is a save or an
on-disk change, or a go.mod modification whose action is neither [Change]
nor [Save].  In that case, on a session whose views are distinct live
objects, the definition of every view is computed again, and each view
whose definition differs is replaced in its slot, through
[updateViewLocked], by a new view with the new definition, the same
folder and the same sequence ID, the old one being shut down; the other
views are left as they are.  For any other batch no view is re-evaluated
or replaced. *)
Theorem DidModifyFiles_reevaluates_views {A}
    (invalidate : Session → Context → list Modification →
                  exec (Session * result A))
    s (ctx : Context) changes :
  live s →
  (∀ fs' err, updateOverlays ctx (fs s) changes = Done (fs', Some err) →
     DidModifyFiles invalidate s ctx changes = Done (set_fs s fs', Err err))
  ∧ (∀ fs', updateOverlays ctx (fs s) changes = Done (fs', None) →
       DidModifyFiles invalidate s ctx changes
       = (s' ←! reevaluateViews (set_fs s fs') changes;
          invalidate s' ctx changes))
  ∧ (checkViews changes = true ↔ ∃ c, c ∈ changes ∧ triggers c)
  ∧ (checkViews changes = false → reevaluateViews s changes = Done s)
  ∧ (checkViews changes = true →
       ∃ s', reevaluateViews s changes = Done s'
             ∧ length (views s') = length (views s)
             ∧ fs s' = fs s
             ∧ ∀ i, i < length (views s) → view_outcome s s' i).
Proof.
  intros Hlive. repeat split.
  - intros fs' err Hu. unfold DidModifyFiles. by rewrite Hu.
  - intros fs' Hu. unfold DidModifyFiles. by rewrite Hu.
  - apply checkViews_spec.
  - apply checkViews_spec.
  - intros Hc. unfold reevaluateViews. by rewrite Hc.
  - intros Hc. unfold reevaluateViews. rewrite Hc.
    destruct (reevaluateViews_loop_inv s (length (views s)) Hlive)
      as (s' & Hs' & Hlen & Hfs & _ & _ & _ & _ & _ & Hout); [done|].
    exists s'. done.
Qed.

End view_props.

Section view_samples.
Import file cache.
Local Existing Instances sample.funcs sample.viewfuncs.

Lemma sample_session_live : live (H0 := sample.viewfuncs) sample.session0.
Proof.
  split.
  - apply NoDup_singleton.
  - intros [|i] ov Hi; [|done]. injection Hi as <-.
    exists 0, sample.view0. eexists. done.
Qed.

(** C6, counterexample.  go.mod is modified on disk, and the definition
computed for the folder of the only view differs from the one the view
holds; yet [DidModifyFiles] leaves the session as it was: the view is
neither re-evaluated nor replaced. *)
Lemma DidModifyFiles_gomod_change_keeps_views :
  isGoMod (ViewFuncs := sample.viewfuncs) (URI sample.gomod_changed) = true
  ∧ getViewDefinition (ViewFuncs := sample.viewfuncs)
      (fs sample.session0) (folder sample.view0) = Ok "module"%string
  ∧ viewDefinitionsEqual (ViewFuncs := sample.viewfuncs)
      (view_definition sample.view0) "module"%string = false
  ∧ DidModifyFiles (H := sample.funcs) sample.invalidate
      sample.session0 sample.ctx [sample.gomod_changed]
    = Done (sample.session0, Ok tt).
Proof. repeat split. Qed.

Lemma DidModifyFiles_reevaluates_views_witness :
  ∃ s', reevaluateViews (H0 := sample.viewfuncs) sample.session0
          [sample.gomod_created] = Done s'
        ∧ length (views s') = length (views sample.session0)
        ∧ fs s' = fs sample.session0
        ∧ ∀ i, i < length (views sample.session0) →
               view_outcome sample.session0 s' i.
Proof.
  apply (proj2 (proj2 (proj2 (proj2
    (DidModifyFiles_reevaluates_views (H := sample.funcs) sample.invalidate
       sample.session0 sample.ctx [sample.gomod_created]
       sample_session_live))))).
  reflexivity.
Defined.

(** The session after go.mod is created on disk: the slot of the view
holds a new view with the new definition and the old sequence ID. *)
Example sample_view_recreated :
  ∃ s' : Session,
        reevaluateViews sample.session0 [sample.gomod_created] = Done s'
        ∧ views s' = [Some 1]
        ∧ (view_definition <$> heap s' !! 1) = Some "module"%string
        ∧ (snapshot <$> heap s' !! 0) = Some None
        ∧ ((λ v, sequenceID <$> snapshot v) <$> heap s' !! 1) = Some (Some 3%N).
Proof. eexists. split; [vm_compute; reflexivity|]. repeat split. Qed.

End view_samples.


(** ** Memoized vulnerability scans *)

Section ModVuln_props.
Import file cache.

(** C2, at the failing schedule.  Both callers do their [Get] before
either does its [Set]: both miss, each creates a promise of its own and
stores it, the second [Set] replacing the first; they await different
promises and the scan runs twice. *)
Theorem ModVuln_concurrent_misses_scan_twice :
  ∃ st,
    ModVuln_run [0; 1; 0; 1; 0; 1; 0; 1] sample.fresh_snapshot sample.two_callers
    = Some (st, [("file:///w/go.mod"%string, Returned 0);
                 ("file:///w/go.mod"%string, Returned 1)])
    ∧ scans st = 2
    ∧ modVulnHandles st !! "file:///w/go.mod"%string = Some 1.
Proof. eexists. split; [vm_compute; reflexivity|]. split; reflexivity. Qed.

(** When the second caller starts after the first has stored its
promise, both await that promise and the scan runs once. *)
Example ModVuln_one_after_the_other :
  ∃ st,
    ModVuln_run [0; 0; 0; 1; 1; 0] sample.fresh_snapshot sample.two_callers
    = Some (st, [("file:///w/go.mod"%string, Returned 0);
                 ("file:///w/go.mod"%string, Returned 0)])
    ∧ scans st = 1.
Proof. eexists. split; [vm_compute; reflexivity|]. reflexivity. Qed.

End ModVuln_props.


(* ===================================================================== *)
(** * Further properties of the translated code                          *)
(* ===================================================================== *)

(** ** Metadata filtering, selection errors and invocation flags *)

Section source_more.
Import file source.

Implicit Types (m md : Metadata) (metas : list Metadata)
  (snapshot : Snapshot) (uri : DocumentURI).

(** X1. What [RemoveIntermediateTestVariants] returns holds no
intermediate test variant and is never longer than its argument;
filtering it again changes nothing; and a list is returned as it is
exactly when it holds no intermediate test variant. *)
Theorem RemoveIntermediateTestVariants_idempotent metas :
  Forall (λ m, IsIntermediateTestVariant m = false)
         (RemoveIntermediateTestVariants metas)
  ∧ RemoveIntermediateTestVariants (RemoveIntermediateTestVariants metas)
    = RemoveIntermediateTestVariants metas
  ∧ length (RemoveIntermediateTestVariants metas) ≤ length metas
  ∧ (RemoveIntermediateTestVariants metas = metas ↔
     Forall (λ m, IsIntermediateTestVariant m = false) metas).
Proof.
  rewrite !RemoveIntermediateTestVariants_filter.
  assert (Forall notITV (filter notITV metas)) as Hall.
  { apply list.Forall_forall. by intros m [? _]%list_elem_of_filter. }
  split; [done|]. split; [|split].
  - clear Hall. induction metas as [|m metas IH]; [done|].
    rewrite filter_cons. destruct (decide (notITV m)) as [Hm|Hm]; [|done].
    rewrite filter_cons, decide_True by done. by rewrite IH.
  - apply length_filter.
  - split.
    + intros Heq. by rewrite Heq in Hall.
    + clear Hall. intros Hm. induction Hm as [|m metas Hm _ IH]; [done|].
      rewrite filter_cons, decide_True by done. by rewrite IH.
Qed.

(** X2. [Mode] keeps the ten low bits of the flags: its result lies in
[0, 1024), carries no [AllowNetwork] bit and is a fixed point of [Mode].
Setting the [AllowNetwork] bit does not change the mode and makes
[AllowNetwork()] true; flags that are a bare mode have it false. *)
Theorem InvocationFlags_Mode_AllowNetwork (m : InvocationFlags) :
  (0 ≤ InvocationFlags_Mode m < 1024)%Z
  ∧ InvocationFlags_AllowNetwork (InvocationFlags_Mode m) = false
  ∧ InvocationFlags_Mode (InvocationFlags_Mode m) = InvocationFlags_Mode m
  ∧ InvocationFlags_Mode (Z.lor m AllowNetwork) = InvocationFlags_Mode m
  ∧ InvocationFlags_AllowNetwork (Z.lor m AllowNetwork) = true
  ∧ ((0 ≤ m < 1024)%Z →
     InvocationFlags_Mode m = m ∧ InvocationFlags_AllowNetwork m = false).
Proof.
  unfold InvocationFlags_Mode, InvocationFlags_AllowNetwork, AllowNetwork.
  change (Z.shiftl 1 10 - 1)%Z with (Z.ones 10).
  change (Z.shiftl 1 10) with (2 ^ 10)%Z.
  assert (∀ x, (0 ≤ x < 1024)%Z → Z.land x (2 ^ 10) = 0%Z) as Hbit.
  { intros x Hx. apply Z.bits_inj_iff'. intros n Hn.
    rewrite Z.land_spec, Z.bits_0, Z.pow2_bits_eqb by lia.
    destruct (Z.eqb_spec 10 n) as [<-|?]; [|by rewrite andb_false_r].
    rewrite andb_true_r. apply Z.bits_above_log2; [lia|].
    destruct (decide (x = 0%Z)) as [->|]; [done|].
    apply Z.log2_lt_pow2; lia. }
  assert (0 ≤ Z.land m (Z.ones 10) < 1024)%Z as Hrange.
  { rewrite Z.land_ones by lia. apply Z.mod_pos_bound. lia. }
  split; [done|]. split; [|split; [|split; [|split]]].
  - by rewrite Hbit.
  - by rewrite <- Z.land_assoc, Z.land_diag.
  - rewrite Z.land_lor_distr_l.
    replace (Z.land (2 ^ 10) (Z.ones 10)) with 0%Z by done.
    apply Z.lor_0_r.
  - rewrite Z.land_lor_distr_l, Z.land_diag.
    apply negb_true_iff, Z.eqb_neq. intros Hz.
    apply Z.lor_eq_0_iff in Hz as [_ Hz]. done.
  - intros Hm. split; [|by rewrite Hbit].
    rewrite Z.land_ones by lia. apply Z.mod_small. lia.
Qed.

Lemma InvocationFlags_Mode_AllowNetwork_witness :
  InvocationFlags_Mode LoadWorkspace = LoadWorkspace
  ∧ InvocationFlags_AllowNetwork LoadWorkspace = false.
Proof.
  apply (proj2 (proj2 (proj2 (proj2 (proj2
    (InvocationFlags_Mode_AllowNetwork LoadWorkspace)))))).
  unfold LoadWorkspace. lia.
Defined.

(** X3. The package selections type-check only once a package has been
selected: when [NarrowestMetadataForFile] fails (the metadata query
failed, or every listed package is an intermediate test variant), both
[NarrowestPackageForFile] and [WidestPackageForFile] return an error
after the metadata query alone; when it returns [m],
[NarrowestPackageForFile] makes exactly one type-check request, for the
ID of [m], and [WidestPackageForFile] exactly one request for one ID. *)
Theorem selectPackageForFile_requests_follow_metadata snapshot uri :
  (∀ e, NarrowestMetadataForFile snapshot uri = Err e →
     NarrowestPackageForFile snapshot uri
     = ([CallMetadataForFile uri], Done (Err e))
     ∧ WidestPackageForFile snapshot uri
       = ([CallMetadataForFile uri], Done (Err e))
     ∧ (MetadataForFile snapshot uri = Err e
        ∨ ∃ metas, MetadataForFile snapshot uri = Ok metas
                   ∧ Forall (λ m, IsIntermediateTestVariant m = true) metas
                   ∧ e = ErrNoPackageMetadata uri))
  ∧ (∀ m, NarrowestMetadataForFile snapshot uri = Ok m →
       (NarrowestPackageForFile snapshot uri).1
       = [CallMetadataForFile uri; CallTypeCheck [ID m]]
       ∧ ∃ mw, (WidestPackageForFile snapshot uri).1
               = [CallMetadataForFile uri; CallTypeCheck [ID mw]]).
Proof.
  unfold NarrowestMetadataForFile, NarrowestPackageForFile,
    WidestPackageForFile, selectPackageForFile.
  destruct (MetadataForFile snapshot uri) as [metas|e0] eqn:Hm.
  - destruct (RemoveIntermediateTestVariants metas) as [|m0 rest] eqn:Hr.
    + split; [|done]. intros e [= <-]. repeat split. right.
      exists metas. repeat split.
      apply list.Forall_forall. intros m Hin.
      apply not_false_is_true. intros Hn.
      assert (m ∈ RemoveIntermediateTestVariants metas) as Hc
        by by apply elem_of_RemoveIntermediateTestVariants.
      rewrite Hr in Hc. by apply elem_of_nil in Hc.
    + split; [done|]. intros m [= <-]. split.
      * simpl. destruct (TypeCheck snapshot [ID m0]) as [[|pkg ?]|]; try done.
        by destruct (pkg_File pkg uri).
      * destruct (widest (m0 :: rest)) as [mw|] eqn:Hw; last first.
        { unfold widest in Hw. apply lookup_ge_None in Hw. simpl in Hw. lia. }
        exists mw.
        destruct (TypeCheck snapshot [ID mw]) as [[|pkg ?]|]; try done.
        by destruct (pkg_File pkg uri).
  - split; [|done]. intros e [= <-]. repeat split. by left.
Qed.

Lemma selectPackageForFile_requests_follow_metadata_witness :
  (NarrowestPackageForFile sample.snapshot "file:///w/a/a.go").1
  = [CallMetadataForFile "file:///w/a/a.go"; CallTypeCheck [ID sample.a]]
  ∧ ∃ mw, (WidestPackageForFile sample.snapshot "file:///w/a/a.go").1
          = [CallMetadataForFile "file:///w/a/a.go"; CallTypeCheck [ID mw]].
Proof.
  apply (proj2 (selectPackageForFile_requests_follow_metadata
                  sample.snapshot "file:///w/a/a.go") sample.a).
  vm_compute. reflexivity.
Defined.

End source_more.

(** ** Packages *)

Section package_props.
Import file cache.

Implicit Types (pkg : syntaxPackage) (p : Package) (uri : DocumentURI)
  (files : list source.ParsedGoFile) (ds diags : list source.Diagnostic).

Lemma findFile_Some files uri f :
  findFile files uri = Some f →
  source.pgf_URI f = uri ∧ f ∈ files.
Proof.
  induction files as [|g files IH]; simpl; [done|].
  case_bool_decide as Hg.
  - intros [= ->]. split; [done|left].
  - intros [? ?]%IH. split; [done|by right].
Qed.

Lemma findFile_None files uri :
  findFile files uri = None ↔ ∀ f, f ∈ files → source.pgf_URI f ≠ uri.
Proof.
  induction files as [|g files IH]; simpl.
  - split; [|done]. by intros _ f ?%elem_of_nil.
  - case_bool_decide as Hg.
    + split; [done|]. intros Hall. destruct (Hall g); [left|done].
    + rewrite IH. split.
      * intros Hall f [->|?]%elem_of_cons; auto.
      * intros Hall f ?. apply Hall. by right.
Qed.

(** X4. [syntaxPackage.File] fails exactly when neither the compiled Go
files nor the Go files hold a file with the URI, and the error names the
URI and the package; a file it returns has the URI asked for and comes
from the compiled Go files, or from the Go files when no compiled file
has that URI. *)
Theorem syntaxPackage_File_found pkg uri :
  (∀ f, syntaxPackage_File pkg uri = inr f →
     source.pgf_URI f = uri
     ∧ (f ∈ compiledGoFiles pkg
        ∨ (f ∈ goFiles pkg
           ∧ ∀ g, g ∈ compiledGoFiles pkg → source.pgf_URI g ≠ uri)))
  ∧ (∀ e, syntaxPackage_File pkg uri = inl e →
       e = ErrNoParsedFile uri (sp_id pkg))
  ∧ ((∃ e, syntaxPackage_File pkg uri = inl e) ↔
     ∀ f, f ∈ compiledGoFiles pkg ++ goFiles pkg → source.pgf_URI f ≠ uri).
Proof.
  unfold syntaxPackage_File.
  destruct (findFile (compiledGoFiles pkg) uri) as [cgf|] eqn:Hc.
  - apply findFile_Some in Hc as [Hu Hin]. split; [|split].
    + intros f [= <-]. auto.
    + done.
    + split; [by intros [??]|]. intros Hall. destruct (Hall cgf); [|done].
      apply elem_of_app. by left.
  - destruct (findFile (goFiles pkg) uri) as [gf|] eqn:Hg.
    + apply findFile_Some in Hg as [Hu Hin]. split; [|split].
      * intros f [= <-]. split; [done|]. right. split; [done|].
        by apply findFile_None.
      * done.
      * split; [by intros [??]|]. intros Hall. destruct (Hall gf); [|done].
        apply elem_of_app. by right.
    + split; [done|]. split; [by intros e [= <-]|].
      split; [|eauto]. intros _ f [?|?]%elem_of_app.
      * by apply (proj1 (findFile_None _ _) Hc).
      * by apply (proj1 (findFile_None _ _) Hg).
Qed.

Lemma syntaxPackage_File_found_witness :
  source.pgf_URI {| source.pgf_URI := "file:///w/a/a_test.go" |}
  = "file:///w/a/a_test.go"%string
  ∧ ({| source.pgf_URI := "file:///w/a/a_test.go" |}
       ∈ compiledGoFiles sample.syntax_a
     ∨ ({| source.pgf_URI := "file:///w/a/a_test.go" |}
          ∈ goFiles sample.syntax_a
        ∧ ∀ g, g ∈ compiledGoFiles sample.syntax_a →
               source.pgf_URI g ≠ "file:///w/a/a_test.go"%string)).
Proof.
  apply (proj1 (syntaxPackage_File_found sample.syntax_a
                  "file:///w/a/a_test.go")).
  reflexivity.
Defined.

Lemma appendDiagnostics_filter diags ds uri :
  appendDiagnostics diags ds uri
  = diags ++ filter (λ d, source.d_URI d = uri) ds.
Proof.
  revert diags. induction ds as [|d ds IH]; intros diags; simpl.
  - by rewrite app_nil_r.
  - rewrite filter_cons. case_bool_decide.
    + rewrite decide_True by done. rewrite IH, <- app_assoc. done.
    + rewrite decide_False by done. apply IH.
Qed.

(** X5. [DiagnosticsForFile] returns the diagnostics of the metadata for
the URI followed by those of the syntax package for the URI, each group
in its order; it returns a diagnostic exactly when that diagnostic is for
the URI and is held by the metadata or by the syntax package. *)
Theorem DiagnosticsForFile_filters p uri :
  DiagnosticsForFile p uri
  = filter (λ d, source.d_URI d = uri) (p_m_Diagnostics p)
    ++ filter (λ d, source.d_URI d = uri) (diagnostics (p_pkg p))
  ∧ ∀ d, d ∈ DiagnosticsForFile p uri ↔
         source.d_URI d = uri
         ∧ (d ∈ p_m_Diagnostics p ∨ d ∈ diagnostics (p_pkg p)).
Proof.
  assert (DiagnosticsForFile p uri
          = filter (λ d, source.d_URI d = uri) (p_m_Diagnostics p)
            ++ filter (λ d, source.d_URI d = uri) (diagnostics (p_pkg p)))
    as Heq.
  { unfold DiagnosticsForFile. by rewrite !appendDiagnostics_filter. }
  split; [done|]. intros d.
  rewrite Heq, elem_of_app, !list_elem_of_filter. tauto.
Qed.

End package_props.

(** ** Views of a session: removal, shutdown, lookup *)

Section session_props.
Import file cache.
Context `{FileFuncs, ViewFuncs}.
Variables (contains knownFile : View → DocumentURI → bool).

Implicit Types (s : Session) (view p : ptr) (v : View)
  (slice : list (option ptr)) (uri : DocumentURI).

Lemma removeElement_spec slice (index : nat) :
  (length slice ≤ index → ∃ msg, removeElement slice index = Panic msg)
  ∧ (index < length slice →
     ∃ r, removeElement slice index = Done r
          ∧ length r = length slice - 1
          ∧ r ≡ₚ delete index slice
          ∧ (index < length slice - 1 →
             r !! index = slice !! (length slice - 1))).
Proof.
  unfold removeElement. split.
  - intros Hge. destruct (slice !! (length slice - 1)); [|eauto].
    rewrite decide_False by lia. eauto.
  - intros Hlt. induction slice as [|l init _] using rev_ind;
      [simpl in Hlt; lia|].
    rewrite length_app in *. simpl in *.
    replace (length init + 1 - 1) with (length init) by lia.
    rewrite (lookup_app_r init [l] (length init)) by lia.
    rewrite Nat.sub_diag. simpl.
    rewrite decide_True by done. eexists. split; [done|].
    rewrite take_insert_ge by lia.
    destruct (decide (index = length init)) as [->|Hne].
    + rewrite insert_app_r_alt, Nat.sub_diag by lia. simpl.
      rewrite take_app_length. split; [done|]. split; [|lia].
      rewrite delete_take_drop, take_app_length, drop_app_ge by lia.
      rewrite drop_ge by (simpl; lia). by rewrite app_nil_r.
    + assert (index < length init) as Hi by lia.
      rewrite insert_app_l by done.
      rewrite take_app_ge by (rewrite length_insert; lia).
      rewrite length_insert, Nat.sub_diag, take_0, app_nil_r.
      split; [by rewrite length_insert|]. split.
      * rewrite insert_take_drop by done.
        rewrite delete_take_drop.
        rewrite take_app_le, drop_app_le by lia.
        rewrite <- Permutation_middle, app_assoc.
        by rewrite <- Permutation_cons_append.
      * intros _. by rewrite list_lookup_insert_eq.
Qed.

(** X6. [removeElement] panics exactly when the index is out of range
(in particular on an empty slice); otherwise it returns a slice one
element shorter that holds the other elements, each as often as before:
the element at the index is gone, and the last element has taken its
place. *)
Theorem removeElement_removes slice (index : nat) :
  (length slice ≤ index → ∃ msg, removeElement slice index = Panic msg)
  ∧ (index < length slice →
     ∃ r, removeElement slice index = Done r
          ∧ length r = length slice - 1
          ∧ r ≡ₚ delete index slice
          ∧ (index < length slice - 1 →
             r !! index = slice !! (length slice - 1))).
Proof. apply removeElement_spec. Qed.

Lemma removeElement_removes_witness :
  ∃ r, removeElement [Some 7; Some 8; Some 9] 0 = Done r
       ∧ length r = length [Some 7; Some 8; Some 9] - 1
       ∧ r ≡ₚ delete 0 [Some 7; Some 8; Some 9]
       ∧ (0 < length [Some 7; Some 8; Some 9] - 1 →
          r !! 0 = [Some 7; Some 8; Some 9] !! (length [Some 7; Some 8; Some 9] - 1)).
Proof.
  apply (proj2 (removeElement_removes [Some 7; Some 8; Some 9] 0)).
  simpl. lia.
Defined.

Lemma delete_insert_same {A} (l : list A) i x :
  delete i (<[i := x]> l) = delete i l.
Proof.
  rewrite !delete_take_drop, take_insert_ge, drop_insert_lt by lia. done.
Qed.

Lemma NoDup_delete_lookup {A} (l : list A) i x :
  NoDup l → l !! i = Some x →
  (x ∉ delete i l) ∧ ∀ y, y ≠ x → y ∈ delete i l ↔ y ∈ l.
Proof.
  intros Hnd Hi. rewrite delete_take_drop.
  rewrite <- (take_drop_middle l i x Hi) in Hnd.
  apply NoDup_app in Hnd as (_ & Hdisj & [Hx _]%NoDup_cons).
  split.
  - intros [Hin|Hin]%elem_of_app; [|done].
    apply (Hdisj _ Hin). left.
  - intros y Hy. rewrite <- (take_drop_middle l i x Hi) at 3.
    rewrite !elem_of_app, elem_of_cons. tauto.
Qed.

Lemma dropView_not_found s view :
  Some view ∉ views s → dropView s view = (set_viewMap s ∅, (-1)%Z).
Proof.
  intros Hnot. unfold dropView. simpl.
  assert (list_find (λ x, x = Some view) (views s) = None) as ->; [|done].
  apply list_find_None, list.Forall_forall. by intros x Hx ->.
Qed.

(** X7. [RemoveView] of a view of the session (whose views are distinct)
takes exactly that view out of [s.views], keeping every other view, shuts
it down and empties the map of best views.  For a view that is not in
the session it only empties that map: nothing is removed and the view is
not shut down. *)
Theorem RemoveView_removes s (i : nat) view :
  NoDup (views s) →
  (views s !! i = Some (Some view) →
   ∃ s', RemoveView s view = Done s'
         ∧ length (views s') = length (views s) - 1
         ∧ (Some view ∉ views s')
         ∧ (∀ q, q ≠ view → Some q ∈ views s' ↔ Some q ∈ views s)
         ∧ viewMap s' = ∅
         ∧ heap s' = alter shutdown view (heap s)
         ∧ fs s' = fs s)
  ∧ (Some view ∉ views s → RemoveView s view = Done (set_viewMap s ∅)).
Proof.
  intros Hnd. split.
  - intros Hi. unfold RemoveView. rewrite (dropView_found s i view) by done.
    rewrite decide_False by lia. rewrite Nat2Z.id. simpl.
    assert (i < length (views s)) as Hlt by (by eapply lookup_lt_Some).
    destruct (proj2 (removeElement_spec (<[i := None]> (views s)) i))
      as (r & -> & Hlen & Hperm & _); [by rewrite length_insert|].
    rewrite delete_insert_same in Hperm. rewrite length_insert in Hlen.
    destruct (NoDup_delete_lookup _ _ _ Hnd Hi) as [Hgone Hothers].
    simpl. eexists. split; [done|]. simpl. repeat split; try done.
    + by rewrite Hperm.
    + rewrite Hperm. apply Hothers. congruence.
    + rewrite Hperm. apply Hothers. congruence.
  - intros Hnot. unfold RemoveView.
    rewrite (dropView_not_found s view) by done. done.
Qed.

(** X8. [updateViewLocked] panics, with the message of the source, on a
view that was already shut down.  On a live view that is not among the
views of the session it returns the view-not-found error, having created
no view and only emptied the map of best views.  On the view in slot [i]
of a session with distinct views it succeeds: the slot holds a view that
did not exist before, with the definition and folder it was given, the
sequence ID of the old view and the open files observed; the other slots
are as before. *)
Theorem updateViewLocked_cases s view v (def : viewDefinition) (fld : Folder) :
  heap s !! view = Some v →
  (snapshot v = None →
   updateViewLocked s view def fld
   = Panic "updateView called after View was already shut down")
  ∧ (∀ sn, snapshot v = Some sn → Some view ∉ views s →
       updateViewLocked s view def fld
       = Done (set_viewMap s ∅, Err (ErrViewNotFound (id v))))
  ∧ (∀ sn (i : nat), snapshot v = Some sn → NoDup (views s) →
       views s !! i = Some (Some view) →
       ∃ s' view',
         updateViewLocked s view def fld = Done (s', Ok view')
         ∧ (view' ∉ dom (heap s))
         ∧ length (views s') = length (views s)
         ∧ views s' !! i = Some (Some view')
         ∧ (∀ j, j ≠ i → views s' !! j = views s !! j)
         ∧ heap s' !! view' = Some (recreated_view s def fld sn)
         ∧ heap s' !! view = Some (shutdown v)).
Proof.
  intros Hv. split; [|split].
  - intros Hsn. unfold updateViewLocked. by rewrite Hv, Hsn.
  - intros sn Hsn Hnot. unfold updateViewLocked.
    rewrite Hv, Hsn, (dropView_not_found s view) by done.
    by rewrite decide_True.
  - intros sn i Hsn Hnd Hi.
    destruct (updateViewLocked_ok s i view v sn def fld)
      as (s' & Hrun & Hviews & _ & Hheap); [done..|].
    assert (fresh (dom (heap s)) ∉ dom (heap s)) as Hfresh by apply is_fresh.
    assert (i < length (views s)) as Hlt by (by eapply lookup_lt_Some).
    exists s', (fresh (dom (heap s))). repeat split; try done.
    + by rewrite Hviews, length_insert.
    + rewrite Hviews. by apply list_lookup_insert_eq.
    + intros j Hj. rewrite Hviews. by apply list_lookup_insert_ne.
    + by rewrite Hheap, lookup_insert_eq.
    + rewrite Hheap, lookup_insert_ne, lookup_insert_eq; [done|].
      intros Heq. apply Hfresh. rewrite Heq. apply elem_of_dom. eauto.
Qed.

Lemma shutdown_idemp v : shutdown (shutdown v) = shutdown v.
Proof. done. Qed.

Lemma shutdownAll_spec (h : gmap ptr View) slice :
  allocated_views h slice →
  ∃ h', shutdownAll h slice = Done h'
        ∧ ∀ p, h' !! p
               = (if decide (Some p ∈ slice) then shutdown <$> h !! p
                  else h !! p).
Proof.
  revert h. induction slice as [|ov slice IH]; intros h Hall;
    cbn [shutdownAll].
  - exists h. split; [done|]. intros p. rewrite decide_False; [done|].
    apply not_elem_of_nil.
  - destruct (Hall ov) as (p0 & v0 & -> & Hp0); [left|].
    destruct (IH (alter shutdown p0 h)) as (h' & -> & Hh').
    { intros ov Hov. destruct (Hall ov) as (q & w & -> & Hq); [by right|].
      exists q. destruct (decide (p0 = q)) as [->|].
      - exists (shutdown w). by rewrite lookup_alter_eq, Hq.
      - exists w. by rewrite lookup_alter_ne. }
    exists h'. split; [done|]. intros p. rewrite Hh'.
    destruct (decide (p0 = p)) as [->|Hne].
    + rewrite lookup_alter_eq.
      destruct (decide (Some p ∈ Some p :: slice)) as [_|Hn];
        [|exfalso; apply Hn; left].
      destruct (decide (Some p ∈ slice)); by destruct (h !! p).
    + rewrite lookup_alter_ne by done.
      destruct (decide (Some p ∈ slice)) as [Hin|Hin],
        (decide (Some p ∈ Some p0 :: slice)) as [Hin2|Hin2]; try done.
      * exfalso. apply Hin2. by right.
      * exfalso. apply elem_of_cons in Hin2 as [[= ->]|?]; done.
Qed.

(** X9. [Shutdown] of a session whose views are non-nil leaves it
without views and with an empty map of best views, and shuts down
exactly the views it had.  Afterwards a lookup of the view of any URI
fails with the no-views error, and [updateViewLocked] on a former view
panics. *)
Theorem Shutdown_shuts_every_view s :
  allocated_views (heap s) (views s) →
  ∃ s', Shutdown s = Done s'
        ∧ views s' = [] ∧ viewMap s' = ∅ ∧ fs s' = fs s
        ∧ (∀ p, heap s' !! p
                = (if decide (Some p ∈ views s) then shutdown <$> heap s !! p
                   else heap s !! p))
        ∧ (∀ uri, viewOfLocked contains knownFile s' uri
                  = Done (s', inl ErrNoViewsInSession))
        ∧ (∀ p def fld, Some p ∈ views s →
             updateViewLocked s' p def fld
             = Panic "updateView called after View was already shut down").
Proof.
  intros Hall. unfold Shutdown. simpl.
  destruct (shutdownAll_spec (heap s) (views s) Hall) as (h' & -> & Hh').
  simpl. eexists. split; [done|]. simpl. repeat split; try done.
  intros p def fld Hp. unfold updateViewLocked. simpl.
  rewrite Hh', decide_True by done.
  destruct (Hall _ Hp) as (? & v & [= <-] & ->). done.
Qed.

Lemma longestContaining_spec (h : gmap ptr View) uri slice
    (longest : option ptr) :
  allocated_views h slice →
  (∀ l, longest = Some l → is_Some (h !! l)) →
  ∃ r, longestContaining contains h uri slice longest = Done r
    ∧ (r = longest
       ∨ ∃ p v, r = Some p ∧ Some p ∈ slice ∧ h !! p = Some v
                ∧ contains v uri = true)
    ∧ (∀ l lv, longest = Some l → h !! l = Some lv →
         ∃ p v, r = Some p ∧ h !! p = Some v ∧ dirlen lv ≤ dirlen v)
    ∧ (∀ q w, Some q ∈ slice → h !! q = Some w → contains w uri = true →
         ∃ p v, r = Some p ∧ h !! p = Some v ∧ dirlen w ≤ dirlen v).
Proof.
  revert longest. induction slice as [|ov slice IH]; intros longest Hall Hl;
    cbn [longestContaining].
  - exists longest. split; [done|]. split; [by left|]. split.
    + intros l lv -> Hlv. by exists l, lv.
    + by intros q w ?%elem_of_nil.
  - destruct (Hall ov) as (p0 & v0 & -> & Hp0); [left|].
    assert (allocated_views h slice) as Hall'.
    { intros ov Hov. apply Hall. by right. }
    unfold deref at 1. rewrite Hp0. cbn [exec_bind fst snd].
    (* the three ways the iteration can go on *)
    assert (∀ lg,
      (∀ l, lg = Some l → is_Some (h !! l)) →
      (lg = longest ∨ (lg = Some p0 ∧ contains v0 uri = true)) →
      (∀ l lv, longest = Some l → h !! l = Some lv →
         ∃ l' lv', lg = Some l' ∧ h !! l' = Some lv' ∧ dirlen lv ≤ dirlen lv') →
      (contains v0 uri = true →
         ∃ l' lv', lg = Some l' ∧ h !! l' = Some lv' ∧ dirlen v0 ≤ dirlen lv') →
      ∃ r, longestContaining contains h uri slice lg = Done r
        ∧ (r = longest
           ∨ ∃ p v, r = Some p ∧ Some p ∈ Some p0 :: slice ∧ h !! p = Some v
                    ∧ contains v uri = true)
        ∧ (∀ l lv, longest = Some l → h !! l = Some lv →
             ∃ p v, r = Some p ∧ h !! p = Some v ∧ dirlen lv ≤ dirlen v)
        ∧ (∀ q w, Some q ∈ Some p0 :: slice → h !! q = Some w →
             contains w uri = true →
             ∃ p v, r = Some p ∧ h !! p = Some v ∧ dirlen w ≤ dirlen v))
      as Hcont.
    { intros lg Hlg Hfrom Hge Hhead.
      destruct (IH lg Hall' Hlg) as (r & Hr & Horigin & Hmono & Hmax).
      exists r. split; [done|]. split; [|split].
      - destruct Horigin as [->|(p & v & -> & ? & ? & ?)].
        + destruct Hfrom as [->|[-> ?]]; [by left|].
          right. exists p0, v0. repeat split; [left|done..].
        + right. exists p, v. repeat split; [by right|done..].
      - intros l lv Hlo Hlv.
        destruct (Hge l lv Hlo Hlv) as (l' & lv' & -> & Hl' & Hle).
        destruct (Hmono l' lv' eq_refl Hl') as (p & v & -> & ? & ?).
        exists p, v. repeat split; [done|lia].
      - intros q w [[= ->]|Hq]%elem_of_cons Hw Hc; [|by eapply Hmax].
        assert (w = v0) as -> by congruence.
        destruct (Hhead Hc) as (l' & lv' & -> & Hl' & Hle).
        destruct (Hmono l' lv' eq_refl Hl') as (p & v & -> & ? & ?).
        exists p, v. repeat split; [done|lia]. }
    destruct longest as [l|].
    + destruct (Hl l eq_refl) as [lv Hlv].
      unfold deref. rewrite Hlv. cbn [exec_bind fst snd].
      case_bool_decide as Hshort.
      * apply Hcont; [done|by left| |].
        -- intros l1 lv1 [= <-] Hlv1. exists l, lv1. by repeat split.
        -- intros _. exists l, lv. fold (dirlen v0) (dirlen lv) in Hshort.
           repeat split; [done|lia].
      * fold (dirlen v0) (dirlen lv) in Hshort.
        destruct (contains v0 uri) eqn:Hc.
        -- apply Hcont.
           ++ intros ? [= <-]. eauto.
           ++ by right.
           ++ intros l1 lv1 [= <-] Hlv1. assert (lv1 = lv) as -> by congruence.
              exists p0, v0. repeat split; [done|lia].
           ++ intros _. exists p0, v0. by repeat split.
        -- apply Hcont; [done|by left| |done].
           intros l1 lv1 [= <-] Hlv1. exists l, lv1. by repeat split.
    + cbn [exec_bind]. destruct (contains v0 uri) eqn:Hc.
      * apply Hcont.
        -- intros ? [= <-]. eauto.
        -- by right.
        -- done.
        -- intros _. exists p0, v0. by repeat split.
      * apply Hcont; [done|by left|done|done].
Qed.

Lemma firstKnown_spec (h : gmap ptr View) uri slice :
  allocated_views h slice →
  ∃ r, firstKnown knownFile h uri slice = Done r
    ∧ match r with
      | Some k => Some k ∈ slice
                  ∧ ∃ v, h !! k = Some v ∧ knownFile v uri = true
      | None => ∀ q w, Some q ∈ slice → h !! q = Some w →
                       knownFile w uri = false
      end.
Proof.
  induction slice as [|ov slice IH]; intros Hall; cbn [firstKnown].
  - exists None. split; [done|]. by intros q w ?%elem_of_nil.
  - destruct (Hall ov) as (p0 & v0 & -> & Hp0); [left|].
    unfold deref. rewrite Hp0. cbn [exec_bind fst snd].
    destruct (knownFile v0 uri) eqn:Hk.
    + exists (Some p0). split; [done|]. split; [left|eauto].
    + destruct IH as (r & -> & Hr).
      { intros ov Hov. apply Hall. by right. }
      exists r. split; [done|]. destruct r as [k|].
      * destruct Hr as [? ?]. split; [by right|done].
      * intros q w [[= ->]|?]%elem_of_cons Hw; [congruence|by eapply Hr].
Qed.

Lemma bestViewForURI_spec (h : gmap ptr View) uri slice :
  allocated_views h slice → slice ≠ [] →
  ∃ p v, bestViewForURI contains knownFile h uri slice = Done p
    ∧ Some p ∈ slice ∧ h !! p = Some v
    ∧ (∀ q w, Some q ∈ slice → h !! q = Some w → contains w uri = true →
         contains v uri = true ∧ dirlen w ≤ dirlen v)
    ∧ ((∀ q w, Some q ∈ slice → h !! q = Some w → contains w uri = false) →
       (∀ q w, Some q ∈ slice → h !! q = Some w → knownFile w uri = true →
          knownFile v uri = true)
       ∧ ((∀ q w, Some q ∈ slice → h !! q = Some w →
             knownFile w uri = false) →
          slice !! 0 = Some (Some p))).
Proof.
  intros Hall Hne. unfold bestViewForURI.
  destruct (longestContaining_spec h uri slice None Hall)
    as (r & -> & Horigin & _ & Hmax); [done|].
  cbn [exec_bind]. destruct r as [l|].
  - destruct Horigin as [?|(p & v & [= <-] & Hin & Hv & Hc)]; [done|].
    exists l, v. do 3 (split; [done|]). split.
    + intros q w Hq Hw Hcw.
      destruct (Hmax q w Hq Hw Hcw) as (? & v' & [= <-] & ? & ?).
      assert (v' = v) as -> by congruence. done.
    + intros Hnone. rewrite (Hnone l v) in Hc; done.
  - destruct (firstKnown_spec h uri slice Hall) as (k & -> & Hk).
    cbn [exec_bind].
    assert (∀ q w, Some q ∈ slice → h !! q = Some w → contains w uri = false)
      as Hnone.
    { intros q w Hq Hw. destruct (contains w uri) eqn:Hc; [|done].
      by destruct (Hmax q w Hq Hw Hc) as (? & ? & ? & _). }
    destruct k as [k|].
    + destruct Hk as (Hin & v & Hv & Hkn). exists k, v.
      do 3 (split; [done|]). split.
      * intros q w Hq Hw Hc. rewrite (Hnone q w) in Hc; done.
      * intros _. split; [done|].
        intros Hnk. rewrite (Hnk k v) in Hkn; done.
    + destruct slice as [|ov slice]; [done|].
      destruct (Hall ov) as (p0 & v0 & -> & Hp0); [left|].
      exists p0, v0. split; [done|]. split; [left|]. split; [done|]. split.
      * intros q w Hq Hw Hc. rewrite (Hnone q w) in Hc; done.
      * intros _. split; [|done].
        intros q w Hq Hw Hkn. rewrite (Hk q w) in Hkn; done.
Qed.

(** X10. On a slice of non-nil views [bestViewForURI] panics when the
slice is empty and otherwise returns one of its views.  If some view
contains the URI, the view returned contains it and no view containing
it has a longer folder.  If none contains it, the view returned knows the
file whenever some view does, and is the first view of the slice when
none does. *)
Theorem bestViewForURI_longest_containing (h : gmap ptr View) uri slice :
  allocated_views h slice →
  (slice = [] →
   ∃ msg, bestViewForURI contains knownFile h uri slice = Panic msg)
  ∧ (slice ≠ [] →
     ∃ p v, bestViewForURI contains knownFile h uri slice = Done p
       ∧ Some p ∈ slice ∧ h !! p = Some v
       ∧ (∀ q w, Some q ∈ slice → h !! q = Some w → contains w uri = true →
            contains v uri = true ∧ dirlen w ≤ dirlen v)
       ∧ ((∀ q w, Some q ∈ slice → h !! q = Some w →
             contains w uri = false) →
          (∀ q w, Some q ∈ slice → h !! q = Some w →
             knownFile w uri = true → knownFile v uri = true)
          ∧ ((∀ q w, Some q ∈ slice → h !! q = Some w →
                knownFile w uri = false) →
             slice !! 0 = Some (Some p)))).
Proof.
  intros Hall. split.
  - intros ->. by eexists.
  - by apply bestViewForURI_spec.
Qed.

(** X11. [viewOfLocked] answers from the map of best views when the URI
is in it, without changing the session; otherwise it fails with the
no-views error when the session has no view; otherwise it returns the
best view for the URI, one of the views of the session, and records it,
so that asking again gives the same view and changes nothing. *)
Theorem viewOfLocked_memoizes s uri :
  allocated_views (heap s) (views s) →
  (∀ p, viewMap s !! uri = Some p →
        viewOfLocked contains knownFile s uri = Done (s, inr p))
  ∧ (viewMap s !! uri = None → views s = [] →
     viewOfLocked contains knownFile s uri
     = Done (s, inl ErrNoViewsInSession))
  ∧ (viewMap s !! uri = None → views s ≠ [] →
     ∃ p, bestViewForURI contains knownFile (heap s) uri (views s) = Done p
          ∧ Some p ∈ views s
          ∧ viewOfLocked contains knownFile s uri
            = Done (set_viewMap s (<[uri := p]> (viewMap s)), inr p)
          ∧ viewOfLocked contains knownFile
              (set_viewMap s (<[uri := p]> (viewMap s))) uri
            = Done (set_viewMap s (<[uri := p]> (viewMap s)), inr p)).
Proof.
  intros Hall. unfold viewOfLocked. split; [|split].
  - by intros p ->.
  - by intros -> ->.
  - intros Hmiss Hne.
    destruct (bestViewForURI_spec (heap s) uri (views s) Hall Hne)
      as (p & v & Hbest & Hin & _).
    exists p. rewrite Hmiss, Hbest. cbn [exec_bind].
    rewrite decide_False by (by destruct (views s)).
    repeat split; try done.
    simpl. by rewrite lookup_insert_eq.
Qed.

End session_props.

Section session_samples.
Import file cache.
Local Existing Instances sample.funcs sample.viewfuncs.

Lemma RemoveView_removes_witness :
  ∃ s', RemoveView sample.session0 0 = Done s'
        ∧ length (views s') = length (views sample.session0) - 1
        ∧ (Some 0 ∉ views s')
        ∧ (∀ q, q ≠ 0 → Some q ∈ views s' ↔ Some q ∈ views sample.session0)
        ∧ viewMap s' = ∅
        ∧ heap s' = alter shutdown 0 (heap sample.session0)
        ∧ fs s' = fs sample.session0.
Proof.
  apply (proj1 (RemoveView_removes sample.session0 0 0 (NoDup_singleton _))).
  reflexivity.
Defined.

Lemma updateViewLocked_cases_witness :
  updateViewLocked sample.session1 1 sample.def_module sample.folder_w
  = Done (set_viewMap sample.session1 ∅, Err (ErrViewNotFound 2)).
Proof.
  apply (proj1 (proj2
    (updateViewLocked_cases sample.session1 1 sample.view1
       sample.def_module sample.folder_w eq_refl))
    _ eq_refl).
  apply (bool_decide_unpack _). vm_compute. exact I.
Defined.

Lemma Shutdown_shuts_every_view_witness :
  ∃ s', Shutdown sample.session1 = Done s'
        ∧ views s' = [] ∧ viewMap s' = ∅ ∧ fs s' = fs sample.session1
        ∧ (∀ p, heap s' !! p
                = (if decide (Some p ∈ views sample.session1)
                   then shutdown <$> heap sample.session1 !! p
                   else heap sample.session1 !! p))
        ∧ (∀ uri, viewOfLocked sample.contains sample.knownFile s' uri
                  = Done (s', inl ErrNoViewsInSession))
        ∧ (∀ p def fld, Some p ∈ views sample.session1 →
             updateViewLocked s' p def fld
             = Panic "updateView called after View was already shut down").
Proof.
  apply (Shutdown_shuts_every_view sample.contains sample.knownFile
           sample.session1).
  intros ov Hov. apply list_elem_of_singleton in Hov as ->.
  exists 0, sample.view0. split; reflexivity.
Defined.

Lemma sample_session2_allocated :
  allocated_views (heap sample.session2) (views sample.session2).
Proof.
  intros ov [->|[->|?%elem_of_nil]%elem_of_cons]%elem_of_cons; [| |done].
  - by exists 0, sample.view0.
  - by exists 1, sample.view_a.
Qed.

Lemma bestViewForURI_longest_containing_witness :
  ∃ p v, bestViewForURI sample.contains sample.knownFile
           (heap sample.session2) "file:///w/a/a.go" (views sample.session2)
         = Done p
    ∧ Some p ∈ views sample.session2 ∧ heap sample.session2 !! p = Some v
    ∧ (∀ q w, Some q ∈ views sample.session2 →
         heap sample.session2 !! q = Some w →
         sample.contains w "file:///w/a/a.go" = true →
         sample.contains v "file:///w/a/a.go" = true ∧ dirlen w ≤ dirlen v)
    ∧ ((∀ q w, Some q ∈ views sample.session2 →
          heap sample.session2 !! q = Some w →
          sample.contains w "file:///w/a/a.go" = false) →
       (∀ q w, Some q ∈ views sample.session2 →
          heap sample.session2 !! q = Some w →
          sample.knownFile w "file:///w/a/a.go" = true →
          sample.knownFile v "file:///w/a/a.go" = true)
       ∧ ((∀ q w, Some q ∈ views sample.session2 →
             heap sample.session2 !! q = Some w →
             sample.knownFile w "file:///w/a/a.go" = false) →
          views sample.session2 !! 0 = Some (Some p))).
Proof.
  apply (proj2 (bestViewForURI_longest_containing sample.contains
                  sample.knownFile (heap sample.session2) "file:///w/a/a.go"
                  (views sample.session2) sample_session2_allocated)).
  discriminate.
Defined.

(** The view of the nested module is the best view of a file in it. *)
Example sample_best_view :
  bestViewForURI sample.contains sample.knownFile
    (heap sample.session2) "file:///w/a/a.go" (views sample.session2)
  = Done 1.
Proof. vm_compute. reflexivity. Qed.

Lemma viewOfLocked_memoizes_witness :
  ∃ p, bestViewForURI sample.contains sample.knownFile
         (heap sample.session2) "file:///w/a/a.go" (views sample.session2)
       = Done p
       ∧ Some p ∈ views sample.session2
       ∧ viewOfLocked sample.contains sample.knownFile sample.session2
           "file:///w/a/a.go"
         = Done (set_viewMap sample.session2
                   (<["file:///w/a/a.go"%string := p]>
                      (viewMap sample.session2)), inr p)
       ∧ viewOfLocked sample.contains sample.knownFile
           (set_viewMap sample.session2
              (<["file:///w/a/a.go"%string := p]> (viewMap sample.session2)))
           "file:///w/a/a.go"
         = Done (set_viewMap sample.session2
                   (<["file:///w/a/a.go"%string := p]>
                      (viewMap sample.session2)), inr p).
Proof.
  apply (proj2 (proj2 (viewOfLocked_memoizes sample.contains sample.knownFile
                         sample.session2 "file:///w/a/a.go"
                         sample_session2_allocated))).
  - reflexivity.
  - discriminate.
Defined.

End session_samples.

(** ** Overlays: what a batch can and cannot do *)

Section overlay_more.
Import file cache.
Context `{FileFuncs}.

Implicit Types (ctx : Context) (fs : overlayFS) (c : Modification)
  (changes : list Modification) (o : Overlay) (e : error) (u : DocumentURI).

Ltac crush_body :=
  repeat first
    [ progress simpl in *
    | progress simplify_eq
    | match goal with
      | |- context [match ?x with _ => _ end] => destruct x eqn:?
      | H : context [match ?x with _ => _ end] |- _ => destruct x eqn:?
      end ].

Lemma updateOverlay_frame ctx fs c fs' oe :
  updateOverlay ctx fs c = Done (fs', oe) →
  delegate fs' = delegate fs
  ∧ ∀ u, u ≠ URI c → overlays fs' !! u = overlays fs !! u.
Proof.
  unfold updateOverlay, overlayKind, exec_bind. intros Hrun.
  crush_body; split; try done; intros u Hu; simpl;
    by rewrite ?lookup_insert_ne, ?lookup_delete_ne.
Qed.

(** X12. [updateOverlays] never panics: in every branch that reads a
field of the overlay, the overlay is there.  It always returns, with the
overlay map it has reached and either no error or the first one. *)
Theorem updateOverlays_never_panics ctx fs changes :
  ∃ fs' oe, updateOverlays ctx fs changes = Done (fs', oe).
Proof.
  destruct (updateOverlays_no_panic ctx fs changes) as [[fs' oe] Hr].
  by exists fs', oe.
Qed.

(** X13. Whether it succeeds or fails, [updateOverlays] leaves the
overlay of every URI that the batch does not name as it was, and never
replaces the file source it delegates to. *)
Theorem updateOverlays_frame ctx fs changes fs' oe :
  updateOverlays ctx fs changes = Done (fs', oe) →
  delegate fs' = delegate fs
  ∧ ∀ u, u ∉ URI <$> changes → overlays fs' !! u = overlays fs !! u.
Proof.
  revert fs. induction changes as [|c changes IH]; intros fs; simpl.
  - by intros [= <- _].
  - destruct (updateOverlay ctx fs c) as [[fs1 [e1|]]|] eqn:Hc; simpl; [| |done].
    + intros [= <- _]. destruct (updateOverlay_frame _ _ _ _ _ Hc) as [Hd Hf].
      split; [done|]. intros u Hu. apply Hf. intros ->. apply Hu. left.
    + intros Hrest. destruct (updateOverlay_frame _ _ _ _ _ Hc) as [Hd Hf].
      destruct (IH _ Hrest) as [Hd' Hf']. split; [congruence|].
      intros u Hu. rewrite Hf', Hf; [done| |].
      * intros ->. apply Hu. left.
      * intros Hin. apply Hu. by right.
Qed.

(** X14. A file that has no overlay: a modification of it that comes
from the disk is skipped, whatever its action; one that comes from the
editor and is not an open fails with the unopened-overlay error; in both
cases the overlay map is left as it was. *)
Theorem updateOverlays_unopened ctx fs c :
  overlays fs !! URI c = None →
  (OnDisk c = true → updateOverlays ctx fs [c] = Done (fs, None))
  ∧ (OnDisk c = false → Action_ c ≠ Open →
     updateOverlays ctx fs [c]
     = Done (fs, Some (ErrModifyingUnopenedOverlay (URI c)))).
Proof.
  intros Ho. cbn [updateOverlays]. unfold updateOverlay, overlayKind.
  rewrite Ho. split.
  - intros ->. case_bool_decide as Hs; [by destruct Hs as [??]|done].
  - intros -> Hact. rewrite andb_false_r.
    destruct (Action_ c); done.
Qed.

Lemma updateOverlay_on_disk ctx fs c :
  on_disk_change c →
  ∃ fs', updateOverlay ctx fs c = Done (fs', None)
    ∧ dom (overlays fs') = dom (overlays fs)
    ∧ ∀ u o, overlays fs !! u = Some o →
        ∃ o', overlays fs' !! u = Some o'
              ∧ content o' = content o ∧ version o' = version o
              ∧ kind o' = kind o.
Proof.
  intros (Hdisk & Htext & Hact).
  unfold updateOverlay, overlayKind, exec_bind. rewrite Hdisk, Htext.
  destruct (overlays fs !! URI c) as [o|] eqn:Ho.
  - rewrite (bool_decide_eq_true_2 (is_Some (Some o))) by eauto.
    assert (∀ sv,
      dom (<[URI c := {| uri := URI c; version := version o;
                         content := content o; kind := kind o;
                         hash := HashOf (content o); saved := sv |}]>
             (overlays fs)) = dom (overlays fs)
      ∧ ∀ u o0, overlays fs !! u = Some o0 →
          ∃ o', <[URI c := {| uri := URI c; version := version o;
                              content := content o; kind := kind o;
                              hash := HashOf (content o); saved := sv |}]>
                  (overlays fs) !! u = Some o'
                ∧ content o' = content o0 ∧ version o' = version o0
                ∧ kind o' = kind o0) as Hput.
    { intros sv. split.
      - apply dom_insert_lookup_L. eauto.
      - intros u o0 Hu. destruct (decide (u = URI c)) as [->|Hne].
        + rewrite lookup_insert_eq. eexists. split; [done|].
          assert (o0 = o) as -> by congruence. done.
        + rewrite lookup_insert_ne by done. eauto. }
    repeat (apply elem_of_cons in Hact as [Hact|Hact]);
      [..|by apply elem_of_nil in Hact]; rewrite Hact; simpl;
      rewrite ?orb_true_r; simpl;
      try destruct (h_Content (mustReadFile ctx (delegate fs) (URI c)));
      eexists; (split; [reflexivity|]); simpl; apply Hput.
  - rewrite (bool_decide_eq_false_2 (is_Some None)) by (by intros [??]).
    simpl. exists fs. split; [done|]. split; [done|]. eauto.
Qed.

Lemma updateOverlays_on_disk_spec ctx fs changes :
  Forall on_disk_change changes →
  ∃ fs', updateOverlays ctx fs changes = Done (fs', None)
    ∧ dom (overlays fs') = dom (overlays fs)
    ∧ ∀ u o, overlays fs !! u = Some o →
        ∃ o', overlays fs' !! u = Some o'
              ∧ content o' = content o ∧ version o' = version o
              ∧ kind o' = kind o.
Proof.
  intros Hall. revert fs.
  induction Hall as [|c changes Hc _ IH]; intros fs; simpl.
  - exists fs. split; [done|]. split; [done|]. eauto.
  - destruct (updateOverlay_on_disk ctx fs c Hc) as (fs1 & -> & Hdom & Hkeep).
    simpl. destruct (IH fs1) as (fs' & -> & Hdom' & Hkeep').
    exists fs'. split; [done|]. split; [congruence|].
    intros u o Hu. destruct (Hkeep u o Hu) as (o1 & Hu1 & ? & ? & ?).
    destruct (Hkeep' u o1 Hu1) as (o' & Hu' & ? & ? & ?).
    exists o'. split; [done|]. repeat split; congruence.
Qed.

(** X15. A batch of on-disk modifications without text whose actions are
change, create, delete or unknown, which is what a notification of
watched files produces, never makes [updateOverlays] fail; it leaves the
set of open files as it was, and every overlay keeps its content, its
version and its kind. *)
Theorem updateOverlays_on_disk_batch ctx fs changes :
  Forall on_disk_change changes →
  ∃ fs', updateOverlays ctx fs changes = Done (fs', None)
    ∧ dom (overlays fs') = dom (overlays fs)
    ∧ ∀ u o, overlays fs !! u = Some o →
        ∃ o', overlays fs' !! u = Some o'
              ∧ content o' = content o ∧ version o' = version o
              ∧ kind o' = kind o.
Proof. apply updateOverlays_on_disk_spec. Qed.

(** X16. What the editor writes is what the overlay holds: an open, or a
change of a file that is open, coming from the editor with text, never
fails and stores an overlay with that text, its hash, the version of the
modification, and the kind of the language identifier (open) or the kind
the overlay had (change); the saved flag says whether the file read from
disk has the same hash. *)
Theorem updateOverlays_editor_write ctx fs c t :
  OnDisk c = false → Text c = Some t →
  (Action_ c = Open →
   updateOverlays ctx fs [c]
   = Done (set_overlays fs
             (<[URI c := {| uri := URI c; content := t; hash := HashOf t;
                            version := Version c;
                            kind := KindForLang (LanguageID c);
                            saved := sameOnDisk ctx fs (URI c) (HashOf t) |}]>
                (overlays fs)), None))
  ∧ (∀ o, Action_ c = Change → overlays fs !! URI c = Some o →
       updateOverlays ctx fs [c]
       = Done (set_overlays fs
                 (<[URI c := {| uri := URI c; content := t; hash := HashOf t;
                                version := Version c; kind := kind o;
                                saved := sameOnDisk ctx fs (URI c) (HashOf t) |}]>
                    (overlays fs)), None)).
Proof.
  intros Hdisk Htext. split.
  - intros Hact. simpl. unfold updateOverlay, overlayKind, sameOnDisk.
    rewrite Hdisk, Htext, Hact, andb_false_r. simpl.
    by destruct (h_Content (mustReadFile ctx (delegate fs) (URI c))).
  - intros o Hact Ho. simpl. unfold updateOverlay, overlayKind, sameOnDisk.
    rewrite Hdisk, Htext, Hact, Ho, andb_false_r. simpl.
    by destruct (h_Content (mustReadFile ctx (delegate fs) (URI c))).
Qed.

(** X17. Closing an open file deletes its overlay, whether the close
comes from the editor or from the disk; and opening a file that was not
open and then closing it, in one batch, gives back the overlay map as it
was. *)
Theorem updateOverlays_open_close ctx fs c1 c2 :
  Action_ c2 = Close →
  (is_Some (overlays fs !! URI c2) →
   updateOverlays ctx fs [c2]
   = Done (set_overlays fs (delete (URI c2) (overlays fs)), None))
  ∧ (Action_ c1 = Open → OnDisk c1 = false → URI c1 = URI c2 →
     overlays fs !! URI c1 = None →
     updateOverlays ctx fs [c1; c2] = Done (fs, None)).
Proof.
  intros Hclose. split.
  - intros [o Ho]. cbn [updateOverlays]. unfold updateOverlay, overlayKind.
    rewrite Ho, Hclose.
    case_bool_decide as Hs; [|destruct Hs; eauto]. done.
  - intros Hopen Hdisk Huri Ho. cbn [updateOverlays].
    unfold updateOverlay at 1. unfold overlayKind.
    rewrite Hdisk, Hopen, andb_false_r. simpl.
    assert (∀ o1,
      (r ←! updateOverlay ctx
              (set_overlays fs (<[URI c1 := o1]> (overlays fs))) c2;
       match r.2 with
       | Some e0 => Done (r.1, Some e0)
       | None => Done (r.1, None)
       end) = Done (fs, None)) as Hsecond.
    { intros o1. unfold updateOverlay, overlayKind.
      cbn [overlays set_overlays].
      rewrite <- Huri, lookup_insert_eq, Hclose.
      case_bool_decide as Hs; [|destruct Hs; eauto]. simpl.
      rewrite delete_insert_eq, delete_id by done. by destruct fs. }
    destruct (Text c1);
      destruct (h_Content (mustReadFile ctx (delegate fs) (URI c1)));
      simpl; apply Hsecond.
Qed.

(** X18. Stores in which every overlay sits under its own URI and
carries the hash of its content stay so: whatever the batch, and whether
[updateOverlays] succeeds or fails, the map it leaves has that property.
The empty map has it. *)
Theorem updateOverlays_keeps_hashes ctx fs changes fs' oe :
  consistent (overlays fs) →
  updateOverlays ctx fs changes = Done (fs', oe) →
  consistent ∅ ∧ consistent (overlays fs').
Proof.
  intros Hc Hrun. split; [by intros u o ?|].
  by eapply updateOverlays_consistent.
Qed.

End overlay_more.

Section overlay_more_samples.
Import file cache.
Local Existing Instance sample.funcs.

Lemma updateOverlays_frame_witness :
  delegate (set_overlays sample.fs0
              {[ "file:///w/a/a.go"%string :=
                   {| uri := "file:///w/a/a.go"; content := bytes "package a";
                      hash := bytes "package a"; version := 1;
                      kind := KindSource; saved := true |} ]})
  = delegate sample.fs0
  ∧ ∀ u, u ∉ URI <$> [sample.open_a; sample.change_b] →
         overlays (set_overlays sample.fs0
                     {[ "file:///w/a/a.go"%string :=
                          {| uri := "file:///w/a/a.go";
                             content := bytes "package a";
                             hash := bytes "package a"; version := 1;
                             kind := KindSource; saved := true |} ]}) !! u
         = overlays sample.fs0 !! u.
Proof.
  apply (updateOverlays_frame sample.ctx sample.fs0
           [sample.open_a; sample.change_b] _
           (Some (ErrModifyingUnopenedOverlay "file:///w/b/b.go"))).
  vm_compute. reflexivity.
Defined.

Lemma updateOverlays_unopened_witness :
  updateOverlays sample.ctx sample.fs0 [sample.change_b]
  = Done (sample.fs0, Some (ErrModifyingUnopenedOverlay (URI sample.change_b))).
Proof.
  apply (proj2 (updateOverlays_unopened sample.ctx sample.fs0 sample.change_b
                  eq_refl)).
  - reflexivity.
  - discriminate.
Defined.

Lemma sample_a_on_disk : on_disk_change sample.a_on_disk.
Proof.
  repeat split. apply (bool_decide_unpack _). vm_compute. exact I.
Qed.

Lemma updateOverlays_on_disk_batch_witness :
  ∃ fs', updateOverlays sample.ctx sample.fs1 [sample.a_on_disk]
         = Done (fs', None)
    ∧ dom (overlays fs') = dom (overlays sample.fs1)
    ∧ ∀ u o, overlays sample.fs1 !! u = Some o →
        ∃ o', overlays fs' !! u = Some o'
              ∧ content o' = content o ∧ version o' = version o
              ∧ kind o' = kind o.
Proof.
  apply (updateOverlays_on_disk_batch sample.ctx sample.fs1
           [sample.a_on_disk]).
  constructor; [exact sample_a_on_disk|constructor].
Defined.

Lemma updateOverlays_editor_write_witness :
  updateOverlays sample.ctx sample.fs0 [sample.open_a]
  = Done (set_overlays sample.fs0
            (<[URI sample.open_a :=
                 {| uri := URI sample.open_a; content := bytes "package a";
                    hash := HashOf (bytes "package a");
                    version := Version sample.open_a;
                    kind := KindForLang (LanguageID sample.open_a);
                    saved := sameOnDisk sample.ctx sample.fs0
                               (URI sample.open_a)
                               (HashOf (bytes "package a")) |}]>
               (overlays sample.fs0)), None).
Proof.
  apply (proj1 (updateOverlays_editor_write sample.ctx sample.fs0 sample.open_a
                  (bytes "package a") eq_refl eq_refl)).
  reflexivity.
Defined.

Lemma updateOverlays_open_close_witness :
  updateOverlays sample.ctx sample.fs0 [sample.open_a; sample.close_a]
  = Done (sample.fs0, None).
Proof.
  apply (proj2 (updateOverlays_open_close sample.ctx sample.fs0
                  sample.open_a sample.close_a eq_refl));
    reflexivity.
Defined.

Lemma updateOverlays_keeps_hashes_witness :
  consistent ∅
  ∧ consistent
      (overlays (set_overlays sample.fs0
         {[ "file:///w/a/a.go"%string :=
              {| uri := "file:///w/a/a.go"; content := bytes "package a";
                 hash := bytes "package a"; version := 1;
                 kind := KindSource; saved := true |} ]})).
Proof.
  apply (updateOverlays_keeps_hashes sample.ctx sample.fs0 [sample.open_a]
           _ None).
  - intros u o Hu. vm_compute in Hu. discriminate.
  - vm_compute. reflexivity.
Defined.

End overlay_more_samples.

(** ** Notifications and incremental edits *)

Section notification_props.
Import file protocol cache lsp.
Context `{FileFuncs, ProtocolFuncs, ServerFuncs}.

Implicit Types (s : server) (ctx : Context) (uri : DocumentURI)
  (fs : overlayFS) (content : list byte)
  (c : TextDocumentContentChangeEvent)
  (changes : list TextDocumentContentChangeEvent).

(** X19. [ModificationSource.String] tells all ten sources apart, and the
only one it calls an unknown file modification is
[FromDidChangeConfiguration], for which its switch has no case; the
title of the diagnostic work is "diagnosing " followed by that string,
so the titles differ whenever the causes do. *)
Theorem ModificationSource_String_cases (a b : ModificationSource) :
  (ModificationSource_String a = ModificationSource_String b → a = b)
  ∧ (ModificationSource_String a = "unknown file modification"%string ↔
     a = FromDidChangeConfiguration)
  ∧ (DiagnosticWorkTitle a = DiagnosticWorkTitle b → a = b).
Proof.
  assert (ModificationSource_String a = ModificationSource_String b → a = b)
    as Hinj by (destruct a, b; (reflexivity || discriminate)).
  split; [done|]. split.
  - split; [|by intros ->]. by destruct a.
  - unfold DiagnosticWorkTitle. intros Heq. apply Hinj.
    by simplify_eq/=.
Qed.

Lemma ModificationSource_String_cases_witness :
  FromDidChangeConfiguration = FromDidChangeConfiguration.
Proof.
  apply (proj1 (proj1 (proj2 (ModificationSource_String_cases
                                FromDidChangeConfiguration FromDidSave)))).
  reflexivity.
Defined.

Lemma watchedModifications_on_disk (events : list FileEvent) :
  Forall (λ m, on_disk_change m ∧ IsFile (URI m) = true)
         (watchedModifications events).
Proof.
  induction events as [|ev events IH]; simpl; [constructor|].
  destruct (IsFile (fe_URI ev)) eqn:Hf; simpl; [|done].
  constructor; [|done]. simpl. repeat split; [|done].
  unfold changeTypeToFileAction. repeat case_decide; set_solver.
Qed.

(** X20. The batch that [DidChangeWatchedFiles] hands on holds, in the
order of the events, one modification for each event on a file URI and
none for the others; each is on disk, carries no text and has the action
change, create, delete or unknown.  Applied to any overlays,
[updateOverlays] therefore succeeds on it, and no overlay is opened or
closed or has its content, version or kind changed. *)
Theorem DidChangeWatchedFiles_batch s ctx (events : list FileEvent) :
  DidChangeWatchedFiles s ctx events
  = didModifyFiles s ctx (watchedModifications events)
      FromDidChangeWatchedFiles
  ∧ URI <$> watchedModifications events
    = filter (λ u, IsFile u = true) (fe_URI <$> events)
  ∧ Forall (λ m, on_disk_change m ∧ IsFile (URI m) = true)
           (watchedModifications events)
  ∧ ∀ fs, ∃ fs',
      updateOverlays ctx fs (watchedModifications events) = Done (fs', None)
      ∧ dom (overlays fs') = dom (overlays fs)
      ∧ ∀ u o, overlays fs !! u = Some o →
          ∃ o', overlays fs' !! u = Some o'
                ∧ content o' = content o ∧ version o' = version o
                ∧ kind o' = kind o.
Proof.
  split; [done|]. split; [|split].
  - induction events as [|ev events IH]; [done|].
    cbn [watchedModifications]. rewrite fmap_cons, filter_cons.
    case_decide as Hf.
    + rewrite Hf. cbn [negb]. rewrite fmap_cons. by rewrite IH.
    + apply not_true_is_false in Hf. by rewrite Hf.
  - apply watchedModifications_on_disk.
  - intros fs. apply updateOverlays_on_disk_spec.
    eapply Forall_impl; [apply watchedModifications_on_disk|].
    by intros m [? _].
Qed.

(** X21. [DidSave] and [DidClose] ignore a URI that is not a file: they
return no error and leave the server as it is.  For a file they hand on a
single editor modification, a save carrying the text if there is one, or
a close with version -1 and no text; applied to overlays in which the
file is not open, either fails with the unopened-overlay error; the close
of an open file deletes its overlay. *)
Theorem DidSave_DidClose_modifications s ctx uri (text : option string) :
  (IsFile uri = false →
   DidSave s ctx uri text = Done (s, None)
   ∧ DidClose s ctx uri = Done (s, None))
  ∧ (IsFile uri = true →
     ∃ csave cclose,
       DidSave s ctx uri text = didModifyFiles s ctx [csave] FromDidSave
       ∧ DidClose s ctx uri = didModifyFiles s ctx [cclose] FromDidClose
       ∧ csave = {| URI := uri; Action_ := Save; OnDisk := false;
                    Version := 0; Text := bytes <$> text; LanguageID := "" |}
       ∧ cclose = {| URI := uri; Action_ := Close; OnDisk := false;
                     Version := (-1); Text := None; LanguageID := "" |}
       ∧ (∀ fs, overlays fs !! uri = None →
            updateOverlays ctx fs [csave]
            = Done (fs, Some (ErrModifyingUnopenedOverlay uri))
            ∧ updateOverlays ctx fs [cclose]
              = Done (fs, Some (ErrModifyingUnopenedOverlay uri)))
       ∧ (∀ fs, is_Some (overlays fs !! uri) →
            updateOverlays ctx fs [cclose]
            = Done (set_overlays fs (delete uri (overlays fs)), None))).
Proof.
  unfold DidSave, DidClose. split.
  - by intros ->.
  - intros ->. eexists _, _. do 4 (split; [reflexivity|]). split.
    + intros fs Ho. cbn [updateOverlays]. unfold updateOverlay, overlayKind.
      cbn [URI Action_ OnDisk]. rewrite Ho, andb_false_r. done.
    + intros fs [o Ho]. cbn [updateOverlays]. unfold updateOverlay, overlayKind.
      cbn [URI Action_ OnDisk]. rewrite Ho, andb_false_r. done.
Qed.

Lemma applyChanges_total content changes :
  in_bounds → ∃ r, applyChanges content changes = Done r.
Proof.
  intros Hb. revert content.
  induction changes as [|c changes IH]; intros content; simpl; [eauto|].
  destruct (ce_Range c) as [rng|]; [|eauto].
  destruct (RangeOffsets content rng) as [[start end_]|] eqn:Hr; [|eauto].
  case_decide; [eauto|].
  rewrite decide_True by (by eapply Hb). apply IH.
Qed.

(** X22. With a mapper that keeps the end of every range it maps inside
the content, applying incremental changes never panics: [applyChanges],
[applyIncrementalChanges] and [changedText] always return, with the new
content or with an error. *)
Theorem changedText_never_panics s ctx uri content changes :
  in_bounds →
  (∃ r, applyChanges content changes = Done r)
  ∧ (∃ r, applyIncrementalChanges s ctx uri changes = Done r)
  ∧ (∃ r, changedText s ctx uri changes = Done r).
Proof.
  intros Hb.
  assert (∃ r, applyIncrementalChanges s ctx uri changes = Done r) as Hinc.
  { unfold applyIncrementalChanges.
    destruct (ReadFile (session s) ctx uri) as [fh|]; [|eauto].
    destruct (h_Content fh); [|eauto]. by apply applyChanges_total. }
  split; [by apply applyChanges_total|]. split; [done|].
  unfold changedText. destruct changes as [|c0 rest]; [eauto|].
  destruct (_ && _); [eauto|done].
Qed.

(** X23. A change whose range maps to offsets [start ≤ end] inside the
content replaces exactly the bytes from [start] to [end] by its text: the
bytes before [start] and the bytes from [end] on are kept, the length
changes by the length of the text minus [end - start], and a change that
writes the bytes that were already there gives back the content. *)
Theorem applyChanges_replaces_range content c rng (start end_ : nat) :
  ce_Range c = Some rng →
  RangeOffsets content rng = Ok (start, end_) →
  start ≤ end_ → end_ ≤ length content →
  ∃ r, applyChanges content [c] = Done (Ok r)
    ∧ take start r = take start content
    ∧ drop (start + length (bytes (ce_Text c))) r = drop end_ content
    ∧ length r + (end_ - start)
      = length content + length (bytes (ce_Text c))
    ∧ (bytes (ce_Text c) = take (end_ - start) (drop start content) →
       r = content).
Proof.
  intros Hrng Hoff Hle Hend. simpl. rewrite Hrng, Hoff.
  rewrite decide_False, decide_True by lia. eexists. split; [done|].
  assert (length (take start content) = start) as Htake
    by (rewrite length_take; lia).
  split; [|split; [|split]].
  - rewrite take_app_le by lia. rewrite take_take. f_equal. lia.
  - rewrite drop_app_ge by lia. rewrite Htake.
    rewrite drop_app_ge by lia.
    replace (start + length (bytes (ce_Text c)) - start
             - length (bytes (ce_Text c))) with 0 by lia.
    done.
  - rewrite !length_app, Htake, length_drop. lia.
  - intros ->.
    transitivity (take start content ++ drop start content);
      [|apply take_drop].
    f_equal.
    transitivity (take (end_ - start) (drop start content)
                  ++ drop (end_ - start) (drop start content));
      [|apply take_drop].
    f_equal. rewrite drop_drop. f_equal. lia.
Qed.

End notification_props.

Section notification_samples.
Import file protocol cache lsp.
Local Existing Instances sample.funcs sample.proto sample.srv.

Lemma DidSave_DidClose_modifications_witness :
  DidSave sample.server1 sample.ctx "untitled:Untitled-1" None
  = Done (sample.server1, None)
  ∧ DidClose sample.server1 sample.ctx "untitled:Untitled-1"
    = Done (sample.server1, None).
Proof.
  apply (proj1 (DidSave_DidClose_modifications sample.server1 sample.ctx
                  "untitled:Untitled-1" None)).
  reflexivity.
Defined.

Lemma sample_in_bounds : in_bounds.
Proof.
  intros content rng start end_. simpl. unfold sample.rangeOffsets, sample.offset.
  repeat case_decide; intros; simplify_eq; lia.
Qed.

Lemma changedText_never_panics_witness :
  (∃ r, applyChanges (bytes "package a") [sample.inverted] = Done r)
  ∧ (∃ r, applyIncrementalChanges sample.server1 sample.ctx
            "file:///w/a/a.go" [sample.inverted] = Done r)
  ∧ (∃ r, changedText sample.server1 sample.ctx "file:///w/a/a.go"
            [sample.inverted] = Done r).
Proof.
  apply (changedText_never_panics sample.server1 sample.ctx
           "file:///w/a/a.go" (bytes "package a") [sample.inverted]
           sample_in_bounds).
Defined.

Lemma applyChanges_replaces_range_witness :
  ∃ r, applyChanges (bytes "package a") [sample.rename] = Done (Ok r)
    ∧ take 8 r = take 8 (bytes "package a")
    ∧ drop (8 + length (bytes (ce_Text sample.rename))) r
      = drop 9 (bytes "package a")
    ∧ length r + (9 - 8)
      = length (bytes "package a") + length (bytes (ce_Text sample.rename))
    ∧ (bytes (ce_Text sample.rename)
       = take (9 - 8) (drop 8 (bytes "package a")) →
       r = bytes "package a").
Proof.
  apply (applyChanges_replaces_range (bytes "package a") sample.rename
           _ 8 9 eq_refl).
  - vm_compute. reflexivity.
  - lia.
  - vm_compute. lia.
Defined.

(** Renaming package [a] to [main] by one incremental change. *)
Example sample_rename :
  applyChanges (bytes "package a") [sample.rename]
  = Done (Ok (bytes "package main")).
Proof. vm_compute. reflexivity. Qed.

End notification_samples.

(** ** Vulnerability scans, one call after the other *)

Section ModVuln_more.
Import file cache.

Implicit Types (st : ModVulnState) (modURI : DocumentURI).

(** A step of the only caller in flight. *)
Lemma ModVuln_run_alone schedule st modURI pc :
  ModVuln_run (0 :: schedule) st [(modURI, pc)]
  = match ModVuln_step modURI st pc with
    | None => None
    | Some (st, pc) => ModVuln_run schedule st [(modURI, pc)]
    end.
Proof. reflexivity. Qed.

(** X24. A call of [ModVuln] that runs alone on a snapshot holding no
handle for the go.mod file creates a promise that did not exist, stores
it under the file, and runs the scan once.  A call that starts after it
has returned finds that promise, returns its result, and changes nothing:
no promise is created, the map is not written and no scan runs. *)
Theorem ModVuln_sequential_calls st modURI :
  modVulnHandles st !! modURI = None →
  ∃ st1 handle,
    ModVuln_run [0; 0; 0; 0] st [(modURI, AtGet)]
    = Some (st1, [(modURI, Returned handle)])
    ∧ (handle ∉ dom (allocated st))
    ∧ modVulnHandles st1 = <[modURI := handle]> (modVulnHandles st)
    ∧ allocated st1 = <[handle := true]> (allocated st)
    ∧ scans st1 = S (scans st)
    ∧ ModVuln_run [0; 0] st1 [(modURI, AtGet)]
      = Some (st1, [(modURI, Returned handle)]).
Proof.
  intros Hmiss.
  set (handle := fresh (dom (allocated st))).
  exists {| modVulnHandles := <[modURI := handle]> (modVulnHandles st);
            allocated := <[handle := true]> (allocated st);
            scans := S (scans st) |}, handle.
  assert (handle ∉ dom (allocated st)) as Hfresh by apply is_fresh.
  split; [|do 4 (split; [done|])].
  - rewrite ModVuln_run_alone. unfold ModVuln_step at 1. rewrite Hmiss.
    rewrite ModVuln_run_alone. unfold ModVuln_step at 1. fold handle.
    rewrite ModVuln_run_alone. unfold ModVuln_step at 1.
    rewrite ModVuln_run_alone. unfold ModVuln_step at 1.
    cbn [modVulnHandles allocated scans]. unfold promises.
    rewrite lookup_insert_eq, insert_insert_eq. done.
  - rewrite ModVuln_run_alone. unfold ModVuln_step at 1.
    cbn [modVulnHandles allocated scans]. rewrite lookup_insert_eq.
    rewrite ModVuln_run_alone. unfold ModVuln_step at 1.
    cbn [modVulnHandles allocated scans]. unfold promises.
    rewrite lookup_insert_eq. done.
Qed.

Lemma ModVuln_sequential_calls_witness :
  ∃ st1 handle,
    ModVuln_run [0; 0; 0; 0] sample.fresh_snapshot
      [("file:///w/go.mod"%string, AtGet)]
    = Some (st1, [("file:///w/go.mod"%string, Returned handle)])
    ∧ (handle ∉ dom (allocated sample.fresh_snapshot))
    ∧ modVulnHandles st1
      = <["file:///w/go.mod"%string := handle]>
          (modVulnHandles sample.fresh_snapshot)
    ∧ allocated st1 = <[handle := true]> (allocated sample.fresh_snapshot)
    ∧ scans st1 = S (scans sample.fresh_snapshot)
    ∧ ModVuln_run [0; 0] st1 [("file:///w/go.mod"%string, AtGet)]
      = Some (st1, [("file:///w/go.mod"%string, Returned handle)]).
Proof.
  apply (ModVuln_sequential_calls sample.fresh_snapshot "file:///w/go.mod").
  reflexivity.
Defined.

End ModVuln_more.

(** ** Resetting a view and expanding directory changes *)

Section session_more.
Import file cache.
Context `{FileFuncs, ViewFuncs}.
Variables (contains knownFile : View → DocumentURI → bool).
Variable filesInDir : Snapshot → DocumentURI → list DocumentURI.
Variable rangeOver : gset DocumentURI → list DocumentURI.

Implicit Types (s : Session) (uri : DocumentURI) (c m : Modification)
  (changes : list Modification) (snapshots : list Snapshot).

(** X25. [ResetView] on a session without views panics on [views[0]].
On a session whose views are distinct and allocated it picks the best
view for the URI; if that view was shut down it panics with the message
of [updateViewLocked], and otherwise the slot of that view holds a view
that did not exist before, with the folder and the definition of the old
one, which is shut down. *)
Theorem ResetView_cases s uri :
  (views s = [] →
   ResetView contains knownFile s uri = Panic "index out of range")
  ∧ (allocated_views (heap s) (views s) → NoDup (views s) →
     views s ≠ [] →
     ∃ view v (i : nat),
       bestViewForURI contains knownFile (heap s) uri (views s) = Done view
       ∧ views s !! i = Some (Some view)
       ∧ heap s !! view = Some v
       ∧ (snapshot v = None →
          ResetView contains knownFile s uri
          = Panic "updateView called after View was already shut down")
       ∧ (∀ sn, snapshot v = Some sn →
            ∃ s' view',
              ResetView contains knownFile s uri = Done (s', Ok view')
              ∧ (view' ∉ dom (heap s))
              ∧ views s' = <[i := Some view']> (views s)
              ∧ heap s' !! view'
                = Some (recreated_view s (view_definition v) (folder v) sn)
              ∧ heap s' !! view = Some (shutdown v))).
Proof.
  split.
  - intros Hnil. unfold ResetView. by rewrite Hnil.
  - intros Hall Hnd Hne.
    destruct (bestViewForURI_spec contains knownFile (heap s) uri (views s)
                Hall Hne) as (view & v & Hbest & Hin & Hv & _).
    apply list_elem_of_lookup in Hin as [i Hi].
    exists view, v, i. do 3 (split; [done|]).
    unfold ResetView. rewrite Hbest. cbn [exec_bind deref]. rewrite Hv.
    cbn [exec_bind fst snd]. split.
    + intros Hsn. unfold updateViewLocked. by rewrite Hv, Hsn.
    + intros sn Hsn.
      destruct (updateViewLocked_ok s i view v sn (view_definition v)
                  (folder v)) as (s' & Hrun & Hviews & _ & Hheap);
        [done..|].
      assert (fresh (dom (heap s)) ∉ dom (heap s)) as Hfresh
        by apply is_fresh.
      exists s', (fresh (dom (heap s))). do 3 (split; [done|]).
      rewrite Hheap. split; [by rewrite lookup_insert_eq|].
      rewrite lookup_insert_ne, lookup_insert_eq; [done|].
      intros Heq. apply Hfresh. rewrite Heq. apply elem_of_dom. eauto.
Qed.

Lemma liveSnapshots_spec (h : gmap ptr View) slice :
  allocated_views h slice →
  ∃ snapshots, liveSnapshots h slice = Done snapshots
    ∧ ∀ sn, sn ∈ snapshots ↔
        ∃ p v, Some p ∈ slice ∧ h !! p = Some v ∧ snapshot v = Some sn.
Proof.
  induction slice as [|ov slice IH]; intros Hall; cbn [liveSnapshots].
  - exists []. split; [done|]. intros sn. split.
    + by intros ?%elem_of_nil.
    + by intros (p & v & ?%elem_of_nil & _).
  - destruct (Hall ov) as (p0 & v0 & -> & Hp0); [left|].
    destruct IH as (rest & -> & Hrest).
    { intros ov Hov. apply Hall. by right. }
    cbn [deref]. rewrite Hp0. cbn [exec_bind fst snd].
    destruct (snapshot v0) as [sn0|] eqn:Hsn0.
    + exists (sn0 :: rest). split; [done|]. intros sn.
      rewrite elem_of_cons, Hrest. split.
      * intros [->|(p & v & Hin & Hv & Hsn)].
        -- exists p0, v0. split; [left|done].
        -- exists p, v. split; [by right|done].
      * intros (p & v & Hin & Hv & Hsn).
        apply elem_of_cons in Hin as [[= ->]|Hin].
        -- left. congruence.
        -- right. eauto.
    + exists rest. split; [done|]. intros sn. rewrite Hrest. split.
      * intros (p & v & Hin & Hv & Hsn). exists p, v. split; [by right|done].
      * intros (p & v & Hin & Hv & Hsn).
        apply elem_of_cons in Hin as [[= ->]|Hin]; [congruence|eauto].
Qed.

Lemma elem_of_expanded snapshots c uri :
  uri ∈ expanded filesInDir snapshots c
  ↔ ∃ sn, sn ∈ snapshots ∧ uri ∈ filesInDir sn (URI c).
Proof.
  unfold expanded. rewrite elem_of_union_list. split.
  - intros (X & (sn & -> & Hsn)%list_elem_of_fmap & Hin).
    exists sn. split; [done|]. by apply elem_of_list_to_set in Hin.
  - intros (sn & Hsn & Hin). exists (list_to_set (filesInDir sn (URI c))).
    split; [|by apply elem_of_list_to_set].
    apply list_elem_of_fmap. eauto.
Qed.

Lemma expanded_empty snapshots c :
  size (expanded filesInDir snapshots c) = 0
  ↔ ∀ sn, sn ∈ snapshots → filesInDir sn (URI c) = [].
Proof.
  rewrite size_empty_iff. split.
  - intros Hempty sn Hsn.
    destruct (filesInDir sn (URI c)) as [|u us] eqn:Hfiles; [done|].
    exfalso. apply (not_elem_of_empty (C:=gset DocumentURI) u).
    rewrite <- Hempty. apply elem_of_expanded.
    exists sn. split; [done|]. rewrite Hfiles. left.
  - intros Hnone u. split; [|by intros ?%not_elem_of_empty].
    intros (sn & Hsn & Hin)%elem_of_expanded.
    rewrite (Hnone sn Hsn) in Hin. by apply elem_of_nil in Hin.
Qed.

Lemma elem_of_expandChange snapshots c m :
  (∀ X, rangeOver X ≡ₚ elements X) →
  m ∈ expandChange filesInDir rangeOver snapshots c
  ↔ (m = c ∧ ∀ sn, sn ∈ snapshots → filesInDir sn (URI c) = [])
    ∨ ((∃ sn, sn ∈ snapshots ∧ URI m ∈ filesInDir sn (URI c))
       ∧ m = {| URI := URI m; Action_ := Action_ c; OnDisk := OnDisk c;
                Version := 0; Text := None; LanguageID := "" |}).
Proof.
  intros Hperm. unfold expandChange. case_decide as Hsize.
  - rewrite list_elem_of_singleton. split.
    + intros ->. left. split; [done|]. by apply expanded_empty.
    + intros [[-> _]|[(sn & Hsn & Hin) _]]; [done|].
      pose proof (proj1 (expanded_empty snapshots c) Hsize) as Hnone.
      rewrite (Hnone sn Hsn) in Hin. by apply elem_of_nil in Hin.
  - rewrite list_elem_of_fmap. split.
    + intros (u & -> & Hu). right. split; [|done]. cbn [URI].
      rewrite Hperm in Hu. apply elem_of_elements in Hu.
      by apply elem_of_expanded.
    + intros [[_ Hnone]|[Hin Hm]].
      * by apply (expanded_empty snapshots c) in Hnone.
      * exists (URI m). split; [done|]. rewrite Hperm.
        apply elem_of_elements. by apply elem_of_expanded.
Qed.

Lemma elem_of_concat {A} (x : A) (ls : list (list A)) :
  x ∈ concat ls ↔ ∃ l, x ∈ l ∧ l ∈ ls.
Proof.
  induction ls as [|l0 ls IH]; cbn [concat].
  - split; [by intros ?%elem_of_nil|]. by intros (l & _ & ?%elem_of_nil).
  - rewrite elem_of_app, IH. split.
    + intros [Hx|(l & Hx & Hl)].
      * exists l0. split; [done|left].
      * exists l. split; [done|by right].
    + intros (l & Hx & Hl). apply elem_of_cons in Hl as [->|Hl].
      * by left.
      * right. eauto.
Qed.

(** X26. On a session whose views are allocated,
[ExpandModificationsToDirectories] returns, whatever the order in which
the map of expanded files is visited: it asks the snapshots of the views
that are not shut down; a change under whose URI none of them has a file
is passed on as it is; any other change is replaced by one modification
for each file observed under its URI, with the action and the on-disk
flag of the change, no text, no language and version 0.  A batch of
on-disk changes stays one. *)
Theorem ExpandModificationsToDirectories_spec s changes :
  allocated_views (heap s) (views s) →
  (∀ X, rangeOver X ≡ₚ elements X) →
  ∃ snapshots result,
    ExpandModificationsToDirectories filesInDir rangeOver s changes
    = Done result
    ∧ (∀ sn, sn ∈ snapshots ↔
         ∃ p v, Some p ∈ views s ∧ heap s !! p = Some v
                ∧ snapshot v = Some sn)
    ∧ (∀ m, m ∈ result ↔
         ∃ c, c ∈ changes
           ∧ ((m = c ∧ ∀ sn, sn ∈ snapshots → filesInDir sn (URI c) = [])
              ∨ ((∃ sn, sn ∈ snapshots ∧ URI m ∈ filesInDir sn (URI c))
                 ∧ m = {| URI := URI m; Action_ := Action_ c;
                          OnDisk := OnDisk c; Version := 0; Text := None;
                          LanguageID := "" |})))
    ∧ ((∀ c sn, c ∈ changes → sn ∈ snapshots →
          filesInDir sn (URI c) = []) → result = changes)
    ∧ (Forall on_disk_change changes → Forall on_disk_change result).
Proof.
  intros Hall Hperm.
  destruct (liveSnapshots_spec (heap s) (views s) Hall)
    as (snapshots & Hlive & Hsnapshots).
  exists snapshots, (concat (expandChange filesInDir rangeOver snapshots
                               <$> changes)).
  split; [unfold ExpandModificationsToDirectories; by rewrite Hlive|].
  split; [done|].
  assert (∀ m, m ∈ concat (expandChange filesInDir rangeOver snapshots
                             <$> changes) ↔
            ∃ c, c ∈ changes
              ∧ ((m = c ∧ ∀ sn, sn ∈ snapshots → filesInDir sn (URI c) = [])
                 ∨ ((∃ sn, sn ∈ snapshots ∧ URI m ∈ filesInDir sn (URI c))
                    ∧ m = {| URI := URI m; Action_ := Action_ c;
                             OnDisk := OnDisk c; Version := 0; Text := None;
                             LanguageID := "" |}))) as Hmem.
  { intros m. rewrite elem_of_concat. split.
    - intros (l & Hm & (c & -> & Hc)%list_elem_of_fmap).
      exists c. split; [done|]. by apply elem_of_expandChange.
    - intros (c & Hc & Hm). exists (expandChange filesInDir rangeOver snapshots c).
      split; [by apply elem_of_expandChange|].
      apply list_elem_of_fmap. eauto. }
  split; [done|]. split.
  - intros Hnone. clear Hmem.
    induction changes as [|c changes IH]; [done|].
    cbn [fmap list_fmap concat]. rewrite IH.
    + unfold expandChange. rewrite decide_True; [done|].
      apply expanded_empty. intros sn Hsn. apply Hnone; [left|done].
    + intros c' sn Hc' Hsn. apply Hnone; [by right|done].
  - intros Hdisk. apply list.Forall_forall. intros m Hm.
    apply Hmem in Hm as (c & Hc & Hm).
    pose proof (proj1 (list.Forall_forall _ _) Hdisk c Hc) as (Hd & Ht & Ha).
    destruct Hm as [[-> _]|[_ ->]]; [done|].
    by repeat split.
Qed.

End session_more.

Section session_more_samples.
Import file cache.
Local Existing Instances sample.funcs sample.viewfuncs.

Lemma ResetView_cases_witness :
  ∃ view v (i : nat),
    bestViewForURI sample.contains sample.knownFile (heap sample.session2)
      "file:///w/a/a.go" (views sample.session2) = Done view
    ∧ views sample.session2 !! i = Some (Some view)
    ∧ heap sample.session2 !! view = Some v
    ∧ (snapshot v = None →
       ResetView sample.contains sample.knownFile sample.session2
         "file:///w/a/a.go"
       = Panic "updateView called after View was already shut down")
    ∧ (∀ sn, snapshot v = Some sn →
         ∃ s' view',
           ResetView sample.contains sample.knownFile sample.session2
             "file:///w/a/a.go" = Done (s', Ok view')
           ∧ (view' ∉ dom (heap sample.session2))
           ∧ views s' = <[i := Some view']> (views sample.session2)
           ∧ heap s' !! view'
             = Some (recreated_view sample.session2 (view_definition v)
                       (folder v) sn)
           ∧ heap s' !! view = Some (shutdown v)).
Proof.
  apply (proj2 (ResetView_cases sample.contains sample.knownFile
                  sample.session2 "file:///w/a/a.go")).
  - apply sample_session2_allocated.
  - apply NoDup_cons. split; [|apply NoDup_singleton].
    by intros [=]%list_elem_of_singleton.
  - discriminate.
Defined.

Lemma sample_session3_allocated :
  allocated_views (heap sample.session3) (views sample.session3).
Proof.
  intros ov ->%list_elem_of_singleton. by exists 0, sample.view_seen.
Qed.

Lemma ExpandModificationsToDirectories_spec_witness :
  ∃ (snapshots : list Snapshot) (result : list Modification),
    ExpandModificationsToDirectories sample.filesInDir elements
      sample.session3 [sample.dir_a_deleted] = Done result
    ∧ (∀ sn, sn ∈ snapshots ↔
         ∃ p v, Some p ∈ views sample.session3
                ∧ heap sample.session3 !! p = Some v
                ∧ snapshot v = Some sn)
    ∧ (∀ m, m ∈ result ↔
         ∃ c, c ∈ [sample.dir_a_deleted]
           ∧ ((m = c ∧ ∀ sn, sn ∈ snapshots →
                        sample.filesInDir sn (URI c) = [])
              ∨ ((∃ sn, sn ∈ snapshots
                        ∧ URI m ∈ sample.filesInDir sn (URI c))
                 ∧ m = {| URI := URI m; Action_ := Action_ c;
                          OnDisk := OnDisk c; Version := 0; Text := None;
                          LanguageID := "" |})))
    ∧ ((∀ c sn, c ∈ [sample.dir_a_deleted] → sn ∈ snapshots →
          sample.filesInDir sn (URI c) = []) →
       result = [sample.dir_a_deleted])
    ∧ (Forall on_disk_change [sample.dir_a_deleted] →
       Forall on_disk_change result).
Proof.
  apply (ExpandModificationsToDirectories_spec sample.filesInDir elements
           sample.session3 [sample.dir_a_deleted]
           sample_session3_allocated).
  reflexivity.
Defined.

(** The deleted directory becomes the deletion of the two files seen in
it. *)
Example sample_expanded_directory :
  ∃ result,
    ExpandModificationsToDirectories sample.filesInDir elements
      sample.session3 [sample.dir_a_deleted] = Done result
    ∧ result ≡ₚ
      [ {| URI := "file:///w/a/a.go"; Action_ := Delete; OnDisk := true;
           Version := 0; Text := None; LanguageID := "" |};
        {| URI := "file:///w/a/a_test.go"; Action_ := Delete;
           OnDisk := true; Version := 0; Text := None;
           LanguageID := "" |} ].
Proof.
  eexists. split; [vm_compute; reflexivity|].
  first [reflexivity | apply Permutation_swap].
Qed.

End session_more_samples.
